(** * nestk mesh: a shallow embedding of [ntk/mesh/mesh.cpp]

    The development follows the source file function by function: the
    attribute store ([Mesh]), the procedural builders, the merge, the
    normal estimator, the PLY loader and the two topology clean-up passes
    ([removeDuplicatedVertices], [removeIsolatedVertices]); then the
    transforms, the centre, the vertex-face map, the PLY writer and what
    the reader finds in the files of the writer.

    Conventions.
    - A C++ [int] is a [Z] kept in the signed 32-bit range by [wrap32];
      a [size_t] is a [Z] kept in the unsigned 64-bit range by [to_size_t].
    - A [float] is a [spec_float] (the IEEE-754 model of the standard
      library) with the binary32 parameters [prec = 24], [emax = 128].
    - [std::vector] is a [list]; an access out of its bounds is the
      result [Undef] (undefined behaviour in C++).
    - [std::map<int,int>] is a [gmap Z Z]. *)

From Stdlib Require Import ZArith Lia Bool List String Permutation.
From Stdlib Require Import Floats.SpecFloat.
From stdpp Require Import base option list gmap strings pretty.

Open Scope Z_scope.

(** ** Results of fallible code *)

Module Res.

(** [Fatal] is raised by [ntk_ensure], [ntk_assert] and
    [ntk_throw_exception_if]; [Undef] is an access outside a vector;
    [OutOfFuel] is a loop that was not given enough iterations. *)
Inductive result (A : Type) : Type :=
  | Ok (a : A)
  | Fatal (msg : string)
  | Undef
  | OutOfFuel.

Arguments Ok {A} a.
Arguments Fatal {A} msg.
Arguments Undef {A}.
Arguments OutOfFuel {A}.

Definition bind {A B : Type} (r : result A) (k : A -> result B) : result B :=
  match r with
  | Ok a => k a
  | Fatal msg => Fatal msg
  | Undef => Undef
  | OutOfFuel => OutOfFuel
  end.

End Res.

Export Res.

#[global] Instance result_ret : MRet result := @Ok.
#[global] Instance result_bind : MBind result := fun A B k r => Res.bind r k.

(** [foldM f l a] runs [f] over [l] from the left, threading the
    accumulator and stopping at the first failure. *)
Fixpoint foldM {A B : Type} (f : A -> B -> result A) (l : list B) (a : A)
  : result A :=
  match l with
  | [] => Ok a
  | b :: l' => a' ← f a b; foldM f l' a'
  end.

Fixpoint mapM_res {A B : Type} (f : A -> result B) (l : list A)
  : result (list B) :=
  match l with
  | [] => Ok []
  | a :: l' => b ← f a; bs ← mapM_res f l'; Ok (b :: bs)
  end.

(** ** Machine integers *)

Definition wrap32 (z : Z) : Z := (z + 2 ^ 31) mod 2 ^ 32 - 2 ^ 31.
Definition to_size_t (z : Z) : Z := z mod 2 ^ 64.
Definition INT_MAX : Z := 2 ^ 31 - 1.

(** ** Vectors *)

(** [v[i]] for an [int] or [size_t] index [i]. *)
Definition vget {A : Type} (v : list A) (i : Z) : result A :=
  if 0 <=? i then
    match v !! Z.to_nat i with
    | Some a => Ok a
    | None => Undef
    end
  else Undef.

(** [v[i] = a]. *)
Definition vset {A : Type} (v : list A) (i : Z) (a : A) : result (list A) :=
  if (0 <=? i) && (i <? Z.of_nat (length v)) then Ok (<[Z.to_nat i := a]> v)
  else Undef.

(** [v.size()]. *)
Definition vsize {A : Type} (v : list A) : Z := Z.of_nat (length v).

(** ** Floats *)

Module F32.

Definition float : Type := spec_float.

Definition prec : Z := 24.
Definition emax : Z := 128.

Definition add : float -> float -> float := SFadd prec emax.
Definition sub : float -> float -> float := SFsub prec emax.
Definition mul : float -> float -> float := SFmul prec emax.
Definition div : float -> float -> float := SFdiv prec emax.
Definition sqrt : float -> float := SFsqrt prec emax.
Definition neg : float -> float := SFopp.

(** [a == b], [a != b], [a < b] on floats. *)
Definition eqb : float -> float -> bool := SFeqb.
Definition neqb (a b : float) : bool := negb (SFeqb a b).
Definition ltb : float -> float -> bool := SFltb.

(** The float nearest to an integer literal. *)
Definition of_Z (z : Z) : float := binary_normalize prec emax z 0 false.

Definition zero : float := S754_zero false.
Definition one : float := of_Z 1.
Definition two : float := of_Z 2.

(** [std::numeric_limits<float>::quiet_NaN()]. *)
Definition quiet_NaN : float := S754_nan.

(** [ntk::math::isnan] on a float. *)
Definition isnan (a : float) : bool :=
  match a with
  | S754_nan => true
  | _ => false
  end.

End F32.

Abbreviation float := F32.float.

(** *** The order of floats

    Away from NaN, [SFcompare] is the lexicographic comparison of a key
    of three integers: the class of the number (minus infinity, negative,
    zero, positive, plus infinity), then the exponent and the mantissa,
    both negated for a negative number. *)

Fixpoint lex_cmp (k1 k2 : list Z) : comparison :=
  match k1, k2 with
  | [], [] => Eq
  | [], _ :: _ => Lt
  | _ :: _, [] => Gt
  | a :: k1', b :: k2' =>
      match a ?= b with
      | Eq => lex_cmp k1' k2'
      | c => c
      end
  end.

(** [k1] is not above [k2]. *)
Definition lex_le (k1 k2 : list Z) : Prop := lex_cmp k1 k2 <> Gt.

Definition SFkey (a : float) : list Z :=
  match a with
  | S754_infinity true => [-2; 0; 0]
  | S754_finite true m e => [-1; - e; Zneg m]
  | S754_zero _ => [0; 0; 0]
  | S754_finite false m e => [1; e; Zpos m]
  | S754_infinity false => [2; 0; 0]
  | S754_nan => [3; 0; 0]
  end.

(** ** Points, vectors and colours *)

(** [cv::Point3f]; [cv::Vec3f] has the same three float fields. *)
Record Point3f : Type := mkPoint3f { px : float; py : float; pz : float }.
Abbreviation Vec3f := Point3f.

(** [cv::Point2f]. *)
Record Point2f : Type := mkPoint2f { p2x : float; p2y : float }.

(** [cv::Vec3b]: three unsigned bytes. *)
Record Vec3b : Type := mkVec3b { c0 : Z; c1 : Z; c2 : Z }.

Module P3.

Definition zero : Point3f := mkPoint3f F32.zero F32.zero F32.zero.

(** [a + b], [a - b], [v * s] and [a.cross(b)], component by component in
    single precision as OpenCV computes them. *)
Definition add (a b : Point3f) : Point3f :=
  mkPoint3f (F32.add (px a) (px b)) (F32.add (py a) (py b))
            (F32.add (pz a) (pz b)).

Definition sub (a b : Point3f) : Point3f :=
  mkPoint3f (F32.sub (px a) (px b)) (F32.sub (py a) (py b))
            (F32.sub (pz a) (pz b)).

Definition scale (v : Vec3f) (s : float) : Vec3f :=
  mkPoint3f (F32.mul (px v) s) (F32.mul (py v) s) (F32.mul (pz v) s).

Definition cross (a b : Vec3f) : Vec3f :=
  mkPoint3f
    (F32.sub (F32.mul (py a) (pz b)) (F32.mul (pz a) (py b)))
    (F32.sub (F32.mul (pz a) (px b)) (F32.mul (px a) (pz b)))
    (F32.sub (F32.mul (px a) (py b)) (F32.mul (py a) (px b))).

(** The Euclidean length of a vector. *)
Definition norm (v : Vec3f) : float :=
  F32.sqrt (F32.add (F32.add (F32.mul (px v) (px v)) (F32.mul (py v) (py v)))
                    (F32.mul (pz v) (pz v))).

(** [a == b] of OpenCV: all three coordinates compare equal. *)
Definition eqb (a b : Point3f) : bool :=
  F32.eqb (px a) (px b) && F32.eqb (py a) (py b) && F32.eqb (pz a) (pz b).

(** Modelled from the spec: [operator<] on [cv::Point3f] comes from
    [ntk/utils/opencv_utils.h], which is not among the sources; the order
    is "lexicographic on x, then y, then z - exact floating-point
    equality, no epsilon". *)
Definition ltb (a b : Point3f) : bool :=
  if F32.neqb (px a) (px b) then F32.ltb (px a) (px b)
  else if F32.neqb (py a) (py b) then F32.ltb (py a) (py b)
  else F32.ltb (pz a) (pz b).

(** No coordinate is NaN. *)
Definition nan_free (a : Point3f) : bool :=
  negb (F32.isnan (px a)) && negb (F32.isnan (py a))
  && negb (F32.isnan (pz a)).

(** The comparison key of a NaN-free point. *)
Definition key (a : Point3f) : list Z :=
  SFkey (px a) ++ SFkey (py a) ++ SFkey (pz a).

Definition cmp (a b : Point3f) : comparison := lex_cmp (key a) (key b).

End P3.

(** Modelled from the spec: [infinite_point] is a helper of
    [ntk/utils/opencv_utils.h], which is not among the sources; it is the
    sentinel "infinite point (all coordinates set to a non-finite
    marker)" that the compaction recognises as NaN. *)
Definition infinite_point : Point3f :=
  mkPoint3f F32.quiet_NaN F32.quiet_NaN F32.quiet_NaN.

(** Modelled from the spec: [isnan] on a point is a helper of
    [ntk/utils/opencv_utils.h], which is not among the sources; "a vertex
    whose position is non-finite (NaN) is dropped". *)
Definition isnan (p : Point3f) : bool := negb (P3.nan_free p).

(** ** The attribute store *)

(** [ntk::Face]: a triangle, three [int] vertex indices. *)
Record Face : Type := mkFace { idx0 : Z; idx1 : Z; idx2 : Z }.

(** [face.indices[0..2]] in order; [numVertices()] is their number. *)
Definition indices (f : Face) : list Z := [idx0 f; idx1 f; idx2 f].
Definition numVertices (f : Face) : Z := 3.

(** Applies [g] to the three indices of a face. *)
Definition map_indices (g : Z -> Z) (f : Face) : Face :=
  mkFace (g (idx0 f)) (g (idx1 f)) (g (idx2 f)).

(** [ntk::FaceTexcoords]: the wedge coordinates [u[3]], [v[3]] of a face. *)
Record FaceTexcoords : Type := mkFaceTexcoords { ftu : list float; ftv : list float }.

(** [cv::Mat3b]: rows of pixels; [texture.data] is null for [None]. *)
Definition Mat3b : Type := option (list (list Vec3b)).

(** [ntk::Mesh]. *)
Record Mesh : Type := mkMesh {
  vertices : list Point3f;
  colors : list Vec3b;
  normals : list Point3f;
  texcoords : list Point2f;
  faces : list Face;
  face_texcoords : list FaceTexcoords;
  texture : Mat3b
}.

(** A default-constructed mesh. *)
Definition empty_mesh : Mesh := mkMesh [] [] [] [] [] [] None.

(** Modelled from the spec: the presence queries are declared in [mesh.h],
    which is not among the sources; "an attribute is present iff its array
    length equals the vertex count, otherwise empty", and faces are
    present "if faces exist". *)
Definition hasColors (m : Mesh) : bool :=
  Nat.eqb (length (colors m)) (length (vertices m)).
Definition hasNormals (m : Mesh) : bool :=
  Nat.eqb (length (normals m)) (length (vertices m)).
Definition hasTexcoords (m : Mesh) : bool :=
  Nat.eqb (length (texcoords m)) (length (vertices m)).
Definition hasFaces (m : Mesh) : bool :=
  negb (Nat.eqb (length (faces m)) 0).

(** [ntk::Surfel], the input of the splat builders. *)
Record Surfel : Type := mkSurfel {
  location : Point3f;
  normal : Vec3f;
  color : Vec3b;
  radius : float
}.

(** The invariant of the data model: an optional per-vertex array is
    empty or as long as the vertex array. *)
Definition attr_ok {A : Type} (attr : list A) (vs : list Point3f) : Prop :=
  attr = [] \/ length attr = length vs.

Definition attrs_consistent (m : Mesh) : Prop :=
  attr_ok (colors m) (vertices m) /\ attr_ok (normals m) (vertices m)
  /\ attr_ok (texcoords m) (vertices m).

(** Every index of every face designates a vertex. *)
Definition index_in_range (m : Mesh) (i : Z) : Prop :=
  0 <= i < vsize (vertices m).

Definition faces_in_range (m : Mesh) : Prop :=
  forall f i, f ∈ faces m -> i ∈ indices f -> index_in_range m i.

(** ** Procedural builders *)

(** [Mesh::addPointFromSurfel]. *)
Definition addPointFromSurfel (m : Mesh) (surfel : Surfel) : Mesh :=
  mkMesh (vertices m ++ [location surfel])
         (colors m ++ [color surfel])
         (normals m ++ [normal surfel])
         (texcoords m) (faces m) (face_texcoords m) (texture m).

Section Builders.

(** Collaborators that are not part of this file: [cv::norm] (its result
    is a double), [ntk::orthogonal_basis], and the plane with its
    [intersectionWithLine]. *)
Variable cv_norm : Vec3f -> float.
Variable orthogonal_basis : Vec3f -> Vec3f * Vec3f.
Variable Plane : Type.
Variable intersectionWithLine : Plane -> Point3f -> Point3f -> Point3f.

(** The double [0.9]. *)
Definition double_0_9 : float :=
  SFdiv 53 1024 (binary_normalize 53 1024 9 0 false)
                (binary_normalize 53 1024 10 0 false).

(** [Mesh::addSurfel]; the [ntk_assert] on the normal is a fatal error. *)
Definition addSurfel (m : Mesh) (surfel : Surfel) : result Mesh :=
  let idx := wrap32 (vsize (vertices m)) in
  if SFltb double_0_9 (cv_norm (normal surfel)) then
    let '(v1, v2) := orthogonal_basis (normal surfel) in
    let r := radius surfel in
    let half := F32.div r F32.two in
    let nhalf := F32.div (F32.neg r) F32.two in
    let loc := location surfel in
    let p0 := P3.add loc (P3.scale v1 r) in
    let p1 := P3.add loc (P3.add (P3.scale v1 half) (P3.scale v2 r)) in
    let p2 := P3.add loc (P3.add (P3.scale v1 nhalf) (P3.scale v2 r)) in
    let p3 := P3.add loc (P3.scale v1 (F32.neg r)) in
    let p4 := P3.add loc (P3.add (P3.scale v1 nhalf) (P3.scale v2 (F32.neg r))) in
    let p5 := P3.add loc (P3.add (P3.scale v1 half) (P3.scale v2 (F32.neg r))) in
    let at_ k := wrap32 (idx + k) in
    Ok (mkMesh (vertices m ++ [p0; p1; p2; p3; p4; p5])
               (colors m ++ replicate 6 (color surfel))
               (normals m ++ replicate 6 (normal surfel))
               (texcoords m)
               (faces m ++ [mkFace (at_ 5) (at_ 0) (at_ 1);
                            mkFace (at_ 5) (at_ 1) (at_ 2);
                            mkFace (at_ 4) (at_ 5) (at_ 2);
                            mkFace (at_ 4) (at_ 2) (at_ 3)])
               (face_texcoords m) (texture m))
  else Fatal "Normal must be normalized and valid!".

(** [generate_mesh_from_plane]. *)
Definition generate_mesh_from_plane (mesh : Mesh) (plane : Plane)
    (center : Point3f) (plane_size : float) : Mesh :=
  let lo c := F32.sub c plane_size in
  let hi c := F32.add c plane_size in
  let line1 := (mkPoint3f (lo (px center)) (lo (py center)) (lo (pz center)),
                mkPoint3f (lo (px center)) (hi (py center)) (lo (pz center))) in
  let line2 := (mkPoint3f (hi (px center)) (lo (py center)) (lo (pz center)),
                mkPoint3f (hi (px center)) (hi (py center)) (lo (pz center))) in
  let line3 := (mkPoint3f (lo (px center)) (lo (py center)) (hi (pz center)),
                mkPoint3f (lo (px center)) (hi (py center)) (hi (pz center))) in
  let line4 := (mkPoint3f (hi (px center)) (lo (py center)) (hi (pz center)),
                mkPoint3f (hi (px center)) (hi (py center)) (hi (pz center))) in
  let plane_p1 := intersectionWithLine plane (fst line1) (snd line1) in
  let plane_p2 := intersectionWithLine plane (fst line2) (snd line2) in
  let plane_p3 := intersectionWithLine plane (fst line3) (snd line3) in
  let plane_p4 := intersectionWithLine plane (fst line4) (snd line4) in
  mkMesh (vertices mesh ++ [plane_p1; plane_p2; plane_p3; plane_p4])
         (colors mesh) (normals mesh) (texcoords mesh)
         (faces mesh ++ [mkFace 0 1 2; mkFace 2 1 3])
         (face_texcoords mesh) (texture mesh).

End Builders.

(** The four edges that [generate_mesh_from_plane] intersects with the
    plane ([line1] to [line4]), as pairs of end points. *)
Definition plane_edges (center : Point3f) (plane_size : float)
  : list (Point3f * Point3f) :=
  let lo c := F32.sub c plane_size in
  let hi c := F32.add c plane_size in
  [ (mkPoint3f (lo (px center)) (lo (py center)) (lo (pz center)),
     mkPoint3f (lo (px center)) (hi (py center)) (lo (pz center)));
    (mkPoint3f (hi (px center)) (lo (py center)) (lo (pz center)),
     mkPoint3f (hi (px center)) (hi (py center)) (lo (pz center)));
    (mkPoint3f (lo (px center)) (lo (py center)) (hi (pz center)),
     mkPoint3f (lo (px center)) (hi (py center)) (hi (pz center)));
    (mkPoint3f (hi (px center)) (lo (py center)) (hi (pz center)),
     mkPoint3f (hi (px center)) (hi (py center)) (hi (pz center))) ].

(** The table [links] shared by the cube builders. *)
Definition links : list Face :=
  [ mkFace 0 1 3; mkFace 0 3 2;
    mkFace 0 5 1; mkFace 0 4 5;
    mkFace 3 1 5; mkFace 3 5 7;
    mkFace 2 3 7; mkFace 2 7 6;
    mkFace 6 5 4; mkFace 6 7 5;
    mkFace 0 2 6; mkFace 0 6 4 ].

(** [Mesh::addCube]. The corner coordinates are single-precision values
    kept in [double] tables, so the round trip through the tables is
    exact. *)
Definition addCube (m : Mesh) (center sizes : Point3f) (color : Vec3b) : Mesh :=
  let has_colors := hasColors m in
  let xvals := [F32.sub (px center) (F32.div (px sizes) F32.two);
                F32.add (px center) (F32.div (px sizes) F32.two)] in
  let yvals := [F32.sub (py center) (F32.div (py sizes) F32.two);
                F32.add (py center) (F32.div (py sizes) F32.two)] in
  let zvals := [F32.sub (pz center) (F32.div (pz sizes) F32.two);
                F32.add (pz center) (F32.div (pz sizes) F32.two)] in
  let first_vertex_index := wrap32 (vsize (vertices m)) in
  let corners :=
    x ← xvals; y ← yvals; z ← zvals; [mkPoint3f x y z] in
  mkMesh (vertices m ++ corners)
         (if has_colors then colors m ++ replicate (length corners) color
          else colors m)
         (normals m) (texcoords m)
         (faces m ++ map (map_indices (fun l => wrap32 (first_vertex_index + l))) links)
         (face_texcoords m) (texture m).

(** [Mesh::addMesh]; [ntk_throw_exception_if] is a fatal error. *)
Definition addMesh (m rhs : Mesh) : result Mesh :=
  if vsize (vertices m) <? 1 then Ok rhs
  else
    let has_colors := hasColors m in
    let offset := wrap32 (vsize (vertices m)) in
    let vertices1 := vertices m ++ vertices rhs in
    colors1 ←
      (if has_colors then
         if negb (hasColors rhs)
         then Fatal "Cannot merge different kind of meshes."
         else Ok (colors m ++ colors rhs)
       else Ok (colors m));
    let m1 := mkMesh vertices1 colors1 (normals m) (texcoords m) (faces m)
                     (face_texcoords m) (texture m) in
    let has_normals := hasNormals m1 in
    normals1 ←
      (if has_normals then
         if negb (hasNormals rhs)
         then Fatal "Cannot merge different kind of meshes."
         else Ok (normals m ++ normals rhs)
       else Ok (normals m));
    Ok (mkMesh vertices1 colors1 normals1 (texcoords m)
               (faces m ++ map (map_indices (fun i => wrap32 (i + offset))) (faces rhs))
               (face_texcoords m) (texture m)).

(** ** Normal estimation *)

(** Modelled from the spec: [ntk::normalize] comes from
    [ntk/numeric/utils.h], which is not among the sources; it brings a
    vector "to unit length", and "a vertex touched by zero faces keeps a
    zero vector". *)
Definition normalize (v : Vec3f) : Vec3f :=
  let n := P3.norm v in
  if F32.eqb n F32.zero then v
  else mkPoint3f (F32.div (px v) n) (F32.div (py v) n) (F32.div (pz v) n).

(** The cross product that a face contributes. *)
Definition face_normal (p0 p1 p2 : Point3f) : Vec3f :=
  let v01 := P3.sub p1 p0 in
  let v02 := P3.sub p2 p0 in
  P3.cross v01 v02.

(** [normals[k] += n]. *)
Definition add_to (n : Vec3f) (acc : list Point3f) (k : Z)
  : result (list Point3f) :=
  a ← vget acc k; vset acc k (P3.add a n).

(** One turn of the loop over the faces. *)
Definition accumulate_face (vs : list Point3f) (acc : list Point3f)
    (face : Face) : result (list Point3f) :=
  p1 ← vget vs (idx1 face);
  p0 ← vget vs (idx0 face);
  p2 ← vget vs (idx2 face);
  foldM (add_to (face_normal p0 p1 p2)) (indices face) acc.

(** How many of the three indices of a face designate the vertex [k]. *)
Definition touches (face : Face) (k : nat) : nat :=
  length (filter (fun i => i = Z.of_nat k) (indices face)).

(** [Mesh::computeNormalsFromFaces]. *)
Definition computeNormalsFromFaces (m : Mesh) : result Mesh :=
  let normals0 := replicate (length (vertices m)) P3.zero in
  normals1 ← foldM (accumulate_face (vertices m)) (faces m) normals0;
  Ok (mkMesh (vertices m) (colors m) (map normalize normals1) (texcoords m)
             (faces m) (face_texcoords m) (texture m)).

(** ** The PLY loader *)

(** [PlyVertex] and [PlyFace], the records the PLY reader fills. *)
Record PlyVertex : Type := mkPlyVertex {
  ply_x : float; ply_y : float; ply_z : float;
  ply_nx : float; ply_ny : float; ply_nz : float;
  ply_u : float; ply_v : float;
  ply_r : Z; ply_g : Z; ply_b : Z
}.

Record PlyFace : Type := mkPlyFace {
  nverts : Z;
  verts : list Z;
  ntexcoord : Z;
  texcoord : list float
}.

(** What the reader ([ply.h], not part of this file) delivers for one
    element of the header: the element named "vertex" with its declared
    property names and its records read into [PlyVertex], the element
    named "face" likewise with [PlyFace], or another element, which the
    loader skips. *)
Inductive PlyElement : Type :=
  | VertexElement (props : list string) (records : list PlyVertex)
  | FaceElement (props : list string) (records : list PlyFace)
  | OtherElement (name : string) (elem_count : Z).

(** The outcome of [fopen] followed by [ply::read_ply]. *)
Inductive PlyInput : Type :=
  | OpenFailed
  | ParseFailed
  | Parsed (elems : list PlyElement).

(** [has_property(ply_file, elem_name, prop_name)]: the property is
    declared by the first element of that name. *)
Fixpoint has_vertex_property (elems : list PlyElement) (prop : string) : bool :=
  match elems with
  | [] => false
  | VertexElement props _ :: _ => bool_decide (prop ∈ props)
  | _ :: elems' => has_vertex_property elems' prop
  end.

(** The local variables of the loader that the element loop updates. *)
Record LoadState : Type := mkLoadState {
  has_colors : bool;
  has_normals : bool;
  has_texcoords : bool;
  has_faces : bool;
  ply_vertices : list PlyVertex;
  ply_faces : list PlyFace
}.

Definition load_init : LoadState := mkLoadState false false false false [] [].

(** One turn of the loop over the element types. [resize] followed by a
    read of every record leaves exactly the records of the element. *)
Definition read_element (elems : list PlyElement) (st : LoadState)
    (e : PlyElement) : LoadState :=
  match e with
  | VertexElement _ records =>
      mkLoadState
        (has_colors st || has_vertex_property elems "red")
        (has_normals st || has_vertex_property elems "nx")
        (has_texcoords st || has_vertex_property elems "s")
        (has_faces st) records (ply_faces st)
  | FaceElement _ records =>
      mkLoadState (has_colors st) (has_normals st) (has_texcoords st)
                  true (ply_vertices st) records
  | OtherElement _ _ => st
  end.

Definition read_elements (elems : list PlyElement) : LoadState :=
  fold_left (read_element elems) elems load_init.

(** The conversion of one [PlyFace]. *)
Definition convert_face (f : PlyFace) : result Face :=
  if negb (nverts f =? 3) then Fatal "Only triangles are supported."
  else
    a ← vget (verts f) 0; b ← vget (verts f) 1; c ← vget (verts f) 2;
    Ok (mkFace a b c).

(** [Mesh::loadFromPlyFile]; the texture and the wedge coordinates of the
    receiver are not reset. *)
Definition loadFromPlyFile (m : Mesh) (input : PlyInput) : result Mesh :=
  match input with
  | OpenFailed => Fatal "Could not open mesh file."
  | ParseFailed => Fatal "Could not parse mesh file."
  | Parsed elems =>
      let st := read_elements elems in
      let vs := map (fun v => mkPoint3f (ply_x v) (ply_y v) (ply_z v))
                    (ply_vertices st) in
      let cs := if has_colors st
                then map (fun v => mkVec3b (ply_r v) (ply_g v) (ply_b v))
                         (ply_vertices st)
                else [] in
      let ns := if has_normals st
                then map (fun v => mkPoint3f (ply_nx v) (ply_ny v) (ply_nz v))
                         (ply_vertices st)
                else [] in
      fs ← (if has_faces st then mapM_res convert_face (ply_faces st)
            else Ok []);
      Ok (mkMesh vs cs ns [] fs (face_texcoords m) (texture m))
  end.

(** The face records of a parsed file, and the number of elements named
    "face" in its header. *)
Fixpoint face_records (elems : list PlyElement) : list PlyFace :=
  match elems with
  | [] => []
  | FaceElement _ records :: elems' => records ++ face_records elems'
  | _ :: elems' => face_records elems'
  end.

Definition is_face_element (e : PlyElement) : bool :=
  match e with
  | FaceElement _ _ => true
  | _ => false
  end.

Fixpoint face_element_count (elems : list PlyElement) : nat :=
  match elems with
  | [] => 0
  | e :: elems' =>
      ((if is_face_element e then 1 else 0) + face_element_count elems')%nat
  end.

(** The reader's contract on a face record: [verts] holds [nverts]
    indices. *)
Definition well_read (f : PlyFace) : Prop :=
  Z.of_nat (length (verts f)) = nverts f.

(** ** Topology clean-up *)

(** *** Compaction *)

(** The first loop of [removeIsolatedVertices]: the new index of every
    vertex, [-1] for a dropped one, and the final [cur_index]. *)
Fixpoint number_vertices (vs : list Point3f) (cur_index : Z) : list Z * Z :=
  match vs with
  | [] => ([], cur_index)
  | p :: vs' =>
      if isnan p then
        let '(l, c) := number_vertices vs' cur_index in (-1 :: l, c)
      else
        let '(l, c) := number_vertices vs' (wrap32 (cur_index + 1)) in
        (cur_index :: l, c)
  end.

(** [dst[new_index] = src[i]], done only when the attribute is present. *)
Definition copy_attr {A : Type} (present : bool) (src dst : list A)
    (i : nat) (new_index : Z) : result (list A) :=
  if present then a ← vget src (Z.of_nat i); vset dst new_index a
  else Ok dst.

(** The arrays of [new_mesh]. *)
Record NewArrays : Type := mkNewArrays {
  new_vertices : list Point3f;
  new_colors : list Vec3b;
  new_normals : list Point3f;
  new_texcoords : list Point2f
}.

(** One turn of the second loop. *)
Definition copy_vertex (m : Mesh) (na : NewArrays) (entry : nat * Z)
  : result NewArrays :=
  let '(i, new_index) := entry in
  if new_index <? 0 then Ok na
  else
    vs ← copy_attr true (vertices m) (new_vertices na) i new_index;
    cs ← copy_attr (hasColors m) (colors m) (new_colors na) i new_index;
    ns ← copy_attr (hasNormals m) (normals m) (new_normals na) i new_index;
    ts ← copy_attr (hasTexcoords m) (texcoords m) (new_texcoords na) i new_index;
    Ok (mkNewArrays vs cs ns ts).

(** The rewriting of one face through the table of new indices. *)
Definition renumber_face (new_indices : list Z) (f : Face) : result Face :=
  a ← vget new_indices (idx0 f);
  b ← vget new_indices (idx1 f);
  c ← vget new_indices (idx2 f);
  Ok (mkFace a b c).

Definition default_color : Vec3b := mkVec3b 0 0 0.
Definition default_texcoord : Point2f := mkPoint2f F32.zero F32.zero.

(** [Mesh::removeIsolatedVertices]. *)
Definition removeIsolatedVertices (m : Mesh) : result Mesh :=
  let '(new_indices, cur_index) := number_vertices (vertices m) 0 in
  let n := Z.to_nat cur_index in
  let na0 :=
    mkNewArrays
      (replicate n P3.zero)
      (if hasColors m then replicate n default_color else [])
      (if hasNormals m then replicate n P3.zero else [])
      (if hasTexcoords m then replicate n default_texcoord else []) in
  na ← foldM (copy_vertex m)
             (zip (seq 0 (length (vertices m))) new_indices) na0;
  fs ← mapM_res (renumber_face new_indices) (faces m);
  Ok (mkMesh (new_vertices na) (new_colors na) (new_normals na)
             (new_texcoords na) fs (face_texcoords m) (texture m)).

(** The second loop seen from one array alone. *)
Definition copy_entry {A : Type} (present : bool) (src : list A)
    (dst : list A) (entry : nat * Z) : result (list A) :=
  let '(i, new_index) := entry in
  if new_index <? 0 then Ok dst else copy_attr present src dst i new_index.

(** The vertices that the compaction keeps, and the attribute values of
    the kept vertices. *)
Definition kept (p : Point3f) : bool := negb (isnan p).

Fixpoint compact_by {A : Type} (vs : list Point3f) (attr : list A) : list A :=
  match vs, attr with
  | p :: vs', a :: attr' =>
      if kept p then a :: compact_by vs' attr' else compact_by vs' attr'
  | _, _ => []
  end.

(** The number of kept vertices, and the table of new indices without the
    wrap-around of [++cur_index]. *)
Definition count_kept (vs : list Point3f) : nat :=
  length (filter (fun q => kept q = true) vs).

Fixpoint numbering (vs : list Point3f) (c : Z) : list Z :=
  match vs with
  | [] => []
  | p :: vs' =>
      if isnan p then -1 :: numbering vs' c else c :: numbering vs' (c + 1)
  end.

(** The new index of the vertex at [i]: [-1] when it is dropped, else the
    number of kept vertices before it. *)
Definition new_index (vs : list Point3f) (i : Z) : Z :=
  match vget vs i with
  | Ok p =>
      if isnan p then -1
      else Z.of_nat (count_kept (take (Z.to_nat i) vs))
  | _ => -1
  end.

(** What the compaction makes of a mesh whose face indices are in range. *)
Definition compacted (m : Mesh) : Mesh :=
  mkMesh (filter (fun q => kept q = true) (vertices m))
         (if hasColors m then compact_by (vertices m) (colors m) else [])
         (if hasNormals m then compact_by (vertices m) (normals m) else [])
         (if hasTexcoords m then compact_by (vertices m) (texcoords m) else [])
         (map (map_indices (new_index (vertices m))) (faces m))
         (face_texcoords m) (texture m).

(** *** Deduplication *)

(** [VertexComparator]: the order on indices that [std::sort] is given;
    an index outside the vertex array compares as unordered. *)
Definition VertexComparator (vs : list Point3f) (i1 i2 : Z) : bool :=
  match vget vs i1, vget vs i2 with
  | Ok p1, Ok p2 => P3.ltb p1 p2
  | _, _ => false
  end.

(** The postcondition of [std::sort]: what [std::is_sorted] tests. *)
Fixpoint std_is_sorted (comp : Z -> Z -> bool) (l : list Z) : bool :=
  match l with
  | a :: (b :: _) as l' => negb (comp b a) && std_is_sorted comp l'
  | _ => true
  end.

(** The precondition of [std::sort] on the values [l]: [comp] is a strict
    weak ordering (irreflexive, transitive, with a transitive
    incomparability). *)
Definition strict_weak_on (comp : Z -> Z -> bool) (l : list Z) : bool :=
  forallb (fun a => negb (comp a a)) l
  && forallb (fun a => forallb (fun b => forallb (fun c =>
       implb (comp a b && comp b c) (comp a c)
       && implb (negb (comp a b) && negb (comp b a)
                 && negb (comp b c) && negb (comp c b))
                (negb (comp a c) && negb (comp c a))) l) l) l.

(** [ordered_indices] before the sort: [0, 1, ..., n-1]. *)
Definition iota (n : nat) : list Z := map Z.of_nat (seq 0 n).

(** The inner [while] loop: [j] advances over the run of vertices equal
    to the one at [ordered_indices[i]]. *)
Fixpoint dedup_run (fuel : nat) (ordered_indices : list Z) (i j : Z)
    (vs : list Point3f) (vertex_alias : gmap Z Z)
  : result (Z * list Point3f * gmap Z Z) :=
  match fuel with
  | O => OutOfFuel
  | S fuel' =>
      if to_size_t j <? vsize ordered_indices then
        oi ← vget ordered_indices i;
        vi ← vget vs oi;
        oj ← vget ordered_indices j;
        vj ← vget vs oj;
        if P3.eqb vi vj then
          vs' ← vset vs oj infinite_point;
          dedup_run fuel' ordered_indices i (wrap32 (j + 1)) vs'
                    (<[oj := oi]> vertex_alias)
        else Ok (j, vs, vertex_alias)
      else Ok (j, vs, vertex_alias)
  end.

(** The outer [for] loop; [size() - 1] is computed on [size_t]. *)
Fixpoint dedup_scan (fuel fuel_run : nat) (ordered_indices : list Z) (i : Z)
    (vs : list Point3f) (vertex_alias : gmap Z Z)
  : result (list Point3f * gmap Z Z) :=
  match fuel with
  | O => OutOfFuel
  | S fuel' =>
      if to_size_t i <? to_size_t (vsize ordered_indices - 1) then
        '(j, vs', vertex_alias') ←
          dedup_run fuel_run ordered_indices i (wrap32 (i + 1)) vs vertex_alias;
        dedup_scan fuel' fuel_run ordered_indices j vs' vertex_alias'
      else Ok (vs, vertex_alias)
  end.

(** The rewriting of one face index through the alias map. *)
Definition resolve_alias (vertex_alias : gmap Z Z) (i : Z) : Z :=
  match vertex_alias !! i with
  | Some canonical => canonical
  | None => i
  end.

(** [Mesh::removeDuplicatedVertices], from the point where [std::sort]
    has returned: [ordered_indices] is the sorted vector. The alias map is
    returned next to the mesh. *)
Definition removeDuplicatedVertices_alias (ordered_indices : list Z)
    (fuel : nat) (m : Mesh) : result (Mesh * gmap Z Z) :=
  '(vs, vertex_alias) ←
    dedup_scan fuel fuel ordered_indices 0 (vertices m) ∅;
  Ok (mkMesh vs (colors m) (normals m) (texcoords m)
             (map (map_indices (resolve_alias vertex_alias)) (faces m))
             (face_texcoords m) (texture m),
      vertex_alias).

Definition removeDuplicatedVertices (ordered_indices : list Z) (fuel : nat)
    (m : Mesh) : result Mesh :=
  '(m', _) ← removeDuplicatedVertices_alias ordered_indices fuel m; Ok m'.

(** The scan read along the sorted order: the index at a position, the
    vertex at a position, and the position that heads the run a position
    is scanned in (a position heads a run when the vertex there differs
    from the vertex at the head of the run before it). *)
Definition at_pos (ordered_indices : list Z) (a : nat) : Z :=
  nth a ordered_indices 0.

Definition vertex_at (vs : list Point3f) (ordered_indices : list Z) (a : nat)
  : Point3f :=
  nth (Z.to_nat (at_pos ordered_indices a)) vs P3.zero.

Fixpoint head_of (vs : list Point3f) (ordered_indices : list Z) (a : nat)
  : nat :=
  match a with
  | O => O
  | S b =>
      let h := head_of vs ordered_indices b in
      if P3.eqb (vertex_at vs ordered_indices h)
                (vertex_at vs ordered_indices (S b))
      then h else S b
  end.

(** The state of the scan once the first [k] positions of the sorted order
    are behind it: a position scanned inside the run of an earlier one
    has its vertex replaced by the sentinel and its index aliased to the
    index at the head of the run; every other vertex is as it was and has
    no alias; nothing outside the vertex array has an alias. *)
Definition marked (vs0 : list Point3f) (ord : list Z) (k a : nat) : bool :=
  (a <? k)%nat && negb (head_of vs0 ord a =? a)%nat.

Definition scanned (vs0 : list Point3f) (ord : list Z) (k : nat)
    (vs : list Point3f) (alias : gmap Z Z) : Prop :=
  length vs = length vs0
  /\ (forall a : nat, (a < length vs0)%nat ->
        if marked vs0 ord k a then
          vs !! Z.to_nat (at_pos ord a) = Some infinite_point
          /\ alias !! at_pos ord a = Some (at_pos ord (head_of vs0 ord a))
        else
          vs !! Z.to_nat (at_pos ord a) = vs0 !! Z.to_nat (at_pos ord a)
          /\ alias !! at_pos ord a = None)
  /\ (forall key : Z, ~ (0 <= key < vsize vs0) -> alias !! key = None).

(** The fuel that the scan of [n] vertices needs. With no vertex,
    [size() - 1] wraps to the largest [size_t] and the loop runs until
    [i] has gone through every [int] up to [-1]. *)
Definition enough_fuel (n : nat) : nat :=
  match n with
  | O => Z.to_nat (2 ^ 32)
  | S _ => S n
  end.

(** The mesh that the deduplication returns for the scanned vertex array
    and alias map. *)
Definition deduplicated (m : Mesh) (vs : list Point3f) (alias : gmap Z Z)
  : Mesh :=
  mkMesh vs (colors m) (normals m) (texcoords m)
         (map (map_indices (resolve_alias alias)) (faces m))
         (face_texcoords m) (texture m).

(** No two vertices at different indices are equal. *)
Definition pairwise_distinct (vs : list Point3f) : Prop :=
  forall (i j : nat) p q,
    i <> j -> vs !! i = Some p -> vs !! j = Some q -> P3.eqb p q = false.

(** What [std::sort] guarantees about [ordered_indices] for the mesh. *)
Definition sorted_indices (m : Mesh) (ordered_indices : list Z) : Prop :=
  Permutation ordered_indices (iota (length (vertices m)))
  /\ std_is_sorted (VertexComparator (vertices m)) ordered_indices = true.

(** Deduplication followed by compaction. *)
Definition cleanup (ordered_indices : list Z) (fuel : nat) (m : Mesh)
  : result Mesh :=
  m1 ← removeDuplicatedVertices ordered_indices fuel m;
  removeIsolatedVertices m1.

(** ** Sample data *)

(** The point with small integer coordinates. *)
Definition pt (x y z : Z) : Point3f :=
  mkPoint3f (F32.of_Z x) (F32.of_Z y) (F32.of_Z z).

(** A mesh with vertices and faces only. *)
Definition bare_mesh (vs : list Point3f) (fs : list Face) : Mesh :=
  mkMesh vs [] [] [] fs [] None.

(** The triangle (0,0,0), (1,0,0), (0,1,0). *)
Definition triangle : Mesh :=
  bare_mesh [pt 0 0 0; pt 1 0 0; pt 0 1 0] [mkFace 0 1 2].

(** The triangle and a fourth vertex that no face touches. *)
Definition triangle_and_point : Mesh :=
  bare_mesh [pt 0 0 0; pt 1 0 0; pt 0 1 0; pt 5 5 5] [mkFace 0 1 2].

(** A plane model for trying [generate_mesh_from_plane]: the horizontal
    plane [z = 0], met by a vertical edge at the foot of its first end. *)
Definition flat_intersection (_ : unit) (a b : Point3f) : Point3f :=
  mkPoint3f (px a) (py a) F32.zero.

(** A parsed file with the triangle, and one with a quadrilateral face. *)
Definition ply_vertex (x y z : Z) : PlyVertex :=
  mkPlyVertex (F32.of_Z x) (F32.of_Z y) (F32.of_Z z)
              F32.zero F32.zero F32.zero F32.zero F32.zero 0 0 0.

Definition triangle_file : list PlyElement :=
  [ VertexElement ["x"; "y"; "z"]
      [ply_vertex 0 0 0; ply_vertex 1 0 0; ply_vertex 0 1 0];
    FaceElement ["vertex_indices"] [mkPlyFace 3 [0; 1; 2] 0 []] ].

Definition quad_file : list PlyElement :=
  [ VertexElement ["x"; "y"; "z"]
      [ply_vertex 0 0 0; ply_vertex 1 0 0; ply_vertex 1 1 0; ply_vertex 0 1 0];
    FaceElement ["vertex_indices"]
      [mkPlyFace 3 [0; 1; 2] 0 []; mkPlyFace 4 [0; 1; 2; 3] 0 []] ].

(** A single vertex that no face references. *)
Definition lonely_vertex : Mesh := bare_mesh [pt 0 0 0] [].

(** Two coincident vertices with a third one between them in the array,
    and a sorted order of the indices. *)
Definition doubled : Mesh :=
  bare_mesh [pt 1 2 3; pt 0 0 0; pt 1 2 3] [mkFace 0 1 2].
Definition doubled_order : list Z := [1; 0; 2].

(** Two coincident vertices with, between them in the array, a vertex
    that has their [x] and a NaN [y]: it compares neither below nor above
    them. No face references it. On these vertices [VertexComparator] is a
    strict weak ordering, as [std::sort] requires, and the indices as they
    stand are sorted. *)
Definition nan_between : Mesh :=
  bare_mesh [pt 0 0 0; pt 1 5 0;
             mkPoint3f (F32.of_Z 1) F32.quiet_NaN (F32.of_Z 0);
             pt 1 5 0; pt 4 0 0]
            [mkFace 0 1 4; mkFace 0 4 3].
Definition nan_between_order : list Z := [0; 1; 2; 3; 4].

(** A point cloud (no faces): two coincident points and, between them in
    the array, the sentinel that the deduplication itself writes. All
    three are unordered for [VertexComparator], which is then a strict
    weak ordering, and any order of the indices is sorted. *)
Definition nan_cloud : Mesh :=
  bare_mesh [pt 1 5 0; infinite_point; pt 1 5 0] [].
Definition nan_cloud_order : list Z := [0; 1; 2].

(** [nan_cloud] after one deduplication and compaction. *)
Definition nan_cloud_cleaned : Mesh := bare_mesh [pt 1 5 0; pt 1 5 0] [].

(** A receiver with one vertex and its normal, and two operands with one
    vertex: one without normals, one with a normal. *)
Definition with_normal : Mesh :=
  mkMesh [pt 0 0 0] [] [pt 0 0 1] [] [] [] None.
Definition operand_bare : Mesh := bare_mesh [pt 1 0 0] [].
Definition operand_normal : Mesh :=
  mkMesh [pt 1 0 0] [] [pt 0 1 0] [] [] [] None.

(** A surfel at the origin. *)
Definition sample_surfel : Surfel :=
  mkSurfel (pt 0 0 0) (pt 0 0 1) (mkVec3b 255 0 0) F32.one.

(** * The rest of [mesh.cpp] *)

(** ** The receiver of a refused merge *)

(** The receiver when [addMesh] stops, whether it returns or raises its
    error: the operand's vertices are appended before the presence of its
    colors is checked, and its colors before the presence of its normals
    is. *)
Definition addMesh_receiver (m rhs : Mesh) : Mesh :=
  if vsize (vertices m) <? 1 then rhs
  else
    let has_colors := hasColors m in
    let offset := wrap32 (vsize (vertices m)) in
    let vertices1 := vertices m ++ vertices rhs in
    let m0 := mkMesh vertices1 (colors m) (normals m) (texcoords m) (faces m)
                     (face_texcoords m) (texture m) in
    if has_colors && negb (hasColors rhs) then m0
    else
      let colors1 := if has_colors then colors m ++ colors rhs else colors m in
      let m1 := mkMesh vertices1 colors1 (normals m) (texcoords m) (faces m)
                       (face_texcoords m) (texture m) in
      let has_normals := hasNormals m1 in
      if has_normals && negb (hasNormals rhs) then m1
      else
        mkMesh vertices1 colors1
               (if has_normals then normals m ++ normals rhs else normals m)
               (texcoords m)
               (faces m
                ++ map (map_indices (fun i => wrap32 (i + offset))) (faces rhs))
               (face_texcoords m) (texture m).

(** ** Doubles *)

Module F64.

(** A [double] is a [spec_float] too, with the binary64 parameters; a
    [float] converts to [double] without change of value, and a [double]
    converts to [float] by rounding to nearest. *)
Definition prec : Z := 53.
Definition emax : Z := 1024.

Definition add : float -> float -> float := SFadd prec emax.
Definition sub : float -> float -> float := SFsub prec emax.
Definition mul : float -> float -> float := SFmul prec emax.
Definition div : float -> float -> float := SFdiv prec emax.

Definition of_Z (z : Z) : float := binary_normalize prec emax z 0 false.
Definition one : float := of_Z 1.
Definition two : float := of_Z 2.

(** [(float) d]. *)
Definition to_float32 (d : float) : float :=
  match d with
  | S754_finite s m e =>
      binary_normalize F32.prec F32.emax (if s then Zneg m else Zpos m) e s
  | _ => d
  end.

End F64.

(** [v.resize(n)] with the value-initialised element [d]. *)
Definition vresize {A : Type} (n : nat) (d : A) (v : list A) : list A :=
  take n v ++ replicate (n - length v) d.

(** ** Reset and rigid motions *)

(** [Mesh::clear]; the wedge coordinates are not among the arrays it
    empties. *)
Definition clear (m : Mesh) : Mesh :=
  mkMesh [] [] [] [] [] (face_texcoords m) None.

(** Replaces the vertex array of a mesh. *)
Definition with_vertices (m : Mesh) (vs : list Point3f) : Mesh :=
  mkMesh vs (colors m) (normals m) (texcoords m) (faces m)
         (face_texcoords m) (texture m).

Section Transform.

(** [Pose3D] and its [cameraTransform] are collaborators outside this
    file. *)
Variable Pose3D : Type.
Variable cameraTransform : Pose3D -> Point3f -> Point3f.

(** [Mesh::applyTransform]. *)
Definition applyTransform (m : Mesh) (pose : Pose3D) : Mesh :=
  with_vertices m (map (cameraTransform pose) (vertices m)).

End Transform.

(** [Mesh::applyScaleTransform]. *)
Definition scale_point (x_scale y_scale z_scale : float) (p : Point3f)
  : Point3f :=
  mkPoint3f (F32.mul (px p) x_scale) (F32.mul (py p) y_scale)
            (F32.mul (pz p) z_scale).

Definition applyScaleTransform (m : Mesh) (x_scale y_scale z_scale : float)
  : Mesh :=
  with_vertices m (map (scale_point x_scale y_scale z_scale) (vertices m)).

(** ** Centre of the vertices *)

(** [p *= d] for a double [d]: each coordinate is multiplied in double
    precision and converted back. *)
Definition scale_by_double (p : Point3f) (d : float) : Point3f :=
  mkPoint3f (F64.to_float32 (F64.mul (px p) d))
            (F64.to_float32 (F64.mul (py p) d))
            (F64.to_float32 (F64.mul (pz p) d)).

(** [Mesh::center]: the sum of the vertices times [1.0 / size()]. *)
Definition center (m : Mesh) : Point3f :=
  let sum := fold_left P3.add (vertices m) P3.zero in
  scale_by_double sum
    (F64.div F64.one (F64.of_Z (Z.of_nat (length (vertices m))))).

(** [Mesh::centerize]: the mesh moved by its centre, and the centre. *)
Definition centerize (m : Mesh) : Mesh * Point3f :=
  let c := center m in
  (with_vertices m (map (fun p => P3.sub p c) (vertices m)), c).

(** ** The faces around a vertex *)

(** [faces_per_vertex[k].push_back(face_i)]. *)
Definition push_face (face_i : Z) (fpv : list (list Z)) (k : Z)
  : result (list (list Z)) :=
  l ← vget fpv k; vset fpv k (l ++ [face_i]).

(** [Mesh::computeVertexFaceMap]; the argument is resized, not emptied. *)
Definition computeVertexFaceMap (m : Mesh) (faces_per_vertex : list (list Z))
  : result (list (list Z)) :=
  let fpv0 := vresize (length (vertices m)) [] faces_per_vertex in
  foldM (fun fpv '(face_i, face) =>
           foldM (push_face (wrap32 (Z.of_nat face_i))) (indices face) fpv)
        (zip (seq 0 (length (faces m))) (faces m)) fpv0.

(** ** The box builder *)

(** [ntk::Rect3f]: an axis-aligned box, by its corner and its extents. *)
Record Rect3f : Type := mkRect3f {
  rx : float; ry : float; rz : float;
  width : float; height : float; depth : float
}.

(** [generate_mesh_from_cube]. The centre is computed in double precision
    ([cube.width/2.]) and stored in a [Point3f]. *)
Definition generate_mesh_from_cube (mesh : Mesh) (cube : Rect3f) : Mesh :=
  let mid c w := F64.to_float32 (F64.add c (F64.div w F64.two)) in
  let center := mkPoint3f (mid (rx cube) (width cube))
                          (mid (ry cube) (height cube))
                          (mid (rz cube) (depth cube)) in
  let xvals := [F32.sub (px center) (F32.div (width cube) F32.two);
                F32.add (px center) (F32.div (width cube) F32.two)] in
  let yvals := [F32.sub (py center) (F32.div (height cube) F32.two);
                F32.add (py center) (F32.div (height cube) F32.two)] in
  let zvals := [F32.sub (pz center) (F32.div (depth cube) F32.two);
                F32.add (pz center) (F32.div (depth cube) F32.two)] in
  let first_vertex_index := wrap32 (vsize (vertices mesh)) in
  let corners :=
    x ← xvals; y ← yvals; z ← zvals; [mkPoint3f x y z] in
  mkMesh (vertices mesh ++ corners)
         (colors mesh) (normals mesh) (texcoords mesh)
         (faces mesh
          ++ map (map_indices (fun l => wrap32 (first_vertex_index + l))) links)
         (face_texcoords mesh) (texture mesh).

(** ** The PLY writer *)

(** The name of the PNG file that receives the texture. *)
Definition texture_filename (filename : string) : string :=
  if (3 <? String.length filename)%nat then
    substring 0 (String.length filename - 4) filename +:+ ".png"
  else filename +:+ ".texture.png".

(** A number written into the body of the file: a [float], a [double] or
    an integer. The decimal text of a float is the business of the output
    stream. *)
Inductive Token : Type :=
  | TFloat (f : float)
  | TDouble (d : float)
  | TInt (z : Z).

(** What [saveToPlyFile] writes: the texture image under its file name,
    the lines of the header, and the lines of the body as rows of
    numbers. *)
Record PlyText : Type := mkPlyText {
  texture_file : option (string * list (list Vec3b));
  header : list string;
  vertex_lines : list (list Token);
  face_lines : list (list Token)
}.

(** [isnan(x) ? 0 : x]. *)
Definition nan_to_zero (x : float) : float :=
  if F32.isnan x then F32.zero else x.

Section Writer.

(** [hasFaceTexcoords] is declared in [mesh.h], which is not among the
    sources. *)
Variable hasFaceTexcoords : Mesh -> bool.

(** The header. *)
Definition ply_header (m : Mesh) : list string :=
  ["ply"; "format ascii 1.0";
   "element vertex " +:+ pretty (length (vertices m));
   "property float x"; "property float y"; "property float z"]
  ++ (if hasNormals m
      then ["property float nx"; "property float ny"; "property float nz"]
      else [])
  ++ (if hasTexcoords m then ["property float s"; "property float t"] else [])
  ++ (if hasColors m
      then ["property uchar red"; "property uchar green";
            "property uchar blue"]
      else [])
  ++ (if hasFaces m
      then ["element face " +:+ pretty (length (faces m));
            "property list uchar uint vertex_indices"]
           ++ (if hasTexcoords m || hasFaceTexcoords m
               then ["property list uchar float texcoord"] else [])
      else [])
  ++ ["end_header"].

(** The line of the vertex at [i]. *)
Definition vertex_line (m : Mesh) (entry : nat * Point3f)
  : result (list Token) :=
  let '(i, p) := entry in
  ns ← (if hasNormals m then
          n ← vget (normals m) (Z.of_nat i);
          Ok [TFloat (nan_to_zero (px n)); TFloat (nan_to_zero (py n));
              TFloat (nan_to_zero (pz n))]
        else Ok []);
  ts ← (if hasTexcoords m then
          t ← vget (texcoords m) (Z.of_nat i);
          Ok [TFloat (p2x t); TFloat (p2y t)]
        else Ok []);
  cs ← (if hasColors m then
          c ← vget (colors m) (Z.of_nat i);
          Ok [TInt (c0 c); TInt (c1 c); TInt (c2 c)]
        else Ok []);
  Ok ([TFloat (px p); TFloat (py p); TFloat (pz p)] ++ ns ++ ts ++ cs).

(** The texture coordinates of one corner of a face, [v] flipped. *)
Definition shared_uv (m : Mesh) (index : Z) : result (list Token) :=
  t ← vget (texcoords m) index;
  Ok [TFloat (p2x t); TDouble (F64.sub F64.one (p2y t))].

Definition wedge_uv (ft : FaceTexcoords) (j : Z) : result (list Token) :=
  u ← vget (ftu ft) j;
  v ← vget (ftv ft) j;
  Ok [TFloat u; TDouble (F64.sub F64.one v)].

(** The lines of the face at [i]: its indices and, after a line break,
    its six texture coordinates when there are any. *)
Definition face_line (m : Mesh) (entry : nat * Face)
  : result (list (list Token)) :=
  let '(i, f) := entry in
  let first := TInt (numVertices f) :: map TInt (indices f) in
  if hasTexcoords m && negb (hasFaceTexcoords m) then
    uv ← mapM_res (shared_uv m) (indices f);
    Ok [first; TInt 6 :: concat uv]
  else if hasFaceTexcoords m then
    ft ← vget (face_texcoords m) (Z.of_nat i);
    uv ← mapM_res (wedge_uv ft) [0; 1; 2];
    Ok [first; TInt 6 :: concat uv]
  else Ok [first].

(** [Mesh::saveToPlyFile]. The result is what the function hands to
    [imwrite] and to the output stream; whether the files can be opened
    is not part of the model. *)
Definition saveToPlyFile (m : Mesh) (filename : string) : result PlyText :=
  let tex :=
    match texture m with
    | Some image => Some (texture_filename filename, image)
    | None => None
    end in
  vls ← mapM_res (vertex_line m)
                 (zip (seq 0 (length (vertices m))) (vertices m));
  fls ← (if hasFaces m then
           mapM_res (face_line m) (zip (seq 0 (length (faces m))) (faces m))
         else Ok []);
  Ok (mkPlyText tex (ply_header m) vls (concat fls)).

End Writer.

(** The scalar properties that a header declares: its lines
    [property float ...] and [property uchar ...]. *)
Definition is_scalar_property (line : string) : bool :=
  String.prefix "property float" line || String.prefix "property uchar" line.

Fixpoint declared_scalars (h : list string) : nat :=
  match h with
  | [] => 0
  | line :: h' =>
      ((if is_scalar_property line then 1 else 0) + declared_scalars h')%nat
  end.

(** The number written by a token is NaN. *)
Definition is_nan_token (t : Token) : bool :=
  match t with
  | TFloat f | TDouble f => F32.isnan f
  | TInt _ => false
  end.

(** ** Reading back what the writer wrote *)

(** *** The text of a number *)

(** [a / b] rounded to the nearest integer, ties to the even one, for
    [0 <= a] and [0 < b]. *)
Definition div_nearest_even (a b : Z) : Z :=
  let q := a / b in
  let r := a mod b in
  match 2 * r ?= b with
  | Lt => q
  | Gt => q + 1
  | Eq => if Z.even q then q else q + 1
  end.

(** [10^X <= num / den]. *)
Definition reaches (X num den : Z) : bool :=
  if 0 <=? X then den * 10 ^ X <=? num else den <=? num * 10 ^ (- X).

(** The decimal exponent of the positive number [num / den]: the largest
    [X] with [10^X <= num / den], searched downwards. *)
Fixpoint decimal_exponent (fuel : nat) (X num den : Z) : Z :=
  match fuel with
  | O => X
  | S fuel' =>
      if reaches X num den then X else decimal_exponent fuel' (X - 1) num den
  end.

(** The decimal [q * 10^k] with six significant digits that is nearest to
    [num / den]. *)
Definition six_digits (num den : Z) : Z * Z :=
  let k := decimal_exponent 700 330 num den - 5 in
  (if 0 <=? k then div_nearest_even num (den * 10 ^ k)
   else div_nearest_even (num * 10 ^ (- k)) den, k).

(** The number that comes back from the text of a number. The writer
    sets no precision on its stream, so [operator<<] writes a [float] or
    a [double] as the nearest decimal with six significant digits (the
    default precision, in the general format); a zero, an infinity and a
    NaN are written by name. The reader takes the text for the nearest
    [double] and stores it in a [float] field. *)
Definition stream_text (x : float) : float :=
  match x with
  | S754_finite s m e =>
      let num := if 0 <=? e then Zpos m * 2 ^ e else Zpos m in
      let den := if 0 <=? e then 1 else 2 ^ (- e) in
      let '(q, k) := six_digits num den in
      F64.to_float32
        (SFdiv F64.prec F64.emax
           (S754_finite s (Z.to_pos (q * 10 ^ Z.max k 0)) 0)
           (S754_finite false (Z.to_pos (10 ^ Z.max (- k) 0)) 0))
  | _ => x
  end.

(** *** The reader on the files of the writer *)

(** The rest of a line that starts with [p]. *)
Definition after_prefix (p line : string) : option string :=
  if String.prefix p line
  then Some (substring (String.length p)
                       (String.length line - String.length p) line)
  else None.

(** The name that a header line declares for a scalar property, and for
    a list property. *)
Definition scalar_property_name (line : string) : option string :=
  match after_prefix "property float " line with
  | Some name => Some name
  | None => after_prefix "property uchar " line
  end.

Definition list_property_name (line : string) : option string :=
  match after_prefix "property list uchar uint " line with
  | Some name => Some name
  | None => after_prefix "property list uchar float " line
  end.

Definition blank_vertex : PlyVertex :=
  mkPlyVertex F32.zero F32.zero F32.zero F32.zero F32.zero F32.zero
              F32.zero F32.zero 0 0 0.

Section Reader.

(** What comes back from the text of a [float] or of a [double]. *)
Variable text : float -> float.

(** Modelled from the spec: the low-level reader ([ply.h]) is not among
    the sources; it is "an external collaborator exposing
    element/property enumeration and typed field extraction", with a
    "typed bulk-read into fixed-layout records". The model covers the
    files that the writer above produces: a field is read from a number
    of the kind that the writer gives it, a [float] field from the text
    of a floating-point number, an [unsigned char] field and an [int]
    field from the text of an integer; on anything else the model is
    silent ([None]). *)
Definition float_of_token (t : Token) : option float :=
  match t with
  | TFloat f => Some (text f)
  | TDouble d => Some (text d)
  | TInt _ => None
  end.

Definition uchar_of_token (t : Token) : option Z :=
  match t with
  | TInt z => Some (z mod 256)
  | _ => None
  end.

Definition int_of_token (t : Token) : option Z :=
  match t with
  | TInt z => Some (wrap32 z)
  | _ => None
  end.

(** The field of [PlyVertex] that [available_vertex_properties] binds to
    the property [name] receives the number [t]. *)
Definition read_property (v : PlyVertex) (name : string) (t : Token)
  : option PlyVertex :=
  if String.eqb name "x" then
    f ← float_of_token t;
    Some (mkPlyVertex f (ply_y v) (ply_z v) (ply_nx v) (ply_ny v) (ply_nz v)
                      (ply_u v) (ply_v v) (ply_r v) (ply_g v) (ply_b v))
  else if String.eqb name "y" then
    f ← float_of_token t;
    Some (mkPlyVertex (ply_x v) f (ply_z v) (ply_nx v) (ply_ny v) (ply_nz v)
                      (ply_u v) (ply_v v) (ply_r v) (ply_g v) (ply_b v))
  else if String.eqb name "z" then
    f ← float_of_token t;
    Some (mkPlyVertex (ply_x v) (ply_y v) f (ply_nx v) (ply_ny v) (ply_nz v)
                      (ply_u v) (ply_v v) (ply_r v) (ply_g v) (ply_b v))
  else if String.eqb name "nx" then
    f ← float_of_token t;
    Some (mkPlyVertex (ply_x v) (ply_y v) (ply_z v) f (ply_ny v) (ply_nz v)
                      (ply_u v) (ply_v v) (ply_r v) (ply_g v) (ply_b v))
  else if String.eqb name "ny" then
    f ← float_of_token t;
    Some (mkPlyVertex (ply_x v) (ply_y v) (ply_z v) (ply_nx v) f (ply_nz v)
                      (ply_u v) (ply_v v) (ply_r v) (ply_g v) (ply_b v))
  else if String.eqb name "nz" then
    f ← float_of_token t;
    Some (mkPlyVertex (ply_x v) (ply_y v) (ply_z v) (ply_nx v) (ply_ny v) f
                      (ply_u v) (ply_v v) (ply_r v) (ply_g v) (ply_b v))
  else if String.eqb name "s" then
    f ← float_of_token t;
    Some (mkPlyVertex (ply_x v) (ply_y v) (ply_z v) (ply_nx v) (ply_ny v)
                      (ply_nz v) f (ply_v v) (ply_r v) (ply_g v) (ply_b v))
  else if String.eqb name "t" then
    f ← float_of_token t;
    Some (mkPlyVertex (ply_x v) (ply_y v) (ply_z v) (ply_nx v) (ply_ny v)
                      (ply_nz v) (ply_u v) f (ply_r v) (ply_g v) (ply_b v))
  else if String.eqb name "red" then
    c ← uchar_of_token t;
    Some (mkPlyVertex (ply_x v) (ply_y v) (ply_z v) (ply_nx v) (ply_ny v)
                      (ply_nz v) (ply_u v) (ply_v v) c (ply_g v) (ply_b v))
  else if String.eqb name "green" then
    c ← uchar_of_token t;
    Some (mkPlyVertex (ply_x v) (ply_y v) (ply_z v) (ply_nx v) (ply_ny v)
                      (ply_nz v) (ply_u v) (ply_v v) (ply_r v) c (ply_b v))
  else if String.eqb name "blue" then
    c ← uchar_of_token t;
    Some (mkPlyVertex (ply_x v) (ply_y v) (ply_z v) (ply_nx v) (ply_ny v)
                      (ply_nz v) (ply_u v) (ply_v v) (ply_r v) (ply_g v) c)
  else None.

(** One line of the vertex element: one number per declared property, in
    the order of the header. *)
Fixpoint read_vertex (props : list string) (line : list Token)
    (v : PlyVertex) : option PlyVertex :=
  match props, line with
  | [], [] => Some v
  | name :: props', t :: line' =>
      v' ← read_property v name t; read_vertex props' line' v'
  | _, _ => None
  end.

Fixpoint read_vertices (props : list string) (lines : list (list Token))
  : option (list PlyVertex) :=
  match lines with
  | [] => Some []
  | line :: lines' =>
      v ← read_vertex props line blank_vertex;
      vs ← read_vertices props lines';
      Some (v :: vs)
  end.

Fixpoint read_indices (line : list Token) : option (list Z) :=
  match line with
  | [] => Some []
  | t :: line' => i ← int_of_token t; l ← read_indices line'; Some (i :: l)
  end.

(** One line of the face element: the length of the list of indices,
    stored in an [unsigned char], and the indices. *)
Definition read_face (line : list Token) : option PlyFace :=
  match line with
  | TInt n :: rest =>
      if Z.of_nat (length rest) =? n then
        l ← read_indices rest; Some (mkPlyFace (n mod 256) l 0 [])
      else None
  | _ => None
  end.

Fixpoint read_faces (lines : list (list Token)) : option (list PlyFace) :=
  match lines with
  | [] => Some []
  | line :: lines' =>
      f ← read_face line; fs ← read_faces lines'; Some (f :: fs)
  end.

(** Modelled from the spec: the "element type enumeration" and the
    "per-element-type property declaration queries" of the reader on a
    file of the writer. It finds the vertex element with the scalar
    properties that the header declares and as many records as it
    announces, and the face element when the header declares one, with
    its list of indices only. *)
Definition read_ply (t : PlyText) : option PlyInput :=
  let props := omap scalar_property_name (header t) in
  if bool_decide
       ("element vertex " +:+ pretty (length (vertex_lines t)) ∈ header t)
  then
    vs ← read_vertices props (vertex_lines t);
    if existsb (String.prefix "element face ") (header t) then
      if bool_decide
           ("element face " +:+ pretty (length (face_lines t)) ∈ header t)
         && bool_decide
              (omap list_property_name (header t) = ["vertex_indices"])
      then
        fs ← read_faces (face_lines t);
        Some (Parsed [VertexElement props vs;
                      FaceElement ["vertex_indices"] fs])
      else None
    else Some (Parsed [VertexElement props vs])
  else None.

(** A point, coordinate by coordinate, through the text. *)
Definition text_point (p : Point3f) : Point3f :=
  mkPoint3f (text (px p)) (text (py p)) (text (pz p)).

End Reader.

(** A normal as the writer writes it. *)
Definition zero_nan (n : Point3f) : Point3f :=
  mkPoint3f (nan_to_zero (px n)) (nan_to_zero (py n)) (nan_to_zero (pz n)).

(** The lines of the vertices of a mesh with normals and colors and
    without texture coordinates, and the lines of its faces. *)
Definition vertex_row (p n : Point3f) (c : Vec3b) : list Token :=
  [TFloat (px p); TFloat (py p); TFloat (pz p);
   TFloat (nan_to_zero (px n)); TFloat (nan_to_zero (py n));
   TFloat (nan_to_zero (pz n));
   TInt (c0 c); TInt (c1 c); TInt (c2 c)].

Fixpoint vertex_rows (vs ns : list Point3f) (cs : list Vec3b)
  : list (list Token) :=
  match vs, ns, cs with
  | p :: vs', n :: ns', c :: cs' =>
      vertex_row p n c :: vertex_rows vs' ns' cs'
  | _, _, _ => []
  end.

Definition face_row (f : Face) : list Token :=
  TInt (numVertices f) :: map TInt (indices f).

(** The records that the reader fills from these lines. *)
Definition ply_record (text : float -> float) (p n : Point3f) (c : Vec3b)
  : PlyVertex :=
  mkPlyVertex (text (px p)) (text (py p)) (text (pz p))
              (text (nan_to_zero (px n))) (text (nan_to_zero (py n)))
              (text (nan_to_zero (pz n)))
              F32.zero F32.zero (c0 c) (c1 c) (c2 c).

Fixpoint ply_records (text : float -> float) (vs ns : list Point3f)
    (cs : list Vec3b) : list PlyVertex :=
  match vs, ns, cs with
  | p :: vs', n :: ns', c :: cs' =>
      ply_record text p n c :: ply_records text vs' ns' cs'
  | _, _, _ => []
  end.

Definition face_record (f : Face) : PlyFace :=
  mkPlyFace 3 (indices f) 0 [].

(** The components of a color are [unsigned char]s, the indices of a face
    are [int]s. *)
Definition uchar_color (c : Vec3b) : Prop :=
  0 <= c0 c < 256 /\ 0 <= c1 c < 256 /\ 0 <= c2 c < 256.

Definition int_face (f : Face) : Prop :=
  Forall (fun i => - 2 ^ 31 <= i < 2 ^ 31) (indices f).

(** ** Predicates of the statements *)

(** The three indices of a face designate vertices of [vs]. *)
Definition face_in_range (vs : list Point3f) (f : Face) : Prop :=
  forall i, i ∈ indices f -> 0 <= i < vsize vs.

(** The faces of an operand once [offset] has been added to their
    indices. *)
Definition shifted (offset : Z) (fs : list Face) : list Face :=
  map (map_indices (fun i => wrap32 (i + wrap32 offset))) fs.

(** What [addMesh] returns when it neither replaces the receiver nor
    refuses the operand nor appends normals. *)
Definition merged (m rhs : Mesh) : Mesh :=
  mkMesh (vertices m ++ vertices rhs)
         (if hasColors m then colors m ++ colors rhs else colors m)
         (normals m) (texcoords m)
         (faces m ++ shifted (vsize (vertices m)) (faces rhs))
         (face_texcoords m) (texture m).

(** The index [i] of [vs] and the index [j] of [ws] designate positions
    that compare equal. *)
Definition same_position (vs ws : list Point3f) (i j : Z) : Prop :=
  exists p q, vget vs i = Ok p /\ vget ws j = Ok q /\ P3.eqb q p = true.

(** The numbers of the faces around the vertex [v], from the face
    number [face_i] on: a face is listed once per corner on [v]. *)
Fixpoint incident_from (face_i : nat) (fs : list Face) (v : nat) : list Z :=
  match fs with
  | [] => []
  | f :: fs' =>
      replicate (touches f v) (Z.of_nat face_i)
      ++ incident_from (S face_i) fs' v
  end.

Definition incident (fs : list Face) (v : nat) : list Z :=
  incident_from 0 fs v.

(** ** More sample data *)

(** A mesh with every per-vertex array: three vertices, the middle one
    being the sentinel, and one face on the two others. *)
Definition painted : Mesh :=
  mkMesh [pt 0 0 0; infinite_point; pt 1 5 0]
         [mkVec3b 255 0 0; mkVec3b 0 255 0; mkVec3b 0 0 255]
         [pt 0 0 1; pt 0 1 0; pt 1 0 0]
         [mkPoint2f F32.zero F32.zero; mkPoint2f F32.one F32.zero;
          mkPoint2f F32.zero F32.one]
         [mkFace 0 2 2] [] None.

(** A face on the sentinel of [painted], and a face on a vertex that
    does not exist. *)
Definition dangling : Mesh := bare_mesh [pt 0 0 0; infinite_point] [mkFace 0 1 0].
Definition stray : Mesh := bare_mesh [pt 0 0 0] [mkFace 0 0 7].

(** Coloured and uncoloured meshes of one vertex, the second with a
    face. *)
Definition red_point : Mesh :=
  mkMesh [pt 0 0 0] [mkVec3b 255 0 0] [] [] [] [] None.
Definition blue_corner : Mesh :=
  mkMesh [pt 1 0 0] [mkVec3b 0 0 255] [] [] [mkFace 0 0 0] [] None.
Definition bare_point : Mesh := bare_mesh [pt 2 0 0] [].

(** A vertex-face map left over from an earlier call, longer than the
    mesh [triangle_and_point] has vertices. *)
Definition stale_map : list (list Z) := [[7]; []; []; []; [9]].

(** A box and a norm for trying the builders: the unit box at the origin,
    and a norm that takes every vector for a unit vector. *)
Definition unit_box : Rect3f :=
  mkRect3f F32.zero F32.zero F32.zero F32.one F32.one F32.one.
Definition unit_norm (_ : Vec3f) : float := F32.one.
Definition some_basis (_ : Vec3f) : Vec3f * Vec3f := (pt 1 0 0, pt 0 1 0).

(** A mesh without wedge coordinates, for the writer. *)
Definition no_wedges (_ : Mesh) : bool := false.

(** A parsed file whose vertex element declares texture coordinates. *)
Definition textured_file : list PlyElement :=
  [ VertexElement ["x"; "y"; "z"; "s"; "t"]
      [ mkPlyVertex F32.zero F32.zero F32.zero F32.zero F32.zero F32.zero
                    F32.one F32.one 0 0 0 ] ].

(** [stray] with a texture coordinate for its vertex. *)
Definition stray_textured : Mesh :=
  mkMesh [pt 0 0 0] [] [] [mkPoint2f F32.zero F32.one] [mkFace 0 0 7] [] None.

(** A parsed file with two elements named face: a quadrilateral in the
    first, a triangle in the second. *)
Definition two_face_file : list PlyElement :=
  [ VertexElement ["x"; "y"; "z"]
      [ply_vertex 0 0 0; ply_vertex 1 0 0; ply_vertex 1 1 0; ply_vertex 0 1 0];
    FaceElement ["vertex_indices"] [mkPlyFace 4 [0; 1; 2; 3] 0 []];
    FaceElement ["vertex_indices"] [mkPlyFace 3 [0; 1; 2] 0 []] ].

(** A triangle with normals and colors for the trip through a file, one
    of its normals with a NaN coordinate; and the same with a coordinate
    that takes seven digits to write. *)
Definition traveller : Mesh :=
  mkMesh [pt 0 0 0; pt 1 0 0; pt 0 1 0]
         [mkVec3b 255 0 0; mkVec3b 0 255 0; mkVec3b 0 0 255]
         [pt 0 0 1; mkPoint3f F32.quiet_NaN F32.zero F32.one; pt 0 0 1]
         [] [mkFace 0 1 2] [] None.

Definition seven_digits : Mesh :=
  mkMesh [pt 1234567 0 0; pt 1 0 0; pt 0 1 0]
         [mkVec3b 255 0 0; mkVec3b 0 255 0; mkVec3b 0 0 255]
         [pt 0 0 1; pt 0 0 1; pt 0 0 1]
         [] [mkFace 0 1 2] [] None.

(** * Properties *)

(** ** The result monad, integers and vectors *)

Lemma bind_Ok {A B : Type} (r : result A) (k : A -> result B) (b : B) :
  r ≫= k = Ok b <-> exists a, r = Ok a /\ k a = Ok b.
Proof.
  destruct r; simpl; split; intros H; try discriminate.
  - exists a. split; [reflexivity | exact H].
  - destruct H as [a' [Ha Hk]]. inversion Ha. subst. exact Hk.
  - destruct H as [a' [Ha _]]. discriminate.
  - destruct H as [a' [Ha _]]. discriminate.
  - destruct H as [a' [Ha _]]. discriminate.
Qed.

Lemma wrap32_small (z : Z) : - 2 ^ 31 <= z < 2 ^ 31 -> wrap32 z = z.
Proof.
  intros H. unfold wrap32. rewrite Z.mod_small; lia.
Qed.

Lemma to_size_t_small (z : Z) : 0 <= z < 2 ^ 64 -> to_size_t z = z.
Proof. intros H. unfold to_size_t. apply Z.mod_small. lia. Qed.

Lemma vget_Ok {A : Type} (v : list A) (i : Z) (a : A) :
  vget v i = Ok a <-> 0 <= i /\ v !! Z.to_nat i = Some a.
Proof.
  unfold vget. destruct (0 <=? i) eqn:Hi.
  - apply Z.leb_le in Hi.
    destruct (v !! Z.to_nat i) eqn:Hl; split; intros H.
    + inversion H. subst. auto.
    + destruct H as [_ H]. inversion H. reflexivity.
    + discriminate.
    + destruct H as [_ H]. discriminate.
  - apply Z.leb_gt in Hi. split; [discriminate | lia].
Qed.

Lemma vget_not_Fatal {A : Type} (v : list A) (i : Z) (msg : string) :
  vget v i <> Fatal msg.
Proof.
  unfold vget. destruct (0 <=? i); [| discriminate].
  destruct (v !! Z.to_nat i); discriminate.
Qed.

Lemma vget_of_nat {A : Type} (v : list A) (k : nat) :
  vget v (Z.of_nat k) = match v !! k with Some a => Ok a | None => Undef end.
Proof.
  unfold vget. replace (0 <=? Z.of_nat k) with true
    by (symmetry; apply Z.leb_le; lia).
  rewrite Nat2Z.id. reflexivity.
Qed.

Lemma vset_Ok {A : Type} (v : list A) (i : Z) (a : A) (v' : list A) :
  vset v i a = Ok v' <->
  0 <= i < Z.of_nat (length v) /\ v' = <[Z.to_nat i := a]> v.
Proof.
  unfold vset.
  destruct (0 <=? i) eqn:H0; destruct (i <? Z.of_nat (length v)) eqn:H1;
    simpl; split; intros H;
    try apply Z.leb_le in H0; try apply Z.leb_gt in H0;
    try apply Z.ltb_lt in H1; try apply Z.ltb_ge in H1;
    try discriminate; try lia.
  - inversion H. split; [lia | reflexivity].
  - destruct H as [_ ->]. reflexivity.
Qed.

Lemma lex_cmp_refl (k : list Z) : lex_cmp k k = Eq.
Proof.
  induction k as [| a k IH]; simpl; [reflexivity |].
  rewrite Z.compare_refl. exact IH.
Qed.

Lemma lex_cmp_eq (k1 k2 : list Z) : lex_cmp k1 k2 = Eq <-> k1 = k2.
Proof.
  split; [| intros ->; apply lex_cmp_refl].
  revert k2. induction k1 as [| a k1 IH]; intros [| b k2]; simpl;
    try discriminate; try reflexivity.
  destruct (Z.compare_spec a b) as [-> | Hlt | Hgt]; try discriminate.
  intros H. f_equal. apply IH. exact H.
Qed.

Lemma lex_cmp_opp (k1 k2 : list Z) :
  lex_cmp k2 k1 = CompOpp (lex_cmp k1 k2).
Proof.
  revert k2. induction k1 as [| a k1 IH]; intros [| b k2]; simpl;
    try reflexivity.
  rewrite (Z.compare_antisym a b).
  destruct (a ?= b); simpl; auto.
Qed.

Lemma lex_cmp_lt_trans (k1 k2 k3 : list Z) :
  lex_cmp k1 k2 = Lt -> lex_cmp k2 k3 = Lt -> lex_cmp k1 k3 = Lt.
Proof.
  revert k2 k3.
  induction k1 as [| a k1 IH]; intros [| b k2] [| c k3]; simpl;
    try discriminate; try reflexivity.
  destruct (Z.compare_spec a b) as [-> | Hab | Hab]; try discriminate.
  - destruct (Z.compare_spec b c) as [-> | Hbc | Hbc]; try discriminate.
    + apply IH.
    + reflexivity.
  - intros _.
    destruct (Z.compare_spec b c) as [-> | Hbc | Hbc]; try discriminate.
    + intros _. destruct (Z.compare_spec a c); try lia. reflexivity.
    + intros _. destruct (Z.compare_spec a c); try lia. reflexivity.
Qed.

Lemma lex_cmp_app (a a' b b' : list Z) :
  length a = length a' ->
  lex_cmp (a ++ b) (a' ++ b') =
  match lex_cmp a a' with
  | Eq => lex_cmp b b'
  | c => c
  end.
Proof.
  revert a'. induction a as [| x a IH]; intros [| y a'] Hlen; simpl in *;
    try discriminate; try reflexivity.
  destruct (x ?= y); try reflexivity.
  apply IH. lia.
Qed.

Lemma SFkey_length (a : float) : length (SFkey a) = 3%nat.
Proof. destruct a as [s | s | | s m e]; try destruct s; reflexivity. Qed.

Lemma SFcompare_key (a b : float) :
  F32.isnan a = false -> F32.isnan b = false ->
  SFcompare a b = Some (lex_cmp (SFkey a) (SFkey b)).
Proof.
  destruct a as [sa | sa | | sa ma ea]; destruct b as [sb | sb | | sb mb eb];
    simpl; try discriminate; intros _ _;
    try destruct sa; try destruct sb; try reflexivity.
  - f_equal. cbn [lex_cmp]. change (-1 ?= -1) with Eq. cbv iota.
    rewrite Z.compare_opp, (Z.compare_antisym ea eb).
    destruct (ea ?= eb); simpl; try reflexivity.
    change (PosDef.Pos.compare_cont Eq ma mb) with (Pos.compare ma mb).
    change (PosDef.Pos.compare_cont Eq ma mb) with (Pos.compare ma mb).
    destruct (Pos.compare ma mb); reflexivity.
  - f_equal. cbn [lex_cmp]. change (1 ?= 1) with Eq. cbv iota.
    destruct (ea ?= eb); simpl; try reflexivity.
    change (PosDef.Pos.compare_cont Eq ma mb) with (Pos.compare ma mb).
    destruct (Pos.compare ma mb); reflexivity.
Qed.

Lemma nan_free_coords (a : Point3f) :
  P3.nan_free a = true ->
  F32.isnan (px a) = false /\ F32.isnan (py a) = false
  /\ F32.isnan (pz a) = false.
Proof.
  unfold P3.nan_free. intros H.
  apply andb_prop in H as [H Hz]. apply andb_prop in H as [Hx Hy].
  apply negb_true_iff in Hx, Hy, Hz. auto.
Qed.

Lemma F32_eqb_key (a b : float) :
  F32.isnan a = false -> F32.isnan b = false ->
  F32.eqb a b = match lex_cmp (SFkey a) (SFkey b) with Eq => true | _ => false end.
Proof.
  intros Ha Hb. unfold F32.eqb, SFeqb. rewrite (SFcompare_key a b Ha Hb).
  reflexivity.
Qed.

Lemma F32_ltb_key (a b : float) :
  F32.isnan a = false -> F32.isnan b = false ->
  F32.ltb a b = match lex_cmp (SFkey a) (SFkey b) with Lt => true | _ => false end.
Proof.
  intros Ha Hb. unfold F32.ltb, SFltb. rewrite (SFcompare_key a b Ha Hb).
  reflexivity.
Qed.

Lemma P3_eqb_cmp (a b : Point3f) :
  P3.nan_free a = true -> P3.nan_free b = true ->
  P3.eqb a b = match P3.cmp a b with Eq => true | _ => false end.
Proof.
  intros Ha Hb.
  destruct (nan_free_coords a Ha) as (Hax & Hay & Haz).
  destruct (nan_free_coords b Hb) as (Hbx & Hby & Hbz).
  unfold P3.eqb, P3.cmp, P3.key.
  rewrite !F32_eqb_key by assumption.
  rewrite !lex_cmp_app by (rewrite !SFkey_length; reflexivity).
  destruct (lex_cmp (SFkey (px a)) (SFkey (px b)));
    destruct (lex_cmp (SFkey (py a)) (SFkey (py b)));
    destruct (lex_cmp (SFkey (pz a)) (SFkey (pz b))); reflexivity.
Qed.

Lemma P3_ltb_cmp (a b : Point3f) :
  P3.nan_free a = true -> P3.nan_free b = true ->
  P3.ltb a b = match P3.cmp a b with Lt => true | _ => false end.
Proof.
  intros Ha Hb.
  destruct (nan_free_coords a Ha) as (Hax & Hay & Haz).
  destruct (nan_free_coords b Hb) as (Hbx & Hby & Hbz).
  unfold P3.ltb, P3.cmp, P3.key, F32.neqb. fold F32.eqb.
  rewrite !F32_eqb_key, !F32_ltb_key by assumption.
  rewrite !lex_cmp_app by (rewrite !SFkey_length; reflexivity).
  destruct (lex_cmp (SFkey (px a)) (SFkey (px b)));
    destruct (lex_cmp (SFkey (py a)) (SFkey (py b)));
    destruct (lex_cmp (SFkey (pz a)) (SFkey (pz b))); reflexivity.
Qed.

(** ** Procedural builders and merge *)

(** C10. [generate_mesh_from_plane] appends exactly the four plane-edge
    intersection points and exactly the two faces (0,1,2) and (2,1,3),
    whatever the receiver holds: the indices are not offset by the prior
    vertex count [n]. The new points sit at the indices [n .. n+3]; an
    index of the two faces that is below [n] designates a prior vertex of
    the receiver, and with four or more prior vertices that is the case of
    all of them; as soon as the receiver has a vertex the two faces are
    not the ones that would designate the new points. *)
Theorem generate_mesh_from_plane_no_offset
    (Plane : Type) (intersectionWithLine : Plane -> Point3f -> Point3f -> Point3f)
    (mesh : Mesh) (plane : Plane) (center : Point3f) (plane_size : float) :
  let mesh' := generate_mesh_from_plane Plane intersectionWithLine mesh plane
                                        center plane_size in
  let new_points := map (fun e => intersectionWithLine plane (fst e) (snd e))
                        (plane_edges center plane_size) in
  let new_faces := [mkFace 0 1 2; mkFace 2 1 3] in
  let n := length (vertices mesh) in
  vertices mesh' = vertices mesh ++ new_points
  /\ length new_points = 4%nat
  /\ faces mesh' = faces mesh ++ new_faces
  /\ (forall k : nat, (k < 4)%nat ->
        vertices mesh' !! (n + k)%nat = new_points !! k)
  /\ (forall f i, f ∈ new_faces -> i ∈ indices f ->
        0 <= i < 4
        /\ (i < Z.of_nat n ->
            vget (vertices mesh') i = vget (vertices mesh) i))
  /\ ((4 <= n)%nat -> forall f i, f ∈ new_faces -> i ∈ indices f ->
        i < Z.of_nat n /\ vget (vertices mesh') i = vget (vertices mesh) i)
  /\ ((0 < n)%nat ->
        let o := Z.of_nat n in
        new_faces <> [mkFace o (o + 1) (o + 2); mkFace (o + 2) (o + 1) (o + 3)]).
Proof.
  intros mesh' new_points new_faces n.
  assert (Hv : vertices mesh' = vertices mesh ++ new_points) by reflexivity.
  assert (Hidx : forall f i, f ∈ new_faces -> i ∈ indices f -> 0 <= i < 4).
  { intros f i Hf Hi. unfold new_faces in Hf.
    rewrite !elem_of_cons in Hf. rewrite elem_of_nil in Hf.
    destruct Hf as [-> | [-> | []]]; unfold indices in Hi; simpl in Hi;
      rewrite !elem_of_cons in Hi; rewrite elem_of_nil in Hi;
      destruct Hi as [-> | [-> | [-> | []]]]; lia. }
  assert (Hold : forall i, 0 <= i < Z.of_nat n ->
            vget (vertices mesh') i = vget (vertices mesh) i).
  { intros i Hi. unfold vget. rewrite Hv.
    rewrite lookup_app_l by (fold n; lia). reflexivity. }
  split; [exact Hv |]. split; [reflexivity |]. split; [reflexivity |].
  split.
  { intros k Hk. rewrite Hv. rewrite lookup_app_r by (fold n; lia).
    f_equal. fold n. lia. }
  split.
  { intros f i Hf Hi. pose proof (Hidx f i Hf Hi) as H4.
    split; [exact H4 |]. intros Hlt. apply Hold. lia. }
  split.
  { intros Hn f i Hf Hi. pose proof (Hidx f i Hf Hi) as H4.
    split; [lia |]. apply Hold. lia. }
  intros Hn o Heq. unfold new_faces in Heq. inversion Heq. lia.
Qed.

(** The receiver [triangle] has three vertices: index 0 of the first
    appended face still designates its first vertex. *)
Lemma generate_mesh_from_plane_no_offset_witness :
  vget (vertices (generate_mesh_from_plane unit flat_intersection triangle tt
                    (pt 0 0 0) F32.one)) 0
  = vget (vertices triangle) 0.
Proof.
  pose proof (generate_mesh_from_plane_no_offset unit flat_intersection
                triangle tt (pt 0 0 0) F32.one) as H.
  destruct H as (_ & _ & _ & _ & H & _).
  destruct (H (mkFace 0 1 2) 0) as [_ H0].
  - apply elem_of_cons. left. reflexivity.
  - unfold indices. apply elem_of_cons. left. reflexivity.
  - apply H0. simpl. lia.
Defined.

(** C5, at the failing input. The receiver [with_normal] has one vertex
    and its normal; [addMesh] asks [hasNormals] only after the operand's
    vertices have been appended, when the normal array is already shorter
    than the vertex array: the normals of the operand are not appended,
    and an operand without normals raises no error. *)
Theorem addMesh_normals_skipped :
  hasNormals with_normal = true
  /\ hasNormals operand_bare = false
  /\ hasNormals operand_normal = true
  /\ addMesh with_normal operand_bare
     = Ok (mkMesh [pt 0 0 0; pt 1 0 0] [] [pt 0 0 1] [] [] [] None)
  /\ addMesh with_normal operand_normal
     = Ok (mkMesh [pt 0 0 0; pt 1 0 0] [] [pt 0 0 1] [] [] [] None).
Proof. repeat split; reflexivity. Qed.

(** The same in general: once both meshes have a vertex, the normal array
    of a consistent receiver comes out of [addMesh] as it went in. *)
Lemma addMesh_normals_kept (m rhs m' : Mesh) :
  attr_ok (normals m) (vertices m) ->
  vertices m <> [] -> vertices rhs <> [] ->
  addMesh m rhs = Ok m' -> normals m' = normals m.
Proof.
  intros Hok Hm Hr. unfold addMesh, vsize.
  assert (Hlm : (0 < length (vertices m))%nat)
    by (destruct (vertices m); [congruence | simpl; lia]).
  assert (Hlr : (0 < length (vertices rhs))%nat)
    by (destruct (vertices rhs); [congruence | simpl; lia]).
  replace (Z.of_nat (length (vertices m)) <? 1) with false
    by (symmetry; apply Z.ltb_ge; lia).
  intros H. apply bind_Ok in H as (colors1 & _ & H).
  apply bind_Ok in H as (normals1 & Hn & H).
  inversion H. subst m'. simpl. clear H.
  unfold hasNormals in Hn. simpl in Hn.
  rewrite length_app in Hn.
  replace (length (normals m) =? length (vertices m) + length (vertices rhs))%nat
    with false in Hn.
  - inversion Hn. reflexivity.
  - symmetry. apply Nat.eqb_neq.
    destruct Hok as [-> | Hlen]; [simpl; lia | lia].
Qed.

(** ** Normal estimation *)

Lemma add_to_Ok (n : Vec3f) (acc acc' : list Point3f) (i : Z) :
  add_to n acc i = Ok acc' ->
  exists a, 0 <= i /\ acc !! Z.to_nat i = Some a
            /\ acc' = <[Z.to_nat i := P3.add a n]> acc.
Proof.
  unfold add_to. intros H. apply bind_Ok in H as (a & Ha & Hs).
  apply vget_Ok in Ha as [Hi Ha]. apply vset_Ok in Hs as [_ Hs].
  exists a. auto.
Qed.

Lemma count_index_cons (i : Z) (l : list Z) (k : nat) :
  length (filter (fun j => j = Z.of_nat k) (i :: l)) =
  ((if bool_decide (i = Z.of_nat k) then 1 else 0)
   + length (filter (fun j => j = Z.of_nat k) l))%nat.
Proof.
  rewrite filter_cons. destruct (decide (i = Z.of_nat k)) as [E | E].
  - rewrite bool_decide_eq_true_2 by exact E. reflexivity.
  - rewrite bool_decide_eq_false_2 by exact E. reflexivity.
Qed.

(** Adding [n] at the indices [l] adds it to the accumulator of a vertex
    once per occurrence of the vertex in [l]. *)
Lemma foldM_add_to (n : Vec3f) (l : list Z) (acc acc' : list Point3f) :
  foldM (add_to n) l acc = Ok acc' ->
  length acc' = length acc
  /\ forall k : nat,
       acc' !! k =
       Nat.iter (length (filter (fun j => j = Z.of_nat k) l))
                (fun a => P3.add a n) <$> acc !! k.
Proof.
  revert acc. induction l as [| i l IH]; intros acc H; simpl in H.
  - inversion H. subst. split; [reflexivity |]. intros k. simpl.
    destruct (acc' !! k); reflexivity.
  - apply bind_Ok in H as (acc1 & H1 & H2).
    apply add_to_Ok in H1 as (a & Hi & Ha & ->).
    destruct (IH _ H2) as [Hlen Hk]. split.
    + rewrite Hlen. apply length_insert.
    + intros k. rewrite Hk, count_index_cons.
      destruct (decide (i = Z.of_nat k)) as [E | E].
      * rewrite bool_decide_eq_true_2 by exact E.
        subst i. rewrite Nat2Z.id in *.
        rewrite list_lookup_insert_eq by (apply lookup_lt_Some in Ha; exact Ha).
        rewrite Ha. simpl. f_equal.
        symmetry. apply (Nat.iter_succ_r _ (fun a0 => P3.add a0 n) a).
      * rewrite bool_decide_eq_false_2 by exact E.
        rewrite list_lookup_insert_ne by lia. reflexivity.
Qed.

Lemma accumulate_face_Ok (vs acc acc' : list Point3f) (face : Face) :
  accumulate_face vs acc face = Ok acc' ->
  exists p0 p1 p2,
    vget vs (idx0 face) = Ok p0 /\ vget vs (idx1 face) = Ok p1
    /\ vget vs (idx2 face) = Ok p2
    /\ length acc' = length acc
    /\ forall k : nat,
         acc' !! k =
         Nat.iter (touches face k)
                  (fun a => P3.add a (P3.cross (P3.sub p1 p0) (P3.sub p2 p0)))
           <$> acc !! k.
Proof.
  unfold accumulate_face. intros H.
  apply bind_Ok in H as (p1 & H1 & H). apply bind_Ok in H as (p0 & H0 & H).
  apply bind_Ok in H as (p2 & H2 & H).
  exists p0, p1, p2. repeat (split; [assumption |]).
  apply foldM_add_to in H. exact H.
Qed.

Lemma foldM_accumulate_untouched (vs : list Point3f) (fs : list Face)
    (acc acc' : list Point3f) (k : nat) :
  foldM (accumulate_face vs) fs acc = Ok acc' ->
  (forall f, f ∈ fs -> Z.of_nat k ∉ indices f) ->
  length acc' = length acc /\ acc' !! k = acc !! k.
Proof.
  revert acc. induction fs as [| f fs IH]; intros acc H Hun; simpl in H.
  - inversion H. auto.
  - apply bind_Ok in H as (acc1 & H1 & H2).
    apply accumulate_face_Ok in H1 as (p0 & p1 & p2 & _ & _ & _ & Hlen & Hk).
    destruct (IH _ H2) as [Hlen' Hk'].
    { intros g Hg. apply Hun. apply elem_of_cons. right. exact Hg. }
    split; [congruence |]. rewrite Hk', Hk.
    assert (Ht : touches f k = 0%nat).
    { assert (Hf : Z.of_nat k ∉ indices f)
        by (apply Hun; apply elem_of_cons; left; reflexivity).
      unfold touches. revert Hf. generalize (indices f). intros l Hl.
      induction l as [| j l IHl]; [reflexivity |].
      rewrite count_index_cons. rewrite not_elem_of_cons in Hl.
      destruct Hl as [Hj Hl].
      rewrite bool_decide_eq_false_2 by congruence. simpl. apply IHl, Hl. }
    rewrite Ht. simpl. destruct (acc !! k); reflexivity.
Qed.

(** C7. On the triangle (0,0,0), (1,0,0), (0,1,0) with the face (0,1,2),
    [computeNormalsFromFaces] yields three normals, each equal to (0,0,1)
    and of length one. In general the normals are the normalized
    accumulators; one face adds the cross product
    (vertex1 - vertex0) x (vertex2 - vertex0) to the accumulator of a
    vertex once per index of the face that designates it; and a vertex
    that no face touches ends with the zero vector. *)
Theorem computeNormalsFromFaces_spec :
  (computeNormalsFromFaces triangle
   = Ok (mkMesh (vertices triangle) [] [pt 0 0 1; pt 0 0 1; pt 0 0 1] []
                (faces triangle) [] None)
   /\ P3.norm (pt 0 0 1) = F32.one)
  /\ (forall m m', computeNormalsFromFaces m = Ok m' ->
        exists acc,
          foldM (accumulate_face (vertices m)) (faces m)
                (replicate (length (vertices m)) P3.zero) = Ok acc
          /\ normals m' = map normalize acc
          /\ length (normals m') = length (vertices m))
  /\ (forall vs acc face acc', accumulate_face vs acc face = Ok acc' ->
        exists p0 p1 p2,
          vget vs (idx0 face) = Ok p0 /\ vget vs (idx1 face) = Ok p1
          /\ vget vs (idx2 face) = Ok p2
          /\ length acc' = length acc
          /\ forall k : nat,
               acc' !! k =
               Nat.iter (touches face k)
                 (fun a => P3.add a (P3.cross (P3.sub p1 p0) (P3.sub p2 p0)))
                 <$> acc !! k)
  /\ (forall m m' (k : nat), computeNormalsFromFaces m = Ok m' ->
        (k < length (vertices m))%nat ->
        (forall f, f ∈ faces m -> Z.of_nat k ∉ indices f) ->
        normals m' !! k = Some P3.zero).
Proof.
  split; [split; vm_compute; reflexivity |].
  assert (Hlen : forall vs fs acc acc',
             foldM (accumulate_face vs) fs acc = Ok acc' ->
             length acc' = length acc).
  { intros vs fs. induction fs as [| f fs IH]; intros acc acc' H; simpl in H.
    - inversion H. reflexivity.
    - apply bind_Ok in H as (acc1 & H1 & H2).
      apply accumulate_face_Ok in H1 as (_ & _ & _ & _ & _ & _ & Hl & _).
      rewrite (IH _ _ H2). exact Hl. }
  split; [| split].
  - intros m m' H. unfold computeNormalsFromFaces in H.
    apply bind_Ok in H as (acc & Hacc & H). inversion H. subst m'. simpl.
    exists acc. split; [exact Hacc |]. split; [reflexivity |].
    rewrite length_map, (Hlen _ _ _ _ Hacc). apply length_replicate.
  - intros vs acc face acc' H. apply accumulate_face_Ok. exact H.
  - intros m m' k H Hk Hun. unfold computeNormalsFromFaces in H.
    apply bind_Ok in H as (acc & Hacc & H). inversion H. subst m'. simpl.
    destruct (foldM_accumulate_untouched _ _ _ _ k Hacc Hun) as [_ Hkk].
    rewrite list_lookup_fmap, Hkk.
    rewrite lookup_replicate_2 by exact Hk. reflexivity.
Qed.

(** The fourth vertex of [triangle_and_point] is touched by no face. *)
Lemma computeNormalsFromFaces_spec_witness :
  exists m', computeNormalsFromFaces triangle_and_point = Ok m'
             /\ normals m' !! 3%nat = Some P3.zero.
Proof.
  eexists. split; [vm_compute; reflexivity |].
  destruct computeNormalsFromFaces_spec as (_ & _ & _ & H).
  apply (H triangle_and_point).
  - vm_compute. reflexivity.
  - simpl. lia.
  - intros f Hf. simpl in Hf. apply list_elem_of_singleton in Hf. subst f.
    unfold indices. simpl. rewrite !not_elem_of_cons. 
    repeat split; try lia. apply not_elem_of_nil.
Defined.

(** ** The PLY loader *)

Lemma face_records_nil (elems : list PlyElement) :
  face_element_count elems = 0%nat -> face_records elems = [].
Proof.
  induction elems as [| e elems IH]; [reflexivity |].
  destruct e; simpl; intros H; try discriminate; apply IH; exact H.
Qed.

(** With one element named "face", the loop over the elements leaves its
    records in [ply_faces]; with none it leaves [ply_faces] alone. *)
Lemma read_elements_faces (E elems : list PlyElement) (st : LoadState) :
  let st' := fold_left (read_element E) elems st in
  (face_element_count elems = 0%nat ->
     has_faces st' = has_faces st /\ ply_faces st' = ply_faces st)
  /\ (face_element_count elems = 1%nat ->
     has_faces st' = true /\ ply_faces st' = face_records elems).
Proof.
  revert st.
  induction elems as [| e elems IH]; intros st; simpl.
  - split; [auto | discriminate].
  - destruct (IH (read_element E st e)) as [IH0 IH1].
    destruct e as [props records | props records | name cnt]; simpl in *.
    + auto.
    + split; [discriminate |]. intros Hc.
      assert (Hc0 : face_element_count elems = 0%nat) by lia.
      destruct (IH0 Hc0) as [Hh Hf].
      split; [exact Hh |]. rewrite Hf.
      rewrite (face_records_nil elems Hc0), app_nil_r. reflexivity.
    + auto.
Qed.

Lemma convert_face_triangle (f : PlyFace) :
  nverts f = 3 -> well_read f ->
  exists a b c, verts f = [a; b; c] /\ convert_face f = Ok (mkFace a b c).
Proof.
  unfold well_read, convert_face. intros H3 Hw. rewrite H3 in *. simpl.
  destruct (verts f) as [| a [| b [| c [| d l]]]]; simpl in Hw; try lia.
  exists a, b, c. split; reflexivity.
Qed.

Lemma mapM_convert_triangles (fs : list PlyFace) :
  (forall f, f ∈ fs -> nverts f = 3 /\ well_read f) ->
  exists faces', mapM_res convert_face fs = Ok faces'
                 /\ length faces' = length fs.
Proof.
  induction fs as [| f fs IH]; intros H; simpl.
  - exists []. auto.
  - destruct (H f) as [H3 Hw]; [apply elem_of_cons; auto |].
    destruct (convert_face_triangle f H3 Hw) as (a & b & c & _ & Hc).
    destruct IH as (faces' & Hm & Hl).
    { intros g Hg. apply H. apply elem_of_cons. auto. }
    rewrite Hc, Hm. simpl. exists (mkFace a b c :: faces'). simpl. auto.
Qed.

Lemma mapM_convert_polygon (fs : list PlyFace) :
  (forall f, f ∈ fs -> well_read f) ->
  (exists f, f ∈ fs /\ nverts f <> 3) ->
  mapM_res convert_face fs = Fatal "Only triangles are supported.".
Proof.
  induction fs as [| f fs IH]; intros Hw (g & Hg & Hn).
  - apply elem_of_nil in Hg. contradiction.
  - simpl. destruct (Z.eq_dec (nverts f) 3) as [E | E].
    + destruct (convert_face_triangle f E) as (a & b & c & _ & Hc).
      { apply Hw. apply elem_of_cons. auto. }
      rewrite Hc. simpl.
      rewrite IH; [reflexivity | |].
      * intros h Hh. apply Hw. apply elem_of_cons. auto.
      * apply elem_of_cons in Hg as [-> | Hg]; [contradiction |].
        exists g. auto.
    + unfold convert_face. apply Z.eqb_neq in E. rewrite E. reflexivity.
Qed.

Lemma mapM_convert_no_polygon (fs : list PlyFace) :
  (forall f, f ∈ fs -> nverts f = 3) ->
  forall msg, mapM_res convert_face fs <> Fatal msg.
Proof.
  induction fs as [| f fs IH]; intros H msg; simpl; [discriminate |].
  assert (Hf : nverts f = 3) by (apply H; apply elem_of_cons; auto).
  assert (Hc : forall msg', convert_face f <> Fatal msg').
  { intros msg'. unfold convert_face. rewrite Hf. simpl.
    pose proof (vget_not_Fatal (verts f) 0) as V0.
    pose proof (vget_not_Fatal (verts f) 1) as V1.
    pose proof (vget_not_Fatal (verts f) 2) as V2.
    destruct (vget (verts f) 0) as [a | s | |]; simpl; try discriminate;
      [| exfalso; apply (V0 s); reflexivity].
    destruct (vget (verts f) 1) as [b | s | |]; simpl; try discriminate;
      [| exfalso; apply (V1 s); reflexivity].
    destruct (vget (verts f) 2) as [c | s | |]; simpl; try discriminate.
    exfalso; apply (V2 s); reflexivity. }
  specialize (IH (fun g Hg => H g (proj2 (elem_of_cons _ _ _) (or_intror Hg))) msg).
  destruct (convert_face f) as [face | msg' | |]; simpl; try discriminate.
  - destruct (mapM_res convert_face fs); simpl; congruence.
  - specialize (Hc msg'). congruence.
Qed.

(** C8. For a parsed file whose header declares at most one element named
    "face" and whose face records are as the reader delivers them
    ([verts] holds [nverts] indices): if some face has a vertex count
    other than 3 the load is the fatal error "Only triangles are
    supported." and yields no mesh; if every face has exactly 3 vertex
    indices no fatal error is raised and the load yields a mesh with one
    face per record. *)
Theorem loadFromPlyFile_triangles_only (m : Mesh) (elems : list PlyElement) :
  (face_element_count elems <= 1)%nat ->
  (forall f, f ∈ face_records elems -> well_read f) ->
  ((exists f, f ∈ face_records elems /\ nverts f <> 3) ->
     loadFromPlyFile m (Parsed elems) = Fatal "Only triangles are supported.")
  /\ ((forall f, f ∈ face_records elems -> nverts f = 3) ->
     (forall msg, loadFromPlyFile m (Parsed elems) <> Fatal msg)
     /\ exists m', loadFromPlyFile m (Parsed elems) = Ok m'
                   /\ length (faces m') = length (face_records elems)).
Proof.
  intros Hcount Hread. unfold loadFromPlyFile, read_elements.
  pose proof (read_elements_faces elems elems load_init) as [H0 H1].
  simpl in H0, H1.
  set (st := fold_left (read_element elems) elems load_init) in *.
  assert (Hcases : face_element_count elems = 0%nat
                   \/ face_element_count elems = 1%nat) by lia.
  destruct Hcases as [Hc | Hc].
  - destruct (H0 Hc) as [Hh Hf]. simpl in Hh, Hf.
    pose proof (face_records_nil elems Hc) as Hnil.
    rewrite Hh. simpl. split.
    + intros (f & Hin & _). rewrite Hnil in Hin.
      apply elem_of_nil in Hin. contradiction.
    + intros _. split; [discriminate |].
      eexists. split; [reflexivity |]. rewrite Hnil. reflexivity.
  - destruct (H1 Hc) as [Hh Hf]. rewrite Hh, Hf. split.
    + intros Hex. rewrite (mapM_convert_polygon _ Hread Hex). reflexivity.
    + intros Hall.
      destruct (mapM_convert_triangles (face_records elems)) as (fs & Hm & Hl).
      { intros f Hin. split; [apply Hall | apply Hread]; exact Hin. }
      rewrite Hm. simpl. split; [discriminate |].
      eexists. split; [reflexivity |]. exact Hl.
Qed.

(** [quad_file] holds a face of four vertices and is rejected. *)
Lemma loadFromPlyFile_triangles_only_witness :
  loadFromPlyFile empty_mesh (Parsed quad_file)
  = Fatal "Only triangles are supported.".
Proof.
  apply (loadFromPlyFile_triangles_only empty_mesh quad_file).
  - vm_compute. lia.
  - intros f Hf. simpl in Hf.
    rewrite !elem_of_cons in Hf. rewrite elem_of_nil in Hf.
    destruct Hf as [-> | [-> | []]]; reflexivity.
  - exists (mkPlyFace 4 [0; 1; 2; 3] 0 []). split.
    + simpl. apply elem_of_cons. right. apply elem_of_cons. left.
      reflexivity.
    + simpl. lia.
Defined.

(** C8 as stated fails on a file with two elements named face. The
    records of the first are replaced by the records of the second before
    any face is checked, so the quadrilateral of the first element raises
    no error: the load returns a mesh, in which the quadrilateral is
    neither kept nor truncated but dropped. *)
Lemma loadFromPlyFile_quad_overwritten :
  face_element_count two_face_file = 2%nat
  /\ (forall f, f ∈ face_records two_face_file -> well_read f)
  /\ (exists f, f ∈ face_records two_face_file /\ nverts f <> 3)
  /\ loadFromPlyFile empty_mesh (Parsed two_face_file)
     = Ok (bare_mesh [pt 0 0 0; pt 1 0 0; pt 1 1 0; pt 0 1 0] [mkFace 0 1 2]).
Proof.
  split; [reflexivity |]. split; [| split; [| reflexivity]].
  - intros f Hf. simpl in Hf.
    rewrite !elem_of_cons in Hf. rewrite elem_of_nil in Hf.
    destruct Hf as [-> | [-> | []]]; reflexivity.
  - exists (mkPlyFace 4 [0; 1; 2; 3] 0 []). split.
    + simpl. apply elem_of_cons. left. reflexivity.
    + simpl. lia.
Qed.

(** ** Compaction *)

(** The loop over the four arrays succeeds exactly when the loop over each
    array does, with the same arrays. *)
Lemma foldM_copy_vertex_Ok (m : Mesh) (entries : list (nat * Z))
    (na na' : NewArrays) :
  foldM (copy_vertex m) entries na = Ok na' <->
  foldM (copy_entry true (vertices m)) entries (new_vertices na)
    = Ok (new_vertices na')
  /\ foldM (copy_entry (hasColors m) (colors m)) entries (new_colors na)
    = Ok (new_colors na')
  /\ foldM (copy_entry (hasNormals m) (normals m)) entries (new_normals na)
    = Ok (new_normals na')
  /\ foldM (copy_entry (hasTexcoords m) (texcoords m)) entries (new_texcoords na)
    = Ok (new_texcoords na').
Proof.
  revert na. induction entries as [| [i ni] entries IH]; intros na; simpl.
  - split.
    + intros H. inversion H. subst. auto.
    + intros (Hv & Hc & Hn & Ht). destruct na, na'. simpl in *. congruence.
  - destruct (ni <? 0) eqn:Eni; simpl.
    + apply IH.
    + split.
      * intros H. apply bind_Ok in H as (na1 & H1 & H2).
        apply bind_Ok in H1 as (vs & Hv & H1).
        apply bind_Ok in H1 as (cs & Hc & H1).
        apply bind_Ok in H1 as (ns & Hn & H1).
        apply bind_Ok in H1 as (ts & Ht & H1).
        inversion H1. subst na1. clear H1.
        apply IH in H2 as (H2v & H2c & H2n & H2t). simpl in *.
        rewrite Hv, Hc, Hn, Ht. simpl. auto.
      * intros (Hv & Hc & Hn & Ht).
        apply bind_Ok in Hv as (vs & Hv & Hv').
        apply bind_Ok in Hc as (cs & Hc & Hc').
        apply bind_Ok in Hn as (ns & Hn & Hn').
        apply bind_Ok in Ht as (ts & Ht & Ht').
        rewrite Hv, Hc, Hn, Ht. simpl. apply IH. simpl. auto.
Qed.

Lemma count_kept_cons (p : Point3f) (vs : list Point3f) :
  count_kept (p :: vs) =
  ((if isnan p then 0 else 1) + count_kept vs)%nat.
Proof.
  unfold count_kept. rewrite filter_cons. unfold kept.
  destruct (isnan p); simpl.
  - destruct (decide (false = true)); [discriminate | reflexivity].
  - destruct (decide (true = true)); [reflexivity | congruence].
Qed.

Lemma count_kept_le (vs : list Point3f) : (count_kept vs <= length vs)%nat.
Proof.
  induction vs as [| p vs IH]; [unfold count_kept; simpl; lia |].
  rewrite count_kept_cons. simpl. destruct (isnan p); lia.
Qed.

(** Below the range of [int], [number_vertices] counts without wrapping. *)
Lemma number_vertices_numbering (vs : list Point3f) (c : Z) :
  0 <= c -> c + Z.of_nat (length vs) < 2 ^ 31 ->
  number_vertices vs c = (numbering vs c, c + Z.of_nat (count_kept vs)).
Proof.
  revert c. induction vs as [| p vs IH]; intros c Hc Hn; simpl.
  - unfold count_kept. simpl. f_equal. lia.
  - simpl length in Hn. rewrite count_kept_cons. destruct (isnan p).
    + rewrite IH by lia. f_equal.
    + rewrite wrap32_small by lia. rewrite IH by lia. f_equal. lia.
Qed.

Lemma numbering_lookup (vs : list Point3f) (c : Z) (i : nat) (p : Point3f) :
  vs !! i = Some p ->
  numbering vs c !! i =
  Some (if isnan p then -1 else c + Z.of_nat (count_kept (take i vs))).
Proof.
  revert c i. induction vs as [| q vs IH]; intros c i H; [discriminate |].
  destruct i as [| i]; simpl in *.
  - inversion H. subst q. destruct (isnan p); simpl; f_equal.
    unfold count_kept. simpl. lia.
  - rewrite count_kept_cons.
    destruct (isnan q); simpl; rewrite (IH _ _ H); destruct (isnan p);
      f_equal; lia.
Qed.

Lemma vget_numbering (vs : list Point3f) (i : Z) :
  0 <= i < vsize vs -> vget (numbering vs 0) i = Ok (new_index vs i).
Proof.
  intros Hi. unfold new_index, vget.
  replace (0 <=? i) with true by (symmetry; apply Z.leb_le; lia).
  unfold vsize in Hi.
  destruct (vs !! Z.to_nat i) as [p |] eqn:E.
  - rewrite (numbering_lookup vs 0 _ p E). destruct (isnan p); reflexivity.
  - apply lookup_ge_None in E. lia.
Qed.

Lemma compact_by_self (vs : list Point3f) :
  compact_by vs vs = filter (fun q => kept q = true) vs.
Proof.
  induction vs as [| p vs IH]; [reflexivity |].
  simpl. rewrite filter_cons. destruct (kept p) eqn:E.
  - destruct (decide (true = true)); [| congruence]. f_equal. exact IH.
  - destruct (decide (false = true)); [discriminate |]. exact IH.
Qed.

Lemma compact_by_length {A : Type} (vs : list Point3f) (attr : list A) :
  length attr = length vs -> length (compact_by vs attr) = count_kept vs.
Proof.
  revert attr. induction vs as [| p vs IH]; intros [| a attr] H;
    simpl in H; try discriminate; [reflexivity |].
  rewrite count_kept_cons. simpl. unfold kept.
  destruct (isnan p); simpl; rewrite IH by lia; reflexivity.
Qed.

(** The second loop on one array: the slots [done] already filled are
    followed by the values of the kept vertices of the suffix. *)
Lemma copy_loop_present {A : Type} (d : A) (suf_v : list Point3f) :
  forall (src_suf src_pre done : list A) (rest : nat),
    length src_suf = length suf_v ->
    (count_kept suf_v <= rest)%nat ->
    foldM (copy_entry true (src_pre ++ src_suf))
          (zip (seq (length src_pre) (length suf_v))
               (numbering suf_v (Z.of_nat (length done))))
          (done ++ replicate rest d)
    = Ok (done ++ compact_by suf_v src_suf
               ++ replicate (rest - count_kept suf_v) d).
Proof.
  induction suf_v as [| p suf_v IH]; intros src_suf src_pre done rest Hlen Hrest.
  - simpl. rewrite Nat.sub_0_r.
    destruct src_suf; reflexivity.
  - destruct src_suf as [| a src_suf]; [discriminate |].
    simpl in Hlen. rewrite count_kept_cons in *.
    assert (Hshift : forall c,
      foldM (copy_entry true (src_pre ++ a :: src_suf))
            (zip (seq (S (length src_pre)) (length suf_v)) (numbering suf_v c))
      = foldM (copy_entry true ((src_pre ++ [a]) ++ src_suf))
            (zip (seq (length (src_pre ++ [a])) (length suf_v)) (numbering suf_v c))).
    { intros c. rewrite <- app_assoc. simpl. rewrite length_app. simpl.
      rewrite Nat.add_1_r. reflexivity. }
    simpl. unfold kept. destruct (isnan p) eqn:Ep; simpl.
    + rewrite Hshift. apply IH; lia.
    + replace (Z.of_nat (length done) <? 0) with false
        by (symmetry; apply Z.ltb_ge; lia).
      unfold copy_attr. rewrite vget_of_nat.
      rewrite lookup_app_r by lia. rewrite Nat.sub_diag. simpl.
      destruct rest as [| rest]; [lia |].
      unfold vset. rewrite length_app, length_replicate.
      replace ((0 <=? Z.of_nat (length done)) &&
               (Z.of_nat (length done) <? Z.of_nat (length done + S rest)))
        with true
        by (symmetry; apply andb_true_intro; split;
            [apply Z.leb_le | apply Z.ltb_lt]; lia).
      rewrite Nat2Z.id.
      rewrite insert_app_r_alt by lia. rewrite Nat.sub_diag. simpl.
      rewrite Hshift.
      replace (Z.of_nat (length done) + 1)
        with (Z.of_nat (length (done ++ [a])))
        by (rewrite length_app; simpl; lia).
      replace (done ++ a :: replicate rest d)
        with ((done ++ [a]) ++ replicate rest d)
        by (rewrite <- app_assoc; reflexivity).
      rewrite IH by lia. rewrite <- app_assoc. reflexivity.
Qed.

Lemma copy_loop_absent {A : Type} (src dst : list A)
    (entries : list (nat * Z)) :
  foldM (copy_entry false src) entries dst = Ok dst.
Proof.
  induction entries as [| [i ni] entries IH]; simpl; [reflexivity |].
  destruct (ni <? 0); simpl; exact IH.
Qed.

Lemma copy_loop_whole {A : Type} (d : A) (present : bool)
    (vs : list Point3f) (attr : list A) :
  (present = true -> length attr = length vs) ->
  foldM (copy_entry present attr)
        (zip (seq 0 (length vs)) (numbering vs 0))
        (if present then replicate (count_kept vs) d else [])
  = Ok (if present then compact_by vs attr else []).
Proof.
  intros Hlen. destruct present.
  - pose proof (copy_loop_present d vs attr [] [] (count_kept vs)
                  (Hlen eq_refl) (le_n _)) as H.
    simpl in H. rewrite Nat.sub_diag in H. simpl in H.
    rewrite app_nil_r in H. exact H.
  - apply copy_loop_absent.
Qed.

Lemma renumber_face_Ok (vs : list Point3f) (f : Face) :
  (forall i, i ∈ indices f -> 0 <= i < vsize vs) ->
  renumber_face (numbering vs 0) f = Ok (map_indices (new_index vs) f).
Proof.
  intros Hf. unfold renumber_face.
  rewrite (vget_numbering vs (idx0 f))
    by (apply Hf; unfold indices; rewrite !elem_of_cons; auto).
  rewrite (vget_numbering vs (idx1 f))
    by (apply Hf; unfold indices; rewrite !elem_of_cons; auto).
  rewrite (vget_numbering vs (idx2 f))
    by (apply Hf; unfold indices; rewrite !elem_of_cons; auto).
  reflexivity.
Qed.

Lemma renumber_faces_Ok (vs : list Point3f) (fs : list Face) :
  (forall f i, f ∈ fs -> i ∈ indices f -> 0 <= i < vsize vs) ->
  mapM_res (renumber_face (numbering vs 0)) fs
  = Ok (map (map_indices (new_index vs)) fs).
Proof.
  induction fs as [| f fs IH]; intros H; simpl; [reflexivity |].
  rewrite renumber_face_Ok.
  - simpl. rewrite IH; [reflexivity |].
    intros g i Hg Hi. apply (H g); [apply elem_of_cons; auto | exact Hi].
  - intros i Hi. apply (H f); [apply elem_of_cons; auto | exact Hi].
Qed.

(** The compaction of a mesh whose face indices are in range. *)
Lemma removeIsolatedVertices_compacted (m : Mesh) :
  vsize (vertices m) < 2 ^ 31 -> faces_in_range m ->
  removeIsolatedVertices m = Ok (compacted m).
Proof.
  intros Hn Hfaces. unfold removeIsolatedVertices, vsize in *.
  rewrite number_vertices_numbering by lia.
  replace (Z.to_nat (0 + Z.of_nat (count_kept (vertices m))))
    with (count_kept (vertices m)) by lia.
  set (entries := zip (seq 0 (length (vertices m))) (numbering (vertices m) 0)).
  assert (Hfold : foldM (copy_vertex m) entries
            (mkNewArrays
               (replicate (count_kept (vertices m)) P3.zero)
               (if hasColors m
                then replicate (count_kept (vertices m)) default_color else [])
               (if hasNormals m
                then replicate (count_kept (vertices m)) P3.zero else [])
               (if hasTexcoords m
                then replicate (count_kept (vertices m)) default_texcoord
                else []))
          = Ok (mkNewArrays
                  (compact_by (vertices m) (vertices m))
                  (if hasColors m then compact_by (vertices m) (colors m) else [])
                  (if hasNormals m then compact_by (vertices m) (normals m) else [])
                  (if hasTexcoords m then compact_by (vertices m) (texcoords m)
                   else []))).
  { apply foldM_copy_vertex_Ok. simpl. repeat split.
    - apply (copy_loop_whole P3.zero true). reflexivity.
    - apply (copy_loop_whole default_color). unfold hasColors.
      intros H. apply Nat.eqb_eq in H. exact H.
    - apply (copy_loop_whole P3.zero). unfold hasNormals.
      intros H. apply Nat.eqb_eq in H. exact H.
    - apply (copy_loop_whole default_texcoord). unfold hasTexcoords.
      intros H. apply Nat.eqb_eq in H. exact H. }
  rewrite Hfold. simpl.
  rewrite renumber_faces_Ok by (intros f i Hf Hi; apply (Hfaces f i Hf Hi)).
  simpl. unfold compacted. rewrite compact_by_self. reflexivity.
Qed.

Lemma filter_kept_isnan (vs : list Point3f) :
  filter (fun q => kept q = true) vs = filter (fun q => isnan q = false) vs.
Proof.
  induction vs as [| p vs IH]; [reflexivity |].
  rewrite !filter_cons.
  destruct (decide (kept p = true)) as [E | E];
    destruct (decide (isnan p = false)) as [E' | E'];
    unfold kept in E; destruct (isnan p); simpl in E;
    try congruence.
Qed.

(** C3, as the code has it. For a mesh whose face indices designate
    vertices, [removeIsolatedVertices] keeps exactly the vertices whose
    position is not NaN, in their order, whether or not a face references
    them: the output vertex count is the number of input vertices whose
    position is not NaN, and every face index is replaced by the new
    index of its vertex. *)
Theorem removeIsolatedVertices_keeps_non_nan (m : Mesh) :
  vsize (vertices m) < 2 ^ 31 -> faces_in_range m ->
  exists m',
    removeIsolatedVertices m = Ok m'
    /\ vertices m' = filter (fun q => isnan q = false) (vertices m)
    /\ length (vertices m') = count_kept (vertices m)
    /\ faces m' = map (map_indices (new_index (vertices m))) (faces m).
Proof.
  intros Hn Hfaces. exists (compacted m).
  split; [apply removeIsolatedVertices_compacted; assumption |].
  unfold compacted, count_kept. simpl.
  split; [apply filter_kept_isnan |]. split; reflexivity.
Qed.

(** [lonely_vertex] keeps its vertex. *)
Lemma removeIsolatedVertices_keeps_non_nan_witness :
  exists m', removeIsolatedVertices lonely_vertex = Ok m'
             /\ length (vertices m') = 1%nat.
Proof.
  destruct (removeIsolatedVertices_keeps_non_nan lonely_vertex)
    as (m' & Hm & _ & Hl & _).
  - vm_compute. reflexivity.
  - intros f i Hf. simpl in Hf. apply elem_of_nil in Hf. contradiction.
  - exists m'. split; [exact Hm |]. rewrite Hl. vm_compute. reflexivity.
Defined.

(** C3 as stated fails: the compaction of [lonely_vertex] returns its one
    vertex, which no face references. *)
Lemma removeIsolatedVertices_unreferenced_kept :
  exists m',
    removeIsolatedVertices lonely_vertex = Ok m'
    /\ ~ (forall k : nat, (k < length (vertices m'))%nat ->
            exists f, f ∈ faces m' /\ Z.of_nat k ∈ indices f).
Proof.
  eexists. split; [vm_compute; reflexivity |].
  intros H. destruct (H 0%nat) as (f & Hf & _); [simpl; lia |].
  simpl in Hf. apply elem_of_nil in Hf. exact Hf.
Qed.

(** ** Deduplication *)

(** *** More fuel does not change a result *)

Lemma dedup_run_mono (fuel : nat) :
  forall fuel' ord i j vs alias r,
    (fuel <= fuel')%nat ->
    dedup_run fuel ord i j vs alias = Ok r ->
    dedup_run fuel' ord i j vs alias = Ok r.
Proof.
  induction fuel as [| fuel IH]; intros fuel' ord i j vs alias r Hle H;
    [discriminate |].
  destruct fuel' as [| fuel']; [lia |].
  simpl in *. destruct (to_size_t j <? vsize ord); [| exact H].
  destruct (vget ord i) as [oi | | |]; simpl in *; try discriminate.
  destruct (vget vs oi) as [vi | | |]; simpl in *; try discriminate.
  destruct (vget ord j) as [oj | | |]; simpl in *; try discriminate.
  destruct (vget vs oj) as [vj | | |]; simpl in *; try discriminate.
  destruct (P3.eqb vi vj); [| exact H].
  destruct (vset vs oj infinite_point) as [vs' | | |]; simpl in *;
    try discriminate.
  apply (IH fuel'); [lia | exact H].
Qed.

Lemma dedup_scan_mono (fuel : nat) :
  forall fuel' run run' ord i vs alias r,
    (fuel <= fuel')%nat -> (run <= run')%nat ->
    dedup_scan fuel run ord i vs alias = Ok r ->
    dedup_scan fuel' run' ord i vs alias = Ok r.
Proof.
  induction fuel as [| fuel IH]; intros fuel' run run' ord i vs alias r Hle Hrun H;
    [discriminate |].
  destruct fuel' as [| fuel']; [lia |].
  simpl in *.
  destruct (to_size_t i <? to_size_t (vsize ord - 1)); [| exact H].
  apply bind_Ok in H as ([[j vs'] alias'] & Hr & H).
  rewrite (dedup_run_mono run run' _ _ _ _ _ _ Hrun Hr). simpl.
  apply (IH fuel' run run'); [lia | exact Hrun | exact H].
Qed.

Lemma removeDuplicatedVertices_alias_mono (ord : list Z) (fuel fuel' : nat)
    (m : Mesh) (r : Mesh * gmap Z Z) :
  (fuel <= fuel')%nat ->
  removeDuplicatedVertices_alias ord fuel m = Ok r ->
  removeDuplicatedVertices_alias ord fuel' m = Ok r.
Proof.
  intros Hle H. unfold removeDuplicatedVertices_alias in *.
  apply bind_Ok in H as ([vs alias] & Hs & H).
  rewrite (dedup_scan_mono fuel fuel' fuel fuel' _ _ _ _ _ Hle Hle Hs).
  exact H.
Qed.

(** *** The empty mesh *)

Lemma mod_2_32_cases (x : Z) :
  - 2 ^ 32 <= x < 2 ^ 32 ->
  x mod 2 ^ 32 = if x <? 0 then x + 2 ^ 32 else x.
Proof.
  intros H. destruct (x <? 0) eqn:E.
  - apply Z.ltb_lt in E. rewrite <- (Z.mod_add _ 1) by lia.
    apply Z.mod_small. lia.
  - apply Z.ltb_ge in E. apply Z.mod_small. lia.
Qed.

Lemma wrap32_succ (i : Z) :
  - 2 ^ 31 <= i < 2 ^ 31 ->
  wrap32 (i + 1) = if i =? 2 ^ 31 - 1 then - 2 ^ 31 else i + 1.
Proof.
  intros H. destruct (i =? 2 ^ 31 - 1) eqn:E.
  - apply Z.eqb_eq in E. subst i. reflexivity.
  - apply Z.eqb_neq in E. apply wrap32_small. lia.
Qed.

Lemma to_size_t_int (i : Z) :
  - 2 ^ 31 <= i < 2 ^ 31 ->
  to_size_t i = if i <? 0 then i + 2 ^ 64 else i.
Proof.
  intros H. unfold to_size_t. destruct (i <? 0) eqn:E.
  - apply Z.ltb_lt in E. rewrite <- (Z.mod_add _ 1) by lia.
    apply Z.mod_small. lia.
  - apply Z.ltb_ge in E. apply Z.mod_small. lia.
Qed.

Lemma scan_cond_empty (i : Z) :
  - 2 ^ 31 <= i < 2 ^ 31 ->
  (to_size_t i <? to_size_t (vsize (@nil Z) - 1)) = negb (i =? -1).
Proof.
  intros Hi. rewrite (to_size_t_int i Hi).
  change (to_size_t (vsize (@nil Z) - 1)) with (2 ^ 64 - 1).
  destruct (i =? -1) eqn:E; [apply Z.eqb_eq in E | apply Z.eqb_neq in E];
    simpl.
  - subst i. reflexivity.
  - apply Z.ltb_lt. destruct (i <? 0) eqn:E0;
      [apply Z.ltb_lt in E0 | apply Z.ltb_ge in E0]; lia.
Qed.

Lemma run_cond_empty (j : Z) : (to_size_t j <? vsize (@nil Z)) = false.
Proof.
  apply Z.ltb_ge. unfold vsize, to_size_t. simpl.
  pose proof (Z.mod_pos_bound j (2 ^ 64)). lia.
Qed.

(** With no index to scan, a turn of the outer loop only moves [i] to the
    next [int]; the loop ends when [i] reaches [-1]. *)
Lemma dedup_scan_empty (k : nat) :
  forall (i : Z) (fuel run : nat) (vs : list Point3f) (alias : gmap Z Z),
    - 2 ^ 31 <= i < 2 ^ 31 ->
    Z.of_nat k = (-1 - i) mod 2 ^ 32 ->
    (k < fuel)%nat -> (0 < run)%nat ->
    dedup_scan fuel run [] i vs alias = Ok (vs, alias).
Proof.
  induction k as [| k IH]; intros i fuel run vs alias Hi Hk Hfuel Hrun;
    rewrite mod_2_32_cases in Hk by lia;
    destruct fuel as [| fuel]; try lia;
    cbn [dedup_scan]; rewrite (scan_cond_empty i Hi).
  - assert (Ei : i = -1) by (destruct (-1 - i <? 0) eqn:E;
      [apply Z.ltb_lt in E | apply Z.ltb_ge in E]; lia).
    subst i. reflexivity.
  - assert (Eni : i <> -1) by (intros ->; simpl in Hk; lia).
    apply Z.eqb_neq in Eni. rewrite Eni. apply Z.eqb_neq in Eni.
    cbn [negb].
    destruct run as [| run]; [lia |]. cbn [dedup_run].
    rewrite run_cond_empty. cbn [mbind result_bind Res.bind].
    assert (Hw : - 2 ^ 31 <= wrap32 (i + 1) < 2 ^ 31).
    { rewrite wrap32_succ by lia. destruct (i =? 2 ^ 31 - 1) eqn:E;
        [apply Z.eqb_eq in E | apply Z.eqb_neq in E]; lia. }
    apply IH; try lia.
    rewrite mod_2_32_cases by lia.
    rewrite wrap32_succ in * by lia.
    destruct (i =? 2 ^ 31 - 1) eqn:E;
      [apply Z.eqb_eq in E | apply Z.eqb_neq in E].
    + subst i. simpl in *. lia.
    + destruct (-1 - i <? 0) eqn:E1;
        [apply Z.ltb_lt in E1 | apply Z.ltb_ge in E1];
        destruct (-1 - (i + 1) <? 0) eqn:E2;
        try apply Z.ltb_lt in E2; try apply Z.ltb_ge in E2; lia.
Qed.

(** ... and not before: with fewer turns the loop is still running. *)
Lemma dedup_scan_empty_spins (k : nat) :
  forall (i : Z) (fuel run : nat) (vs : list Point3f) (alias : gmap Z Z),
    - 2 ^ 31 <= i < 2 ^ 31 ->
    Z.of_nat k = (-1 - i) mod 2 ^ 32 ->
    (fuel <= k)%nat ->
    dedup_scan fuel run [] i vs alias = OutOfFuel.
Proof.
  induction k as [| k IH]; intros i fuel run vs alias Hi Hk Hfuel;
    rewrite mod_2_32_cases in Hk by lia;
    (destruct fuel as [| fuel]; [reflexivity |]); [lia |].
  cbn [dedup_scan]. rewrite (scan_cond_empty i Hi).
  assert (Eni : i <> -1) by (intros ->; simpl in Hk; lia).
  apply Z.eqb_neq in Eni. rewrite Eni. apply Z.eqb_neq in Eni.
  cbn [negb].
  destruct run as [| run]; [reflexivity |]. cbn [dedup_run].
  rewrite run_cond_empty. cbn [mbind result_bind Res.bind].
  assert (Hw : - 2 ^ 31 <= wrap32 (i + 1) < 2 ^ 31).
  { rewrite wrap32_succ by lia. destruct (i =? 2 ^ 31 - 1) eqn:E;
      [apply Z.eqb_eq in E | apply Z.eqb_neq in E]; lia. }
  apply IH; try lia.
  rewrite mod_2_32_cases by lia.
  rewrite wrap32_succ in * by lia.
  destruct (i =? 2 ^ 31 - 1) eqn:E;
    [apply Z.eqb_eq in E | apply Z.eqb_neq in E].
  - subst i. simpl in *. lia.
  - destruct (-1 - i <? 0) eqn:E1;
      [apply Z.ltb_lt in E1 | apply Z.ltb_ge in E1];
      destruct (-1 - (i + 1) <? 0) eqn:E2;
      try apply Z.ltb_lt in E2; try apply Z.ltb_ge in E2; lia.
Qed.

Lemma dedup_scan_empty_mesh_spins (fuel : nat) (vs : list Point3f) :
  Z.of_nat fuel < 2 ^ 32 ->
  dedup_scan fuel fuel [] 0 vs ∅ = OutOfFuel.
Proof.
  intros Hfuel.
  apply (dedup_scan_empty_spins (Z.to_nat (2 ^ 32 - 1))).
  - lia.
  - rewrite Z2Nat.id by lia. reflexivity.
  - lia.
Qed.

Lemma dedup_scan_empty_mesh (fuel : nat) (vs : list Point3f) :
  (enough_fuel 0 <= fuel)%nat ->
  dedup_scan fuel fuel [] 0 vs ∅ = Ok (vs, ∅).
Proof.
  unfold enough_fuel. intros Hfuel.
  apply (dedup_scan_empty (Z.to_nat (2 ^ 32 - 1))).
  - lia.
  - rewrite Z2Nat.id by lia. reflexivity.
  - lia.
  - lia.
Qed.

(** *** The scan of a permutation of the indices *)

Section Scan.

Variable vs0 : list Point3f.
Variable ord : list Z.

Hypothesis Hperm : Permutation ord (iota (length vs0)).
Hypothesis Hsize : vsize vs0 < 2 ^ 31.

Local Abbreviation n := (length vs0).
Local Abbreviation pos := (at_pos ord).
Local Abbreviation head := (head_of vs0 ord).
Local Abbreviation vat := (vertex_at vs0 ord).

Lemma ord_length : length ord = n.
Proof.
  rewrite (Permutation_length Hperm). unfold iota.
  rewrite length_map, length_seq. reflexivity.
Qed.

Lemma ord_NoDup : NoDup ord.
Proof.
  rewrite Hperm. unfold iota. apply NoDup_fmap_2.
  - intros x y H. lia.
  - apply NoDup_seq.
Qed.

Lemma elem_of_iota (z : Z) (k : nat) :
  z ∈ iota k <-> exists o : nat, (o < k)%nat /\ z = Z.of_nat o.
Proof.
  unfold iota. rewrite list_elem_of_fmap. split.
  - intros (o & -> & Ho). apply elem_of_seq in Ho. exists o. split; [lia | auto].
  - intros (o & Ho & ->). exists o. split; [reflexivity |].
    apply elem_of_seq. lia.
Qed.

Lemma ord_lookup (a : nat) : (a < n)%nat -> ord !! a = Some (pos a).
Proof.
  intros Ha. unfold at_pos. rewrite nth_lookup.
  destruct (ord !! a) eqn:E; [reflexivity |].
  apply lookup_ge_None in E. rewrite ord_length in E. lia.
Qed.

Lemma ord_range (a : nat) : (a < n)%nat -> 0 <= pos a < Z.of_nat n.
Proof.
  intros Ha. pose proof (ord_lookup a Ha) as H.
  apply list_elem_of_lookup_2 in H. revert H. generalize (pos a).
  intros z H. rewrite Hperm in H.
  apply elem_of_iota in H as (o & Ho & ->). lia.
Qed.

Lemma ord_inj (a b : nat) :
  (a < n)%nat -> (b < n)%nat -> pos a = pos b -> a = b.
Proof.
  intros Ha Hb E.
  apply (NoDup_lookup ord a b (pos a) ord_NoDup).
  - apply ord_lookup, Ha.
  - rewrite E. apply ord_lookup, Hb.
Qed.

Lemma ord_surj (key : Z) :
  0 <= key < Z.of_nat n -> exists a, (a < n)%nat /\ pos a = key.
Proof.
  intros Hk.
  assert (Hin : key ∈ ord).
  { rewrite Hperm. apply elem_of_iota. exists (Z.to_nat key). lia. }
  apply list_elem_of_lookup_1 in Hin as (a & Ha).
  pose proof (lookup_lt_Some _ _ _ Ha) as Hlt. rewrite ord_length in Hlt.
  exists a. split; [exact Hlt |].
  rewrite (ord_lookup a Hlt) in Ha. congruence.
Qed.

Lemma vget_ord (a : nat) : (a < n)%nat -> vget ord (Z.of_nat a) = Ok (pos a).
Proof. intros Ha. rewrite vget_of_nat, (ord_lookup a Ha). reflexivity. Qed.

Lemma vs0_lookup (a : nat) :
  (a < n)%nat -> vs0 !! Z.to_nat (pos a) = Some (vat a).
Proof.
  intros Ha. pose proof (ord_range a Ha) as Hr.
  unfold vertex_at. rewrite nth_lookup.
  destruct (vs0 !! Z.to_nat (pos a)) eqn:E; [reflexivity |].
  apply lookup_ge_None in E. lia.
Qed.

Lemma head_le (a : nat) : (head a <= a)%nat.
Proof.
  induction a as [| a IH]; simpl; [lia |].
  destruct (P3.eqb _ _); lia.
Qed.

Lemma head_idem (a : nat) : head (head a) = head a.
Proof.
  induction a as [| a IH]; simpl; [reflexivity |].
  destruct (P3.eqb (vat (head a)) (vat (S a))) eqn:E; [exact IH |].
  simpl. rewrite E. reflexivity.
Qed.

Lemma marked_false_ge (k a : nat) : (k <= a)%nat -> marked vs0 ord k a = false.
Proof.
  intros H. unfold marked.
  replace (a <? k)%nat with false by (symmetry; apply Nat.ltb_ge; lia).
  reflexivity.
Qed.

Lemma marked_head (k a : nat) : head a = a -> marked vs0 ord k a = false.
Proof.
  intros H. unfold marked. rewrite H, Nat.eqb_refl.
  apply andb_false_r.
Qed.

Lemma marked_succ (k a : nat) :
  marked vs0 ord (S k) a =
  if (a =? k)%nat then negb (head k =? k)%nat else marked vs0 ord k a.
Proof.
  unfold marked. destruct (a =? k)%nat eqn:E.
  - apply Nat.eqb_eq in E. subst a.
    replace (k <? S k)%nat with true by (symmetry; apply Nat.ltb_lt; lia).
    reflexivity.
  - apply Nat.eqb_neq in E.
    destruct (a <? k)%nat eqn:E1; destruct (a <? S k)%nat eqn:E2;
      try reflexivity;
      [apply Nat.ltb_lt in E1; apply Nat.ltb_ge in E2
      | apply Nat.ltb_ge in E1; apply Nat.ltb_lt in E2]; lia.
Qed.

(** A position that heads its run is passed without a change. *)
Lemma scanned_skip (k : nat) (vs : list Point3f) (alias : gmap Z Z) :
  head k = k -> scanned vs0 ord k vs alias -> scanned vs0 ord (S k) vs alias.
Proof.
  intros Hk (Hlen & Hpos & Hout). split; [exact Hlen |]. split; [| exact Hout].
  intros a Ha. rewrite marked_succ. destruct (a =? k)%nat eqn:E.
  - apply Nat.eqb_eq in E. subst a. rewrite Hk, Nat.eqb_refl. simpl.
    specialize (Hpos k Ha). rewrite (marked_head k k Hk) in Hpos. exact Hpos.
  - apply Hpos, Ha.
Qed.

(** A position inside the run headed by [i] is marked. *)
Lemma scanned_mark (i j : nat) (vs : list Point3f) (alias : gmap Z Z) :
  (i < j)%nat -> (j < n)%nat -> head j = i ->
  scanned vs0 ord j vs alias ->
  scanned vs0 ord (S j) (<[Z.to_nat (pos j) := infinite_point]> vs)
          (<[pos j := pos i]> alias).
Proof.
  intros Hij Hj Hh (Hlen & Hpos & Hout).
  pose proof (ord_range j Hj) as Hrj.
  split; [rewrite length_insert; exact Hlen |]. split.
  - intros a Ha. rewrite marked_succ. destruct (a =? j)%nat eqn:E.
    + apply Nat.eqb_eq in E. subst a.
      replace (head j =? j)%nat with false
        by (symmetry; apply Nat.eqb_neq; lia).
      simpl. rewrite Hh. split.
      * apply list_lookup_insert_eq. lia.
      * apply lookup_insert_eq.
    + apply Nat.eqb_neq in E.
      assert (Hne : pos a <> pos j)
        by (intros Hc; apply E; apply ord_inj; assumption).
      pose proof (ord_range a Ha) as Hra.
      specialize (Hpos a Ha).
      rewrite list_lookup_insert_ne by lia.
      rewrite lookup_insert_ne by congruence.
      exact Hpos.
  - intros key Hkey. rewrite lookup_insert_ne.
    + apply Hout, Hkey.
    + intros E. subst key. unfold vsize in Hkey. lia.
Qed.

Lemma vget_unmarked (k a : nat) (vs : list Point3f) (alias : gmap Z Z) :
  scanned vs0 ord k vs alias -> (a < n)%nat -> marked vs0 ord k a = false ->
  vget vs (pos a) = Ok (vat a).
Proof.
  intros (_ & Hpos & _) Ha Hm. specialize (Hpos a Ha). rewrite Hm in Hpos.
  destruct Hpos as [Hv _]. rewrite (vs0_lookup a Ha) in Hv.
  pose proof (ord_range a Ha) as Hr.
  apply vget_Ok. split; [lia | exact Hv].
Qed.

Lemma run_cond (j : nat) :
  (j <= n)%nat -> (to_size_t (Z.of_nat j) <? vsize ord) = (j <? n)%nat.
Proof.
  intros Hj. unfold vsize in *. rewrite ord_length.
  rewrite to_size_t_small by lia.
  destruct (j <? n)%nat eqn:E;
    [apply Nat.ltb_lt in E; apply Z.ltb_lt
    | apply Nat.ltb_ge in E; apply Z.ltb_ge]; lia.
Qed.

Lemma scan_cond (i : nat) :
  (i <= n)%nat -> (1 <= n)%nat ->
  (to_size_t (Z.of_nat i) <? to_size_t (vsize ord - 1)) = (S i <? n)%nat.
Proof.
  intros Hi H1. unfold vsize in *. rewrite ord_length.
  rewrite !to_size_t_small by lia.
  destruct (S i <? n)%nat eqn:E;
    [apply Nat.ltb_lt in E; apply Z.ltb_lt
    | apply Nat.ltb_ge in E; apply Z.ltb_ge]; lia.
Qed.

(** The inner loop: from [j], inside the run headed by [i], to the head
    of the next run or to the end. *)
Lemma dedup_run_scanned (d : nat) :
  forall (i j : nat) (vs : list Point3f) (alias : gmap Z Z) (fuel : nat),
    (n - j <= d)%nat -> (i < j)%nat -> (j <= n)%nat ->
    head i = i -> (forall b, (i <= b < j)%nat -> head b = i) ->
    scanned vs0 ord j vs alias -> (d < fuel)%nat ->
    exists (j' : nat) vs' alias',
      dedup_run fuel ord (Z.of_nat i) (Z.of_nat j) vs alias
        = Ok (Z.of_nat j', vs', alias')
      /\ (j <= j' <= n)%nat
      /\ scanned vs0 ord j' vs' alias'
      /\ ((j' < n)%nat -> head j' = j').
Proof.
  induction d as [| d IH]; intros i j vs alias fuel Hd Hij Hjn Hi Hrun Hsc Hfuel;
    (destruct fuel as [| fuel]; [lia |]); cbn [dedup_run];
    rewrite (run_cond j Hjn).
  - replace (j <? n)%nat with false by (symmetry; apply Nat.ltb_ge; lia).
    exists j, vs, alias.
    split; [reflexivity | split; [lia | split; [exact Hsc | lia]]].
  - destruct (j <? n)%nat eqn:Ej.
    2:{ exists j, vs, alias. apply Nat.ltb_ge in Ej.
        split; [reflexivity | split; [lia | split; [exact Hsc | lia]]]. }
    apply Nat.ltb_lt in Ej.
    rewrite (vget_ord i) by lia. cbn [mbind result_bind Res.bind].
    rewrite (vget_unmarked j i vs alias Hsc) by (try lia; apply marked_head, Hi).
    cbn [mbind result_bind Res.bind].
    rewrite (vget_ord j Ej). cbn [mbind result_bind Res.bind].
    rewrite (vget_unmarked j j vs alias Hsc)
      by (try lia; apply marked_false_ge; lia).
    cbn [mbind result_bind Res.bind].
    assert (Hhead : head j = if P3.eqb (vat i) (vat j) then i else j).
    { destruct j as [| b]; [lia |]. simpl.
      rewrite (Hrun b) by lia. reflexivity. }
    destruct (P3.eqb (vat i) (vat j)) eqn:E.
    + pose proof (ord_range j Ej) as Hrj.
      destruct Hsc as (Hlen & Hsc').
      unfold vset. rewrite Hlen.
      replace ((0 <=? pos j) && (pos j <? Z.of_nat n)) with true
        by (symmetry; apply andb_true_intro; split;
            [apply Z.leb_le | apply Z.ltb_lt]; lia).
      cbn [mbind result_bind Res.bind].
      unfold vsize in Hsize.
      rewrite wrap32_small by lia.
      replace (Z.of_nat j + 1) with (Z.of_nat (S j)) by lia.
      assert (Hrun2 : forall b, (i <= b < S j)%nat -> head b = i).
      { intros b Hb. destruct (Nat.eq_dec b j) as [-> | Hne];
          [exact Hhead | apply Hrun; lia]. }
      assert (Hsc2 : scanned vs0 ord (S j)
                       (<[Z.to_nat (pos j) := infinite_point]> vs)
                       (<[pos j := pos i]> alias)).
      { apply scanned_mark; try lia; try exact Hhead. split; assumption. }
      destruct (IH i (S j) _ _ fuel ltac:(lia) ltac:(lia) ltac:(lia)
                   Hi Hrun2 Hsc2 ltac:(lia))
        as (j' & vs' & alias' & Hr & Hj' & Hsc'' & Hh').
      exists j', vs', alias'.
      split; [exact Hr | split; [lia | split; [exact Hsc'' | exact Hh']]].
    + exists j, vs, alias.
      split; [reflexivity | split; [lia | split; [exact Hsc |]]].
      intros _. exact Hhead.
Qed.

(** The outer loop, for a mesh with a vertex. *)
Lemma dedup_scan_scanned (d : nat) :
  forall (i : nat) (vs : list Point3f) (alias : gmap Z Z) (fuel run : nat),
    (n - i <= d)%nat -> (i <= n)%nat -> (1 <= n)%nat ->
    ((i < n)%nat -> head i = i) ->
    scanned vs0 ord i vs alias -> (d < fuel)%nat -> (n < run)%nat ->
    exists vs' alias',
      dedup_scan fuel run ord (Z.of_nat i) vs alias = Ok (vs', alias')
      /\ scanned vs0 ord n vs' alias'.
Proof.
  induction d as [| d IH]; intros i vs alias fuel run Hd Hi H1 Hh Hsc Hfuel Hrun;
    (destruct fuel as [| fuel]; [lia |]); cbn [dedup_scan];
    rewrite (scan_cond i Hi H1).
  - replace (S i <? n)%nat with false by (symmetry; apply Nat.ltb_ge; lia).
    exists vs, alias. split; [reflexivity |].
    replace n with i by lia. exact Hsc.
  - destruct (S i <? n)%nat eqn:Ei.
    + apply Nat.ltb_lt in Ei.
      unfold vsize in Hsize. rewrite wrap32_small by lia.
      replace (Z.of_nat i + 1) with (Z.of_nat (S i)) by lia.
      assert (Hhi : head i = i) by (apply Hh; lia).
      assert (Hrun1 : forall b, (i <= b < S i)%nat -> head b = i).
      { intros b Hb. replace b with i by lia. exact Hhi. }
      assert (Hsc1 : scanned vs0 ord (S i) vs alias)
        by (apply scanned_skip; assumption).
      destruct (dedup_run_scanned n i (S i) vs alias run ltac:(lia)
                  ltac:(lia) ltac:(lia) Hhi Hrun1 Hsc1 ltac:(lia))
        as (j' & vs' & alias' & Hr & Hj' & Hsc' & Hh').
      rewrite Hr. cbn [mbind result_bind Res.bind].
      apply IH; try lia; assumption.
    + apply Nat.ltb_ge in Ei. exists vs, alias. split; [reflexivity |].
      destruct (Nat.eq_dec i n) as [-> | Hne]; [exact Hsc |].
      replace n with (S i) by lia.
      apply scanned_skip; [apply Hh; lia | exact Hsc].
Qed.

Lemma scanned_start : scanned vs0 ord 0 vs0 ∅.
Proof.
  split; [reflexivity |]. split.
  - intros a Ha. rewrite marked_false_ge by lia. split; [reflexivity |].
    apply lookup_empty.
  - intros key _. apply lookup_empty.
Qed.

(** The whole scan of a mesh with a vertex. *)
Lemma dedup_scan_total (fuel : nat) :
  (1 <= n)%nat -> (enough_fuel n <= fuel)%nat ->
  exists vs' alias',
    dedup_scan fuel fuel ord 0 vs0 ∅ = Ok (vs', alias')
    /\ scanned vs0 ord n vs' alias'.
Proof.
  intros H1 Hfuel.
  assert (Hf : (S n <= fuel)%nat).
  { unfold enough_fuel in Hfuel. destruct n; [lia | exact Hfuel]. }
  apply (dedup_scan_scanned n 0 vs0 ∅ fuel fuel); try lia.
  - intros _. reflexivity.
  - apply scanned_start.
Qed.

End Scan.

(** *** The order of NaN-free points *)

Lemma P3_eqb_key (p q : Point3f) :
  P3.nan_free p = true -> P3.nan_free q = true ->
  P3.eqb p q = true <-> P3.key p = P3.key q.
Proof.
  intros Hp Hq. rewrite (P3_eqb_cmp p q Hp Hq). unfold P3.cmp.
  rewrite <- lex_cmp_eq. destruct (lex_cmp (P3.key p) (P3.key q));
    split; congruence.
Qed.

Lemma P3_eqb_refl (p : Point3f) : P3.nan_free p = true -> P3.eqb p p = true.
Proof. intros Hp. apply P3_eqb_key; auto. Qed.

Lemma P3_eqb_sym (p q : Point3f) :
  P3.nan_free p = true -> P3.nan_free q = true ->
  P3.eqb p q = P3.eqb q p.
Proof.
  intros Hp Hq. rewrite (P3_eqb_cmp p q Hp Hq), (P3_eqb_cmp q p Hq Hp).
  unfold P3.cmp. rewrite (lex_cmp_opp (P3.key p) (P3.key q)).
  destruct (lex_cmp (P3.key p) (P3.key q)); reflexivity.
Qed.

Lemma lex_le_trans (k1 k2 k3 : list Z) :
  lex_le k1 k2 -> lex_le k2 k3 -> lex_le k1 k3.
Proof.
  unfold lex_le. intros H1 H2.
  destruct (lex_cmp k1 k2) eqn:E1; try congruence;
    destruct (lex_cmp k2 k3) eqn:E2; try congruence.
  - apply lex_cmp_eq in E1, E2. subst.
    rewrite lex_cmp_refl. discriminate.
  - apply lex_cmp_eq in E1. subst. rewrite E2. discriminate.
  - apply lex_cmp_eq in E2. subst. rewrite E1. discriminate.
  - rewrite (lex_cmp_lt_trans _ _ _ E1 E2). discriminate.
Qed.

Lemma lex_le_lt (k1 k2 k3 : list Z) :
  lex_le k1 k2 -> lex_cmp k2 k3 = Lt -> lex_cmp k1 k3 = Lt.
Proof.
  unfold lex_le. intros H1 H2.
  destruct (lex_cmp k1 k2) eqn:E1; try congruence.
  - apply lex_cmp_eq in E1. subst. exact H2.
  - apply (lex_cmp_lt_trans _ _ _ E1 H2).
Qed.

Lemma P3_not_ltb_le (p q : Point3f) :
  P3.nan_free p = true -> P3.nan_free q = true ->
  P3.ltb q p = false -> lex_le (P3.key p) (P3.key q).
Proof.
  intros Hp Hq H. rewrite (P3_ltb_cmp q p Hq Hp) in H. unfold P3.cmp in H.
  unfold lex_le. rewrite (lex_cmp_opp (P3.key q) (P3.key p)).
  destruct (lex_cmp (P3.key q) (P3.key p)); simpl; congruence.
Qed.

Lemma std_is_sorted_adjacent (comp : Z -> Z -> bool) (l : list Z) (a : nat) :
  std_is_sorted comp l = true -> (S a < length l)%nat ->
  comp (nth (S a) l 0) (nth a l 0) = false.
Proof.
  revert a. induction l as [| x l IH]; intros a Hs Ha; [simpl in Ha; lia |].
  destruct l as [| y l]; [simpl in Ha; lia |].
  cbn [std_is_sorted] in Hs. apply andb_prop in Hs as [Hxy Hs].
  destruct a as [| a].
  - simpl. apply negb_true_iff in Hxy. exact Hxy.
  - change (nth (S (S a)) (x :: y :: l) 0) with (nth (S a) (y :: l) 0).
    change (nth (S a) (x :: y :: l) 0) with (nth a (y :: l) 0).
    apply IH; [exact Hs | simpl in *; lia].
Qed.

(** *** The scan of a sorted order of NaN-free vertices *)

Section SortedScan.

Variable vs0 : list Point3f.
Variable ord : list Z.

Hypothesis Hperm : Permutation ord (iota (length vs0)).
Hypothesis Hsize : vsize vs0 < 2 ^ 31.
Hypothesis Hnan : Forall (fun p => P3.nan_free p = true) vs0.
Hypothesis Hsorted : std_is_sorted (VertexComparator vs0) ord = true.

Local Abbreviation n := (length vs0).
Local Abbreviation pos := (at_pos ord).
Local Abbreviation head := (head_of vs0 ord).
Local Abbreviation vat := (vertex_at vs0 ord).
Local Abbreviation K := (fun a => P3.key (vertex_at vs0 ord a)).

Lemma vat_nan_free (a : nat) : (a < n)%nat -> P3.nan_free (vat a) = true.
Proof.
  intros Ha. pose proof (vs0_lookup vs0 ord Hperm a Ha) as H.
  rewrite Forall_forall in Hnan. apply Hnan.
  apply list_elem_of_lookup_2 in H. exact H.
Qed.

Lemma sorted_step (a : nat) : (S a < n)%nat -> lex_le (K a) (K (S a)).
Proof.
  intros Ha.
  pose proof (std_is_sorted_adjacent _ ord a Hsorted) as H.
  rewrite (ord_length vs0 ord Hperm) in H. specialize (H Ha).
  fold (pos (S a)) in H. fold (pos a) in H.
  unfold VertexComparator in H.
  assert (Hg : forall b, (b < n)%nat -> vget vs0 (pos b) = Ok (vat b)).
  { intros b Hb. apply vget_Ok.
    pose proof (ord_range vs0 ord Hperm b Hb).
    split; [lia | apply (vs0_lookup vs0 ord Hperm b Hb)]. }
  rewrite !Hg in H by lia.
  apply P3_not_ltb_le; [apply vat_nan_free; lia | apply vat_nan_free; lia | exact H].
Qed.

Lemma sorted_mono (a b : nat) :
  (a <= b)%nat -> (b < n)%nat -> lex_le (K a) (K b).
Proof.
  intros Hab Hb. induction b as [| b IH].
  - replace a with 0%nat by lia. unfold lex_le. rewrite lex_cmp_refl.
    discriminate.
  - destruct (Nat.eq_dec a (S b)) as [-> | Hne].
    + unfold lex_le. rewrite lex_cmp_refl. discriminate.
    + apply (lex_le_trans _ (K b)); [apply IH; lia | apply sorted_step; lia].
Qed.

(** The vertex at a position equals the vertex at the head of its run. *)
Lemma head_eqb (a : nat) : (a < n)%nat -> P3.eqb (vat (head a)) (vat a) = true.
Proof.
  induction a as [| a IH]; intros Ha; simpl.
  - apply P3_eqb_refl, vat_nan_free, Ha.
  - destruct (P3.eqb (vat (head a)) (vat (S a))) eqn:E; [exact E |].
    apply P3_eqb_refl, vat_nan_free, Ha.
Qed.

(** The vertex at the head of a run differs from every vertex before. *)
Lemma head_distinct (a h : nat) :
  (a < h)%nat -> (h < n)%nat -> head h = h ->
  P3.eqb (vat a) (vat h) = false.
Proof.
  intros Hah Hh Hhead. destruct h as [| b]; [lia |].
  assert (Hb : (b < n)%nat) by lia.
  assert (Hhb : (head b < n)%nat) by (pose proof (head_le vs0 ord b); lia).
  simpl in Hhead.
  destruct (P3.eqb (vat (head b)) (vat (S b))) eqn:E.
  { pose proof (head_le vs0 ord b). lia. }
  assert (Hkb : K (head b) = K b).
  { apply P3_eqb_key; try (apply vat_nan_free; lia). apply head_eqb, Hb. }
  assert (Hlt : lex_cmp (K b) (K (S b)) = Lt).
  { pose proof (sorted_step b Hh) as Hle. unfold lex_le in Hle.
    destruct (lex_cmp (K b) (K (S b))) eqn:Ec; try congruence.
    apply lex_cmp_eq in Ec.
    assert (P3.eqb (vat (head b)) (vat (S b)) = true).
    { apply P3_eqb_key; try (apply vat_nan_free; lia). simpl in *. congruence. }
    congruence. }
  pose proof (lex_le_lt _ _ _ (sorted_mono a b ltac:(lia) Hb) Hlt) as Hab.
  destruct (P3.eqb (vat a) (vat (S b))) eqn:Eab; [| reflexivity].
  apply P3_eqb_key in Eab; try (apply vat_nan_free; lia).
  simpl in Hab. rewrite Eab, lex_cmp_refl in Hab. discriminate.
Qed.

End SortedScan.

(** *** What the scan leaves, index by index *)

Section ScanResult.

Variable vs0 : list Point3f.
Variable ord : list Z.

Hypothesis Hperm : Permutation ord (iota (length vs0)).
Hypothesis Hsize : vsize vs0 < 2 ^ 31.

Local Abbreviation n := (length vs0).
Local Abbreviation pos := (at_pos ord).
Local Abbreviation head := (head_of vs0 ord).

Variable vs' : list Point3f.
Variable alias' : gmap Z Z.
Hypothesis Hscanned : scanned vs0 ord (length vs0) vs' alias'.

Lemma marked_all (a : nat) :
  (a < n)%nat -> marked vs0 ord n a = negb (head a =? a)%nat.
Proof.
  intros Ha. unfold marked.
  replace (a <? n)%nat with true by (symmetry; apply Nat.ltb_lt; lia).
  reflexivity.
Qed.

Lemma alias_Some (x c : Z) :
  alias' !! x = Some c ->
  exists a, (a < n)%nat /\ x = pos a /\ head a <> a /\ c = pos (head a)
            /\ vs' !! Z.to_nat x = Some infinite_point.
Proof.
  intros Hx. destruct Hscanned as (_ & Hpos & Hout).
  destruct (decide (0 <= x < vsize vs0)) as [Hr | Hr].
  2:{ rewrite (Hout x Hr) in Hx. discriminate. }
  destruct (ord_surj vs0 ord Hperm x Hr) as (a & Ha & <-).
  specialize (Hpos a Ha). rewrite (marked_all a Ha) in Hpos.
  destruct (head a =? a)%nat eqn:E; simpl in Hpos.
  - destruct Hpos as [_ Hnone]. congruence.
  - apply Nat.eqb_neq in E. destruct Hpos as [Hv Ha'].
    exists a. repeat split; try assumption. congruence.
Qed.

Lemma alias_None (x : Z) :
  0 <= x < vsize vs0 -> alias' !! x = None ->
  exists a, (a < n)%nat /\ x = pos a /\ head a = a
            /\ vs' !! Z.to_nat x = vs0 !! Z.to_nat x.
Proof.
  intros Hr Hx. destruct Hscanned as (_ & Hpos & Hout).
  destruct (ord_surj vs0 ord Hperm x Hr) as (a & Ha & <-).
  specialize (Hpos a Ha). rewrite (marked_all a Ha) in Hpos.
  destruct (head a =? a)%nat eqn:E; simpl in Hpos.
  - apply Nat.eqb_eq in E. destruct Hpos as [Hv _].
    exists a. repeat split; assumption.
  - destruct Hpos as [_ Hsome]. congruence.
Qed.

(** The canonical index of an alias has no alias itself. *)
Lemma alias_canonical (x c : Z) : alias' !! x = Some c -> alias' !! c = None.
Proof.
  intros Hx. apply alias_Some in Hx as (a & Ha & -> & Hne & -> & _).
  destruct Hscanned as (_ & Hpos & _).
  assert (Hh : (head a < n)%nat) by (pose proof (head_le vs0 ord a); lia).
  specialize (Hpos (head a) Hh).
  rewrite (marked_head vs0 ord n (head a) (head_idem vs0 ord a)) in Hpos.
  apply Hpos.
Qed.

End ScanResult.

(** *** Termination *)

Lemma map_indices_id (f : Face) : map_indices (resolve_alias ∅) f = f.
Proof. destruct f. reflexivity. Qed.

Lemma deduplicated_empty_alias (m : Mesh) :
  deduplicated m (vertices m) ∅ = m.
Proof.
  unfold deduplicated. destruct m as [vs cs ns ts fs fts tex]. simpl.
  f_equal. induction fs as [| f fs IH]; [reflexivity |].
  simpl. rewrite map_indices_id, IH. reflexivity.
Qed.

(** For every permutation of the indices the scan ends, whatever the
    vertices are. *)
Lemma removeDuplicatedVertices_alias_total (m : Mesh) (ord : list Z) :
  vsize (vertices m) < 2 ^ 31 ->
  Permutation ord (iota (length (vertices m))) ->
  exists vs' alias',
    scanned (vertices m) ord (length (vertices m)) vs' alias'
    /\ (vertices m = [] -> vs' = [] /\ alias' = ∅)
    /\ forall fuel, (enough_fuel (length (vertices m)) <= fuel)%nat ->
         removeDuplicatedVertices_alias ord fuel m
         = Ok (deduplicated m vs' alias', alias').
Proof.
  intros Hsize Hperm. unfold removeDuplicatedVertices_alias.
  destruct (vertices m) as [| v vs] eqn:Ev.
  - apply Permutation_sym, Permutation_nil in Hperm. subst ord.
    exists [], ∅. split; [apply scanned_start |]. split; [auto |].
    intros fuel Hfuel. rewrite dedup_scan_empty_mesh by exact Hfuel.
    reflexivity.
  - destruct (dedup_scan_total (v :: vs) ord Hperm Hsize
                (enough_fuel (length (v :: vs))))
      as (vs' & alias' & Hrun & Hsc); [simpl; lia | lia |].
    exists vs', alias'. split; [exact Hsc |]. split; [discriminate |].
    intros fuel Hfuel.
    rewrite (dedup_scan_mono _ fuel _ fuel _ _ _ _ _ Hfuel Hfuel Hrun).
    reflexivity.
Qed.

(** Termination and determinism of the scan. For every mesh (of a size
    that [int] can index) and every order of its indices that [std::sort]
    can return: with enough fuel the scan returns a mesh; the mesh
    returned does not depend on the fuel; a mesh with [n > 0] vertices
    needs [n + 1] turns of each loop; the mesh with zero vertices comes
    back unchanged, but only after [2^32 - 1] idle turns. *)
Lemma removeDuplicatedVertices_total (m : Mesh) (ord : list Z) :
  vsize (vertices m) < 2 ^ 31 ->
  Permutation ord (iota (length (vertices m))) ->
  exists m',
    (forall fuel, (enough_fuel (length (vertices m)) <= fuel)%nat ->
       removeDuplicatedVertices ord fuel m = Ok m')
    /\ (forall fuel m'', removeDuplicatedVertices ord fuel m = Ok m'' -> m'' = m')
    /\ ((0 < length (vertices m))%nat ->
        enough_fuel (length (vertices m)) = S (length (vertices m)))
    /\ (vertices m = [] ->
        m' = m
        /\ forall fuel, Z.of_nat fuel < 2 ^ 32 ->
             removeDuplicatedVertices ord fuel m = OutOfFuel).
Proof.
  intros Hsize Hperm.
  destruct (removeDuplicatedVertices_alias_total m ord Hsize Hperm)
    as (vs' & alias' & _ & Hempty & Hrun).
  exists (deduplicated m vs' alias').
  assert (Hall : forall fuel, (enough_fuel (length (vertices m)) <= fuel)%nat ->
            removeDuplicatedVertices ord fuel m = Ok (deduplicated m vs' alias')).
  { intros fuel Hfuel. unfold removeDuplicatedVertices.
    rewrite (Hrun fuel Hfuel). reflexivity. }
  split; [exact Hall |]. split; [| split].
  - intros fuel m'' H.
    set (big := Nat.max fuel (enough_fuel (length (vertices m)))).
    assert (H1 : removeDuplicatedVertices ord big m = Ok m'').
    { unfold removeDuplicatedVertices in *.
      apply bind_Ok in H as ([m1 a1] & Hr & H).
      rewrite (removeDuplicatedVertices_alias_mono ord fuel big m _
                 (Nat.le_max_l _ _) Hr).
      exact H. }
    rewrite (Hall big (Nat.le_max_r _ _)) in H1. congruence.
  - intros Hpos. destruct (length (vertices m)); [lia | reflexivity].
  - intros Hnil. split.
    + destruct (Hempty Hnil) as [-> ->].
      rewrite <- Hnil. apply deduplicated_empty_alias.
    + intros fuel Hfuel.
      rewrite Hnil in Hperm. apply Permutation_sym, Permutation_nil in Hperm.
      subst ord. unfold removeDuplicatedVertices, removeDuplicatedVertices_alias.
      rewrite Hnil, dedup_scan_empty_mesh_spins by exact Hfuel. reflexivity.
Qed.

(** The triangle is scanned in four turns. *)
Lemma removeDuplicatedVertices_total_triangle :
  exists m', removeDuplicatedVertices [0; 1; 2] 4 triangle = Ok m'.
Proof.
  destruct (removeDuplicatedVertices_total triangle [0; 1; 2])
    as (m' & Hrun & _).
  - vm_compute. reflexivity.
  - apply Permutation_refl.
  - exists m'. apply Hrun. simpl. lia.
Defined.



(** The cost of the empty case. On the mesh with zero vertices the bound
    [ordered_indices.size() - 1] of the scan wraps around to the largest
    [size_t]: the loop is entered although there is nothing to scan, and
    it ends when [i] has run through every [int] and come round to [-1].
    With fewer than [2^32] turns the scan has not returned; from [2^32]
    turns on it returns the mesh unchanged. *)
Lemma removeDuplicatedVertices_empty_turns :
  (forall fuel, Z.of_nat fuel < 2 ^ 32 ->
     removeDuplicatedVertices [] fuel empty_mesh = OutOfFuel)
  /\ (forall fuel, 2 ^ 32 <= Z.of_nat fuel ->
        removeDuplicatedVertices [] fuel empty_mesh = Ok empty_mesh)
  /\ to_size_t (vsize (@nil Z) - 1) = 2 ^ 64 - 1
  /\ wrap32 (INT_MAX + 1) = - 2 ^ 31
  /\ (forall n, enough_fuel (S n) = S (S n)).
Proof.
  split; [| split; [| split; [| split]]].
  - intros fuel Hfuel.
    unfold removeDuplicatedVertices, removeDuplicatedVertices_alias.
    cbn [vertices empty_mesh].
    rewrite dedup_scan_empty_mesh_spins by exact Hfuel. reflexivity.
  - intros fuel Hfuel.
    unfold removeDuplicatedVertices, removeDuplicatedVertices_alias.
    cbn [vertices empty_mesh].
    rewrite dedup_scan_empty_mesh by (unfold enough_fuel; lia). reflexivity.
  - reflexivity.
  - reflexivity.
  - reflexivity.
Qed.

(** *** Correctness on NaN-free vertices *)

Lemma indices_map_indices (g : Z -> Z) (f : Face) (i : Z) :
  i ∈ indices (map_indices g f) <-> exists i0, i0 ∈ indices f /\ i = g i0.
Proof.
  unfold indices, map_indices. simpl. rewrite !elem_of_cons, elem_of_nil.
  split.
  - intros [-> | [-> | [-> | []]]].
    + exists (idx0 f). rewrite !elem_of_cons. auto.
    + exists (idx1 f). rewrite !elem_of_cons. auto.
    + exists (idx2 f). rewrite !elem_of_cons. auto.
  - intros (i0 & Hi0 & ->). rewrite !elem_of_cons, elem_of_nil in Hi0.
    destruct Hi0 as [-> | [-> | [-> | []]]]; auto.
Qed.

Lemma vget_in_range {A : Type} (v : list A) (i : Z) (a : A) :
  vget v i = Ok a -> 0 <= i < vsize v.
Proof.
  intros H. apply vget_Ok in H as [H0 H]. apply lookup_lt_Some in H.
  unfold vsize. lia.
Qed.

Lemma vget_lookup_eq {A : Type} (v w : list A) (i : Z) :
  v !! Z.to_nat i = w !! Z.to_nat i -> vget v i = vget w i.
Proof. intros H. unfold vget. rewrite H. reflexivity. Qed.

(** What the deduplication returns on NaN-free vertices. *)
Lemma removeDuplicatedVertices_alias_spec (m : Mesh) (ord : list Z) :
  vsize (vertices m) < 2 ^ 31 ->
  Forall (fun p => P3.nan_free p = true) (vertices m) ->
  sorted_indices m ord ->
  exists m' alias,
    (forall fuel, (enough_fuel (length (vertices m)) <= fuel)%nat ->
       removeDuplicatedVertices_alias ord fuel m = Ok (m', alias)
       /\ removeDuplicatedVertices ord fuel m = Ok m')
    /\ length (vertices m') = length (vertices m)
    /\ faces m' = map (map_indices (resolve_alias alias)) (faces m)
    /\ (forall a c, alias !! a = Some c ->
          index_in_range m a /\ index_in_range m c /\ a <> c
          /\ alias !! c = None
          /\ vget (vertices m') a = Ok infinite_point
          /\ exists p q, vget (vertices m) a = Ok p /\ vget (vertices m) c = Ok q
                         /\ vget (vertices m') c = Ok q
                         /\ P3.eqb q p = true)
    /\ (forall a, index_in_range m a -> alias !! a = None ->
          vget (vertices m') a = vget (vertices m) a)
    /\ (forall a b p q, a <> b -> alias !! a = None -> alias !! b = None ->
          vget (vertices m) a = Ok p -> vget (vertices m) b = Ok q ->
          P3.eqb p q = false)
    /\ (forall f i, f ∈ faces m' -> i ∈ indices f ->
          alias !! i = None
          /\ (index_in_range m i ->
              vget (vertices m') i = vget (vertices m) i
              /\ vget (vertices m') i <> Ok infinite_point))
    /\ (forall f, f ∈ faces m -> (forall i, i ∈ indices f -> alias !! i = None) ->
          map_indices (resolve_alias alias) f = f)
    /\ (forall f g i j p q, f ∈ faces m' -> g ∈ faces m' ->
          i ∈ indices f -> j ∈ indices g -> i <> j ->
          vget (vertices m') i = Ok p -> vget (vertices m') j = Ok q ->
          P3.eqb p q = false).
Proof.
  intros Hsize Hnan [Hperm Hsorted].
  destruct (removeDuplicatedVertices_alias_total m ord Hsize Hperm)
    as (vs' & alias & Hsc & _ & Hrun).
  set (vs0 := vertices m) in *.
  exists (deduplicated m vs' alias), alias.
  assert (Hpos_get : forall a, (a < length vs0)%nat ->
            vget vs0 (at_pos ord a) = Ok (vertex_at vs0 ord a)).
  { intros a Ha. apply vget_Ok.
    pose proof (ord_range vs0 ord Hperm a Ha).
    split; [lia | apply (vs0_lookup vs0 ord Hperm a Ha)]. }
  assert (Hkeep : forall a, index_in_range m a -> alias !! a = None ->
            vget vs' a = vget vs0 a).
  { intros a Ha Hnone.
    destruct (alias_None vs0 ord Hperm vs' alias Hsc a Ha Hnone)
      as (k & _ & _ & _ & Hv).
    apply vget_lookup_eq, Hv. }
  assert (Hdistinct : forall a b p q, a <> b ->
            alias !! a = None -> alias !! b = None ->
            vget vs0 a = Ok p -> vget vs0 b = Ok q -> P3.eqb p q = false).
  { intros a b p q Hab Ha Hb Hp Hq.
    pose proof (vget_in_range _ _ _ Hp) as Hra.
    pose proof (vget_in_range _ _ _ Hq) as Hrb.
    destruct (alias_None vs0 ord Hperm vs' alias Hsc a Hra Ha)
      as (ka & Hka & -> & Hha & _).
    destruct (alias_None vs0 ord Hperm vs' alias Hsc b Hrb Hb)
      as (kb & Hkb & -> & Hhb & _).
    rewrite (Hpos_get ka Hka) in Hp. rewrite (Hpos_get kb Hkb) in Hq.
    inversion Hp. inversion Hq. subst p q.
    assert (Hne : ka <> kb) by congruence.
    destruct (Nat.lt_total ka kb) as [Hlt | [Heq | Hgt]]; [| congruence |].
    - apply (head_distinct vs0 ord Hperm Hnan Hsorted ka kb Hlt Hkb Hhb).
    - rewrite P3_eqb_sym
        by (apply (vat_nan_free vs0 ord Hperm Hnan); assumption).
      apply (head_distinct vs0 ord Hperm Hnan Hsorted kb ka Hgt Hka Hha). }
  assert (Hface : forall f i, f ∈ faces (deduplicated m vs' alias) ->
            i ∈ indices f -> alias !! i = None).
  { intros f i Hf Hi. simpl in Hf. apply list_elem_of_fmap in Hf as (f0 & -> & Hf0).
    apply indices_map_indices in Hi as (i0 & _ & ->).
    unfold resolve_alias. destruct (alias !! i0) as [c |] eqn:E; [| exact E].
    apply (alias_canonical vs0 ord Hperm vs' alias Hsc i0 c E). }
  split.
  { intros fuel Hfuel. rewrite (Hrun fuel Hfuel). split; [reflexivity |].
    unfold removeDuplicatedVertices. rewrite (Hrun fuel Hfuel). reflexivity. }
  split; [apply Hsc |]. split; [reflexivity |]. split.
  { intros a c Hac.
    pose proof (alias_canonical vs0 ord Hperm vs' alias Hsc a c Hac) as Hc.
    destruct (alias_Some vs0 ord Hperm vs' alias Hsc a c Hac)
      as (k & Hk & -> & Hne & -> & Hv).
    assert (Hh : (head_of vs0 ord k < length vs0)%nat)
      by (pose proof (head_le vs0 ord k); lia).
    pose proof (ord_range vs0 ord Hperm k Hk) as Hrk.
    pose proof (ord_range vs0 ord Hperm _ Hh) as Hrh.
    split; [exact Hrk |]. split; [exact Hrh |]. split.
    { intros E. apply Hne. symmetry.
      apply (ord_inj vs0 ord Hperm); assumption. }
    split; [exact Hc |]. split.
    { apply vget_Ok. split; [lia | exact Hv]. }
    exists (vertex_at vs0 ord k), (vertex_at vs0 ord (head_of vs0 ord k)).
    split; [apply Hpos_get, Hk |]. split; [apply Hpos_get, Hh |]. split.
    { simpl. rewrite (Hkeep _ Hrh Hc). apply Hpos_get, Hh. }
    apply (head_eqb vs0 ord Hperm Hnan k Hk). }
  split; [exact Hkeep |]. split; [exact Hdistinct |]. split.
  { intros f i Hf Hi. pose proof (Hface f i Hf Hi) as Hnone.
    split; [exact Hnone |]. intros Hr. simpl.
    rewrite (Hkeep i Hr Hnone). split; [reflexivity |].
    intros Hinf. apply vget_Ok in Hinf as [_ Hl].
    apply list_elem_of_lookup_2 in Hl.
    rewrite Forall_forall in Hnan. specialize (Hnan _ Hl). discriminate. }
  split.
  { intros f _ Hf. destruct f as [a b c]. unfold map_indices, resolve_alias.
    simpl. unfold indices in Hf. simpl in Hf.
    rewrite (Hf a), (Hf b), (Hf c) by (rewrite !elem_of_cons; auto).
    reflexivity. }
  intros f g i j p q Hf Hg Hi Hj Hij Hp Hq. simpl in Hp, Hq.
  pose proof (Hface f i Hf Hi) as Hni. pose proof (Hface g j Hg Hj) as Hnj.
  assert (Hlen : length vs' = length vs0) by apply Hsc.
  assert (Hri : index_in_range m i).
  { apply vget_in_range in Hp. unfold index_in_range, vsize in *.
    fold vs0. lia. }
  assert (Hrj : index_in_range m j).
  { apply vget_in_range in Hq. unfold index_in_range, vsize in *.
    fold vs0. lia. }
  rewrite (Hkeep i Hri Hni) in Hp. rewrite (Hkeep j Hrj Hnj) in Hq.
  apply (Hdistinct i j p q Hij Hni Hnj Hp Hq).
Qed.

(** C2, for vertices without NaN. After [removeDuplicatedVertices] on a
    mesh whose vertex positions hold no NaN, with [ordered_indices] as
    [std::sort] returns it: the vertex array has its length; an index has
    an alias exactly when it is a duplicate, its vertex then equals the
    vertex at its canonical index, is overwritten with the sentinel, and
    the canonical index has no alias and keeps its vertex; the vertices
    without alias are pairwise different; every face index with an alias
    was rewritten to the canonical index, so no face index designates a
    sentineled vertex, a face without aliased index is untouched, and no
    two vertices at different indices referenced by faces are equal. *)
Theorem removeDuplicatedVertices_merges (m : Mesh) (ord : list Z) :
  vsize (vertices m) < 2 ^ 31 ->
  Forall (fun p => P3.nan_free p = true) (vertices m) ->
  sorted_indices m ord ->
  exists m' alias,
    (forall fuel, (enough_fuel (length (vertices m)) <= fuel)%nat ->
       removeDuplicatedVertices_alias ord fuel m = Ok (m', alias)
       /\ removeDuplicatedVertices ord fuel m = Ok m')
    /\ length (vertices m') = length (vertices m)
    /\ faces m' = map (map_indices (resolve_alias alias)) (faces m)
    /\ (forall a c, alias !! a = Some c ->
          index_in_range m a /\ index_in_range m c /\ a <> c
          /\ alias !! c = None
          /\ vget (vertices m') a = Ok infinite_point
          /\ exists p q, vget (vertices m) a = Ok p /\ vget (vertices m) c = Ok q
                         /\ vget (vertices m') c = Ok q
                         /\ P3.eqb q p = true)
    /\ (forall a, index_in_range m a -> alias !! a = None ->
          vget (vertices m') a = vget (vertices m) a)
    /\ (forall a b p q, a <> b -> alias !! a = None -> alias !! b = None ->
          vget (vertices m) a = Ok p -> vget (vertices m) b = Ok q ->
          P3.eqb p q = false)
    /\ (forall f i, f ∈ faces m' -> i ∈ indices f ->
          alias !! i = None
          /\ (index_in_range m i ->
              vget (vertices m') i = vget (vertices m) i
              /\ vget (vertices m') i <> Ok infinite_point))
    /\ (forall f, f ∈ faces m -> (forall i, i ∈ indices f -> alias !! i = None) ->
          map_indices (resolve_alias alias) f = f)
    /\ (forall f g i j p q, f ∈ faces m' -> g ∈ faces m' ->
          i ∈ indices f -> j ∈ indices g -> i <> j ->
          vget (vertices m') i = Ok p -> vget (vertices m') j = Ok q ->
          P3.eqb p q = false).
Proof. exact (removeDuplicatedVertices_alias_spec m ord). Qed.

(** On [doubled] the third vertex is merged into the first. *)
Lemma removeDuplicatedVertices_merges_witness :
  exists m', removeDuplicatedVertices doubled_order 4 doubled = Ok m'
             /\ length (vertices m') = 3%nat.
Proof.
  destruct (removeDuplicatedVertices_merges doubled doubled_order)
    as (m' & alias & Hrun & Hlen & _).
  - vm_compute. reflexivity.
  - repeat constructor.
  - split; [apply perm_swap | vm_compute; reflexivity].
  - exists m'. split; [apply Hrun; simpl; lia | exact Hlen].
Defined.

(** C2 as stated fails on [nan_between]: [VertexComparator] is a strict
    weak ordering on its vertices, the order is a sorted permutation, the
    scan finds no duplicate, and the faces go on referencing the two equal
    vertices at the indices 1 and 3. *)
Lemma removeDuplicatedVertices_nan_hides_duplicate :
  strict_weak_on (VertexComparator (vertices nan_between)) nan_between_order
  = true
  /\ sorted_indices nan_between nan_between_order
  /\ exists m',
       removeDuplicatedVertices nan_between_order 6 nan_between = Ok m'
       /\ exists f g i j p q,
            f ∈ faces m' /\ g ∈ faces m' /\ i ∈ indices f /\ j ∈ indices g
            /\ i <> j
            /\ vget (vertices m') i = Ok p /\ vget (vertices m') j = Ok q
            /\ P3.eqb p q = true.
Proof.
  split; [vm_compute; reflexivity |]. split.
  - split; [apply Permutation_refl | vm_compute; reflexivity].
  - eexists. split; [vm_compute; reflexivity |].
    exists (mkFace 0 1 4), (mkFace 0 4 3), 1, 3, (pt 1 5 0), (pt 1 5 0).
    repeat split.
    + apply elem_of_cons. left. reflexivity.
    + apply elem_of_cons. right. apply elem_of_cons. left. reflexivity.
    + apply elem_of_cons. right. apply elem_of_cons. left. reflexivity.
    + apply elem_of_cons. right. apply elem_of_cons. right.
      apply elem_of_cons. left. reflexivity.
    + lia.
Qed.

(** ** The invariant on the optional arrays *)

Lemma addPointFromSurfel_consistent (m : Mesh) (s : Surfel) :
  length (colors m) = length (vertices m) ->
  length (normals m) = length (vertices m) ->
  texcoords m = [] ->
  attrs_consistent (addPointFromSurfel m s).
Proof.
  intros Hc Hn Ht. unfold attrs_consistent, addPointFromSurfel. simpl.
  repeat split.
  - right. rewrite !length_app, Hc. reflexivity.
  - right. rewrite !length_app, Hn. reflexivity.
  - left. exact Ht.
Qed.

Lemma addSurfel_consistent (cv_norm : Vec3f -> float)
    (orthogonal_basis : Vec3f -> Vec3f * Vec3f) (m m' : Mesh) (s : Surfel) :
  length (colors m) = length (vertices m) ->
  length (normals m) = length (vertices m) ->
  texcoords m = [] ->
  addSurfel cv_norm orthogonal_basis m s = Ok m' ->
  attrs_consistent m'.
Proof.
  intros Hc Hn Ht. unfold addSurfel.
  destruct (SFltb double_0_9 (cv_norm (normal s))); [| discriminate].
  destruct (orthogonal_basis (normal s)) as [v1 v2].
  intros H. inversion H. subst m'. clear H.
  unfold attrs_consistent. simpl. repeat split.
  - right. rewrite !length_app, Hc. reflexivity.
  - right. rewrite !length_app, Hn. reflexivity.
  - left. exact Ht.
Qed.

Lemma addCube_consistent (m : Mesh) (center sizes : Point3f) (c : Vec3b) :
  attrs_consistent m -> normals m = [] -> texcoords m = [] ->
  attrs_consistent (addCube m center sizes c).
Proof.
  intros (Hc & _ & _) Hn Ht. unfold attrs_consistent, addCube. simpl.
  repeat split.
  - unfold hasColors. destruct (length (colors m) =? length (vertices m))%nat eqn:E.
    + apply Nat.eqb_eq in E. right. rewrite !length_app, E. reflexivity.
    + apply Nat.eqb_neq in E. destruct Hc as [Hc | Hc]; [left; exact Hc | lia].
  - left. exact Hn.
  - left. exact Ht.
Qed.

Lemma addMesh_consistent (m rhs m' : Mesh) :
  attrs_consistent m -> attrs_consistent rhs ->
  vertices m = [] \/ (normals m = [] /\ texcoords m = []) ->
  addMesh m rhs = Ok m' -> attrs_consistent m'.
Proof.
  intros (Hc & Hn & Ht) Hrhs Hcase. unfold addMesh, vsize.
  destruct (Z.of_nat (length (vertices m)) <? 1) eqn:E.
  { intros H. inversion H. subst. exact Hrhs. }
  apply Z.ltb_ge in E.
  destruct Hcase as [Hnil | [Hn0 Ht0]]; [rewrite Hnil in E; simpl in E; lia |].
  intros H. apply bind_Ok in H as (colors1 & Hcol & H).
  apply bind_Ok in H as (normals1 & Hnor & H).
  inversion H. subst m'. clear H. unfold attrs_consistent. simpl.
  repeat split.
  - unfold hasColors in Hcol.
    destruct (length (colors m) =? length (vertices m))%nat eqn:Ec.
    + apply Nat.eqb_eq in Ec.
      destruct (length (colors rhs) =? length (vertices rhs))%nat eqn:Er;
        simpl in Hcol; [| discriminate].
      apply Nat.eqb_eq in Er. inversion Hcol. right.
      rewrite !length_app, Ec, Er. reflexivity.
    + apply Nat.eqb_neq in Ec. inversion Hcol. subst colors1.
      destruct Hc as [Hc | Hc]; [left; exact Hc | lia].
  - unfold hasNormals in Hnor. cbn [vertices normals] in Hnor.
    rewrite Hn0 in Hnor. rewrite length_app in Hnor.
    replace (length (@nil Point3f) =? length (vertices m) + length (vertices rhs))%nat
      with false in Hnor
      by (symmetry; apply Nat.eqb_neq; simpl; lia).
    inversion Hnor. left. reflexivity.
  - left. exact Ht0.
Qed.

Lemma foldM_accumulate_length (vs : list Point3f) (fs : list Face) :
  forall acc acc',
    foldM (accumulate_face vs) fs acc = Ok acc' -> length acc' = length acc.
Proof.
  induction fs as [| f fs IH]; intros acc acc' H; simpl in H.
  - inversion H. reflexivity.
  - apply bind_Ok in H as (acc1 & H1 & H2).
    apply accumulate_face_Ok in H1 as (_ & _ & _ & _ & _ & _ & Hl & _).
    rewrite (IH _ _ H2). exact Hl.
Qed.

Lemma computeNormalsFromFaces_consistent (m m' : Mesh) :
  attrs_consistent m -> computeNormalsFromFaces m = Ok m' ->
  attrs_consistent m'.
Proof.
  intros (Hc & _ & Ht) H. unfold computeNormalsFromFaces in H.
  apply bind_Ok in H as (acc & Hacc & H). inversion H. subst m'.
  unfold attrs_consistent. simpl. repeat split; try assumption.
  right. rewrite length_map, (foldM_accumulate_length _ _ _ _ Hacc).
  apply length_replicate.
Qed.

Lemma dedup_run_length (fuel : nat) :
  forall ord i j vs alias j' vs' alias',
    dedup_run fuel ord i j vs alias = Ok (j', vs', alias') ->
    length vs' = length vs.
Proof.
  induction fuel as [| fuel IH]; intros ord i j vs alias j' vs' alias' H;
    [discriminate |].
  cbn [dedup_run] in H.
  destruct (to_size_t j <? vsize ord); [| inversion H; reflexivity].
  apply bind_Ok in H as (oi & _ & H). apply bind_Ok in H as (vi & _ & H).
  apply bind_Ok in H as (oj & _ & H). apply bind_Ok in H as (vj & _ & H).
  destruct (P3.eqb vi vj); [| inversion H; reflexivity].
  apply bind_Ok in H as (vs1 & Hset & H).
  apply vset_Ok in Hset as [_ ->].
  rewrite (IH _ _ _ _ _ _ _ _ H). apply length_insert.
Qed.

Lemma dedup_scan_length (fuel : nat) :
  forall run ord i vs alias vs' alias',
    dedup_scan fuel run ord i vs alias = Ok (vs', alias') ->
    length vs' = length vs.
Proof.
  induction fuel as [| fuel IH]; intros run ord i vs alias vs' alias' H;
    [discriminate |].
  cbn [dedup_scan] in H.
  destruct (to_size_t i <? to_size_t (vsize ord - 1));
    [| inversion H; reflexivity].
  apply bind_Ok in H as ([[j vs1] alias1] & Hr & H).
  rewrite (IH _ _ _ _ _ _ _ H). apply (dedup_run_length _ _ _ _ _ _ _ _ _ Hr).
Qed.

Lemma removeDuplicatedVertices_consistent (ord : list Z) (fuel : nat)
    (m m' : Mesh) :
  attrs_consistent m -> removeDuplicatedVertices ord fuel m = Ok m' ->
  attrs_consistent m'.
Proof.
  intros (Hc & Hn & Ht) H. unfold removeDuplicatedVertices in H.
  apply bind_Ok in H as ([m1 alias] & Hr & H). inversion H. subst m1.
  unfold removeDuplicatedVertices_alias in Hr.
  apply bind_Ok in Hr as ([vs alias1] & Hs & Hr). inversion Hr. subst.
  apply dedup_scan_length in Hs.
  unfold attrs_consistent, attr_ok in *. simpl. rewrite Hs. auto.
Qed.

Lemma copy_entry_length {A : Type} (present : bool) (src : list A)
    (entries : list (nat * Z)) :
  forall dst dst',
    foldM (copy_entry present src) entries dst = Ok dst' ->
    length dst' = length dst.
Proof.
  induction entries as [| [i ni] entries IH]; intros dst dst' H; simpl in H.
  - inversion H. reflexivity.
  - destruct (ni <? 0); simpl in H; [apply IH, H |].
    apply bind_Ok in H as (dst1 & H1 & H2). rewrite (IH _ _ H2).
    unfold copy_attr in H1. destruct present; [| inversion H1; reflexivity].
    apply bind_Ok in H1 as (a & _ & Hset).
    apply vset_Ok in Hset as [_ ->]. apply length_insert.
Qed.

Lemma removeIsolatedVertices_consistent (m m' : Mesh) :
  removeIsolatedVertices m = Ok m' -> attrs_consistent m'.
Proof.
  unfold removeIsolatedVertices.
  destruct (number_vertices (vertices m) 0) as [new_indices cur_index].
  intros H. apply bind_Ok in H as (na & Hna & H).
  apply bind_Ok in H as (fs & _ & H). inversion H. subst m'. clear H.
  apply foldM_copy_vertex_Ok in Hna as (Hv & Hc & Hn & Ht). simpl in *.
  apply copy_entry_length in Hv, Hc, Hn, Ht.
  rewrite length_replicate in Hv.
  unfold attrs_consistent, attr_ok. simpl. rewrite Hv.
  repeat split.
  - destruct (hasColors m); [rewrite length_replicate in Hc; auto |].
    left. destruct (new_colors na); [reflexivity | discriminate].
  - destruct (hasNormals m); [rewrite length_replicate in Hn; auto |].
    left. destruct (new_normals na); [reflexivity | discriminate].
  - destruct (hasTexcoords m); [rewrite length_replicate in Ht; auto |].
    left. destruct (new_texcoords na); [reflexivity | discriminate].
Qed.

Lemma loadFromPlyFile_consistent (m m' : Mesh) (input : PlyInput) :
  loadFromPlyFile m input = Ok m' -> attrs_consistent m'.
Proof.
  unfold loadFromPlyFile. destruct input as [| | elems]; try discriminate.
  intros H. apply bind_Ok in H as (fs & _ & H). inversion H. subst m'.
  unfold attrs_consistent, attr_ok. simpl. repeat split.
  - destruct (has_colors _); [right; rewrite !length_map; reflexivity | auto].
  - destruct (has_normals _); [right; rewrite !length_map; reflexivity | auto].
  - auto.
Qed.

(** When [addMesh] returns, the receiver is the mesh returned. *)
Lemma addMesh_receiver_Ok (m rhs m' : Mesh) :
  addMesh m rhs = Ok m' -> addMesh_receiver m rhs = m'.
Proof.
  unfold addMesh, addMesh_receiver.
  destruct (vsize (vertices m) <? 1); [intros H; inversion H; reflexivity |].
  destruct (hasColors m); [destruct (hasColors rhs) |];
    cbn [andb negb mbind result_bind Res.bind]; try discriminate;
    match goal with
    | |- context [hasNormals ?x] => destruct (hasNormals x)
    end;
    try (destruct (hasNormals rhs));
    cbn [andb negb mbind result_bind Res.bind]; try discriminate;
    intros H; inversion H; reflexivity.
Qed.

(** When [addMesh] raises its error between two meshes that satisfy the
    invariant, the receiver has the operand's vertices and its own
    colors, fewer than its vertices. *)
Lemma addMesh_receiver_Fatal (m rhs : Mesh) (msg : string) :
  attrs_consistent m -> attrs_consistent rhs ->
  addMesh m rhs = Fatal msg ->
  vertices (addMesh_receiver m rhs) = vertices m ++ vertices rhs
  /\ colors (addMesh_receiver m rhs) = colors m
  /\ ~ attrs_consistent (addMesh_receiver m rhs).
Proof.
  intros (Hcm & Hnm & _) (Hcr & Hnr & _).
  unfold addMesh, addMesh_receiver.
  destruct (vsize (vertices m) <? 1) eqn:E; [discriminate |].
  apply Z.ltb_ge in E. unfold vsize in E.
  assert (Hnormals : forall cs,
            hasNormals (mkMesh (vertices m ++ vertices rhs) cs (normals m)
                               (texcoords m) (faces m) (face_texcoords m)
                               (texture m))
            && negb (hasNormals rhs) = false).
  { intros cs. unfold hasNormals. cbn [vertices normals].
    rewrite length_app.
    destruct (length (normals m) =? length (vertices m) + length (vertices rhs))%nat
      eqn:En; [| reflexivity].
    apply Nat.eqb_eq in En. cbn [andb]. apply negb_false_iff, Nat.eqb_eq.
    assert (Hk : length (vertices rhs) = 0%nat)
      by (destruct Hnm as [Hn | Hn]; [rewrite Hn in En; simpl in En; lia | lia]).
    destruct Hnr as [-> | Hn]; [simpl; lia | lia]. }
  destruct (hasColors m) eqn:Ec; [destruct (hasColors rhs) eqn:Er |];
    cbn [andb negb mbind result_bind Res.bind].
  - pose proof (Hnormals (colors m ++ colors rhs)) as Hn.
    destruct (hasNormals
                (mkMesh (vertices m ++ vertices rhs) (colors m ++ colors rhs)
                        (normals m) (texcoords m) (faces m)
                        (face_texcoords m) (texture m)));
      [| cbn [mbind result_bind Res.bind]; discriminate].
    cbn [andb] in Hn. apply negb_false_iff in Hn. rewrite Hn.
    cbn [negb mbind result_bind Res.bind]. discriminate.
  - intros _. cbn [vertices colors].
    split; [reflexivity |]. split; [reflexivity |].
    unfold hasColors in Ec, Er. apply Nat.eqb_eq in Ec. apply Nat.eqb_neq in Er.
    intros ([Hnil | Hlen] & _); cbn [vertices colors] in *.
    + rewrite Hnil in Ec. simpl in Ec. lia.
    + rewrite length_app in Hlen.
      destruct Hcr as [Hr | Hr]; [| contradiction].
      rewrite Hr in Er. simpl in Er. lia.
  - pose proof (Hnormals (colors m)) as Hn.
    destruct (hasNormals
                (mkMesh (vertices m ++ vertices rhs) (colors m)
                        (normals m) (texcoords m) (faces m)
                        (face_texcoords m) (texture m)));
      [| cbn [mbind result_bind Res.bind]; discriminate].
    cbn [andb] in Hn. apply negb_false_iff in Hn. rewrite Hn.
    cbn [negb mbind result_bind Res.bind]. discriminate.
Qed.

(** C6, as the code has it. The clean-up passes, the normal estimator and
    the loader return a mesh that satisfies the invariant (each optional
    per-vertex array is empty or as long as the vertex array). The
    builders and the merge keep it only on the receivers they are written
    for: [addCube] on a receiver without normals and texture
    coordinates; [addPointFromSurfel] and [addSurfel] on a receiver
    without texture coordinates whose color and normal arrays are as long
    as its vertex array; [generate_mesh_from_plane] on a receiver without
    optional arrays; [addMesh], when it returns, on a receiver without
    vertices, or without normals and texture coordinates, when the
    operand satisfies the invariant. When [addMesh] raises its error
    between two meshes that satisfy the invariant, the receiver has
    already been given the operand's vertices and not its colors: it is
    left with fewer colors than vertices and no longer satisfies the
    invariant. *)
Theorem operations_keep_attrs_consistent :
  (forall m m', attrs_consistent m -> computeNormalsFromFaces m = Ok m' ->
     attrs_consistent m')
  /\ (forall ord fuel m m', attrs_consistent m ->
        removeDuplicatedVertices ord fuel m = Ok m' -> attrs_consistent m')
  /\ (forall m m', attrs_consistent m -> removeIsolatedVertices m = Ok m' ->
        attrs_consistent m')
  /\ (forall m input m', loadFromPlyFile m input = Ok m' -> attrs_consistent m')
  /\ (forall m center sizes c, attrs_consistent m ->
        normals m = [] -> texcoords m = [] ->
        attrs_consistent (addCube m center sizes c))
  /\ (forall m s,
        length (colors m) = length (vertices m) ->
        length (normals m) = length (vertices m) ->
        texcoords m = [] ->
        attrs_consistent (addPointFromSurfel m s))
  /\ (forall cv_norm orthogonal_basis m s m',
        length (colors m) = length (vertices m) ->
        length (normals m) = length (vertices m) ->
        texcoords m = [] ->
        addSurfel cv_norm orthogonal_basis m s = Ok m' ->
        attrs_consistent m')
  /\ (forall (Plane : Type) inter m (plane : Plane) center plane_size,
        colors m = [] -> normals m = [] -> texcoords m = [] ->
        attrs_consistent
          (generate_mesh_from_plane Plane inter m plane center plane_size))
  /\ (forall m rhs m', attrs_consistent m -> attrs_consistent rhs ->
        vertices m = [] \/ (normals m = [] /\ texcoords m = []) ->
        addMesh m rhs = Ok m' ->
        addMesh_receiver m rhs = m' /\ attrs_consistent m')
  /\ (forall m rhs msg, attrs_consistent m -> attrs_consistent rhs ->
        addMesh m rhs = Fatal msg ->
        vertices (addMesh_receiver m rhs) = vertices m ++ vertices rhs
        /\ colors (addMesh_receiver m rhs) = colors m
        /\ ~ attrs_consistent (addMesh_receiver m rhs)).
Proof.
  split; [exact computeNormalsFromFaces_consistent |].
  split; [exact removeDuplicatedVertices_consistent |].
  split; [intros m m' _; apply removeIsolatedVertices_consistent |].
  split; [intros m input m'; apply loadFromPlyFile_consistent |].
  split; [exact addCube_consistent |].
  split; [exact addPointFromSurfel_consistent |].
  split; [intros cv ob m s m'; apply addSurfel_consistent |].
  split; [| split; [| exact addMesh_receiver_Fatal]].
  - intros Plane inter m plane center plane_size Hc Hn Ht.
    unfold attrs_consistent, attr_ok. simpl. auto.
  - intros m rhs m' Hm Hr Hcase H.
    split; [apply addMesh_receiver_Ok; exact H |].
    apply (addMesh_consistent m rhs m' Hm Hr Hcase H).
Qed.

(** A cube added to the empty mesh. *)
Lemma operations_keep_attrs_consistent_witness :
  attrs_consistent (addCube empty_mesh (pt 0 0 0) (pt 2 2 2) (mkVec3b 255 0 0)).
Proof.
  destruct operations_keep_attrs_consistent as (_ & _ & _ & _ & H & _).
  apply H.
  - unfold attrs_consistent, attr_ok. simpl. auto.
  - reflexivity.
  - reflexivity.
Defined.

(** C6 as stated fails: [lonely_vertex] satisfies the invariant, and
    [addPointFromSurfel] leaves it with two vertices, one color and one
    normal. It fails on a refused merge too: [red_point] and
    [bare_point] satisfy the invariant, [addMesh] raises its error, and
    the receiver is left with two vertices and one color. *)
Lemma addPointFromSurfel_breaks_attrs :
  attrs_consistent lonely_vertex
  /\ ~ attrs_consistent (addPointFromSurfel lonely_vertex sample_surfel)
  /\ attrs_consistent red_point /\ attrs_consistent bare_point
  /\ normals red_point = [] /\ texcoords red_point = []
  /\ addMesh red_point bare_point
     = Fatal "Cannot merge different kind of meshes."
  /\ addMesh_receiver red_point bare_point
     = mkMesh [pt 0 0 0; pt 2 0 0] [mkVec3b 255 0 0] [] [] [] [] None
  /\ ~ attrs_consistent (addMesh_receiver red_point bare_point).
Proof.
  split; [| split; [| split; [| split]]].
  - unfold attrs_consistent, attr_ok. simpl. auto.
  - unfold attrs_consistent, attr_ok. simpl.
    intros ([H | H] & _); discriminate.
  - unfold attrs_consistent, attr_ok. simpl. auto.
  - unfold attrs_consistent, attr_ok. simpl. auto.
  - repeat (split; [reflexivity |]).
    unfold attrs_consistent, attr_ok. simpl.
    intros ([H | H] & _); discriminate.
Qed.

(** ** Deduplication followed by compaction, twice *)

(** Two positions of a filtered list come from two positions of the list,
    in the same order. *)
Lemma filter_lookup_ordered {A : Type} (P : A -> Prop)
    `{forall x, Decision (P x)} (l : list A) :
  forall (i j : nat) (x y : A),
    (i < j)%nat -> filter P l !! i = Some x -> filter P l !! j = Some y ->
    exists a b, (a < b)%nat /\ l !! a = Some x /\ l !! b = Some y.
Proof.
  induction l as [| z l IH]; intros i j x y Hij Hx Hy; [discriminate |].
  rewrite filter_cons in Hx, Hy. destruct (decide (P z)) as [Hz | Hz].
  - destruct i as [| i].
    + simpl in Hx. inversion Hx. subst z.
      destruct j as [| j]; [lia |]. simpl in Hy.
      apply list_elem_of_lookup_2 in Hy. apply list_elem_of_filter in Hy as [_ Hy].
      apply list_elem_of_lookup_1 in Hy as (b & Hb).
      exists 0%nat, (S b). split; [lia |]. split; [reflexivity | exact Hb].
    + destruct j as [| j]; [lia |]. simpl in Hx, Hy.
      destruct (IH i j x y ltac:(lia) Hx Hy) as (a & b & Hab & Ha & Hb).
      exists (S a), (S b). split; [lia |]. split; assumption.
  - destruct (IH i j x y Hij Hx Hy) as (a & b & Hab & Ha & Hb).
    exists (S a), (S b). split; [lia |]. split; assumption.
Qed.

Lemma kept_nan_free (p : Point3f) : kept p = P3.nan_free p.
Proof. unfold kept, isnan. apply negb_involutive. Qed.

Lemma filter_all_kept (vs : list Point3f) :
  Forall (fun p => kept p = true) vs ->
  filter (fun q => kept q = true) vs = vs.
Proof.
  induction 1 as [| p vs Hp _ IH]; [reflexivity |].
  rewrite filter_cons. destruct (decide (kept p = true)); [| contradiction].
  f_equal. exact IH.
Qed.

Lemma compact_by_all_kept {A : Type} (vs : list Point3f) (attr : list A) :
  Forall (fun p => kept p = true) vs -> length attr = length vs ->
  compact_by vs attr = attr.
Proof.
  intros H. revert attr. induction H as [| p vs Hp _ IH]; intros [| a attr] Hl;
    simpl in Hl; try discriminate; [reflexivity |].
  simpl. rewrite Hp. f_equal. apply IH. lia.
Qed.

Lemma count_kept_all (vs : list Point3f) :
  Forall (fun p => kept p = true) vs -> count_kept vs = length vs.
Proof.
  intros H. unfold count_kept. rewrite filter_all_kept by exact H.
  reflexivity.
Qed.

Lemma count_kept_app (vs ws : list Point3f) :
  count_kept (vs ++ ws) = (count_kept vs + count_kept ws)%nat.
Proof. unfold count_kept. rewrite filter_app, length_app. reflexivity. Qed.

(** The new index of a kept vertex is that of a vertex of the output. *)
Lemma new_index_kept (vs : list Point3f) (i : Z) (p : Point3f) :
  vget vs i = Ok p -> kept p = true ->
  0 <= new_index vs i < Z.of_nat (count_kept vs).
Proof.
  intros Hp Hk. unfold new_index. rewrite Hp.
  unfold kept in Hk. apply negb_true_iff in Hk. rewrite Hk.
  apply vget_Ok in Hp as [Hi Hl].
  assert (Hc : count_kept vs =
               (count_kept (take (Z.to_nat i) vs)
                + (1 + count_kept (drop (S (Z.to_nat i)) vs)))%nat).
  { rewrite <- (take_drop_middle vs (Z.to_nat i) p Hl) at 1.
    rewrite count_kept_app, count_kept_cons, Hk. reflexivity. }
  lia.
Qed.

Lemma new_index_all_kept (vs : list Point3f) (i : Z) :
  Forall (fun p => kept p = true) vs -> 0 <= i < vsize vs ->
  new_index vs i = i.
Proof.
  intros Hall Hi. unfold new_index, vsize in *.
  destruct (vs !! Z.to_nat i) as [p |] eqn:E.
  2:{ apply lookup_ge_None in E. lia. }
  assert (Hg : vget vs i = Ok p) by (apply vget_Ok; split; [lia | exact E]).
  rewrite Hg.
  assert (Hk : kept p = true).
  { rewrite Forall_forall in Hall. apply Hall.
    apply list_elem_of_lookup_2 in E. exact E. }
  unfold kept in Hk. apply negb_true_iff in Hk. rewrite Hk.
  rewrite count_kept_all by (apply Forall_take; exact Hall).
  rewrite length_take. lia.
Qed.

(** The compaction of a mesh without NaN vertex, with consistent arrays
    and face indices in range, is the mesh itself. *)
Lemma compacted_identity (m : Mesh) :
  Forall (fun p => kept p = true) (vertices m) ->
  attrs_consistent m -> faces_in_range m ->
  compacted m = m.
Proof.
  intros Hall (Hc & Hn & Ht) Hfaces. unfold compacted.
  rewrite filter_all_kept by exact Hall.
  assert (Hattr : forall (A : Type) (attr : list A),
            attr_ok attr (vertices m) ->
            (if (length attr =? length (vertices m))%nat
             then compact_by (vertices m) attr else []) = attr).
  { intros A attr Hok.
    destruct (length attr =? length (vertices m))%nat eqn:E.
    - apply Nat.eqb_eq in E. apply compact_by_all_kept; assumption.
    - apply Nat.eqb_neq in E. destruct Hok as [-> | Hl]; [reflexivity | lia]. }
  unfold hasColors, hasNormals, hasTexcoords.
  rewrite (Hattr _ _ Hc), (Hattr _ _ Hn), (Hattr _ _ Ht).
  assert (Hfs : map (map_indices (new_index (vertices m))) (faces m) = faces m).
  { unfold faces_in_range in Hfaces. revert Hfaces.
    generalize (faces m). intros fs Hfs.
    induction fs as [| f fs IH]; [reflexivity |].
    simpl. rewrite IH.
    - f_equal. destruct f as [a b c]. unfold map_indices. simpl.
      rewrite !new_index_all_kept; try exact Hall; try reflexivity;
        apply (Hfs (mkFace a b c)); try (apply elem_of_cons; left; reflexivity);
        unfold indices; simpl; rewrite !elem_of_cons; auto.
    - intros g i Hg Hi. apply (Hfs g i); [apply elem_of_cons; auto | exact Hi]. }
  rewrite Hfs. destruct m. reflexivity.
Qed.

(** On pairwise different vertices every position heads its own run. *)
Lemma head_of_distinct (vs0 : list Point3f) (ord : list Z) :
  Permutation ord (iota (length vs0)) ->
  pairwise_distinct vs0 ->
  forall a, (a < length vs0)%nat -> head_of vs0 ord a = a.
Proof.
  intros Hperm Hdist a. induction a as [| a IH]; intros Ha; [reflexivity |].
  simpl.
  assert (Hh : (head_of vs0 ord a <= a)%nat) by apply head_le.
  rewrite (Hdist (Z.to_nat (at_pos ord (head_of vs0 ord a)))
                 (Z.to_nat (at_pos ord (S a)))
                 (vertex_at vs0 ord (head_of vs0 ord a))
                 (vertex_at vs0 ord (S a))).
  - reflexivity.
  - pose proof (ord_range vs0 ord Hperm (head_of vs0 ord a) ltac:(lia)).
    pose proof (ord_range vs0 ord Hperm (S a) Ha).
    intros E.
    assert (E' : at_pos ord (head_of vs0 ord a) = at_pos ord (S a)) by lia.
    apply (ord_inj vs0 ord Hperm) in E'; lia.
  - apply (vs0_lookup vs0 ord Hperm). lia.
  - apply (vs0_lookup vs0 ord Hperm). exact Ha.
Qed.

(** The deduplication of pairwise different vertices finds no duplicate,
    whatever order the indices come in. *)
Lemma removeDuplicatedVertices_alias_distinct (m : Mesh) (ord : list Z)
    (fuel : nat) :
  vsize (vertices m) < 2 ^ 31 ->
  Permutation ord (iota (length (vertices m))) ->
  pairwise_distinct (vertices m) ->
  (enough_fuel (length (vertices m)) <= fuel)%nat ->
  removeDuplicatedVertices_alias ord fuel m = Ok (m, ∅).
Proof.
  intros Hsize Hperm Hdist Hfuel.
  destruct (removeDuplicatedVertices_alias_total m ord Hsize Hperm)
    as (vs' & alias & Hsc & _ & Hrun).
  rewrite (Hrun fuel Hfuel).
  assert (Halias : alias = ∅).
  { apply map_eq. intros x. rewrite lookup_empty.
    destruct (alias !! x) as [c |] eqn:E; [| reflexivity].
    destruct (alias_Some _ ord Hperm vs' alias Hsc x c E)
      as (a & Ha & _ & Hne & _).
    exfalso. apply Hne. apply head_of_distinct; assumption. }
  assert (Hvs : vs' = vertices m).
  { apply list_eq. intros i.
    destruct (decide (i < length (vertices m))%nat) as [Hi | Hi].
    - assert (Hr : 0 <= Z.of_nat i < vsize (vertices m))
        by (unfold vsize; lia).
      assert (Hn : alias !! Z.of_nat i = None)
        by (rewrite Halias; apply lookup_empty).
      destruct (alias_None _ ord Hperm vs' alias Hsc _ Hr Hn)
        as (a & _ & _ & _ & Hv).
      rewrite Nat2Z.id in Hv. exact Hv.
    - destruct Hsc as (Hlen & _).
      rewrite !(proj2 (lookup_ge_None _ _)) by lia. reflexivity. }
  rewrite Halias, Hvs, deduplicated_empty_alias. reflexivity.
Qed.

Lemma vget_exists {A : Type} (v : list A) (i : Z) :
  0 <= i < vsize v -> exists a, vget v i = Ok a.
Proof.
  intros Hi. unfold vsize in Hi.
  destruct (v !! Z.to_nat i) as [a |] eqn:E.
  - exists a. apply vget_Ok. split; [lia | exact E].
  - apply lookup_ge_None in E. lia.
Qed.

(** C4, for vertices without NaN and face indices in range. After one
    deduplication and compaction of such a mesh, a second deduplication -
    in whatever order the indices are scanned - aliases no vertex and
    returns the mesh as it is, a second compaction drops no vertex and
    returns the mesh as it is, and so the pair run a second time yields
    exactly the mesh of the first run. *)
Theorem cleanup_idempotent (m : Mesh) (ord1 : list Z) :
  vsize (vertices m) < 2 ^ 31 ->
  Forall (fun p => P3.nan_free p = true) (vertices m) ->
  faces_in_range m ->
  sorted_indices m ord1 ->
  exists m1,
    (forall fuel, (enough_fuel (length (vertices m)) <= fuel)%nat ->
       cleanup ord1 fuel m = Ok m1)
    /\ forall ord2 fuel,
         Permutation ord2 (iota (length (vertices m1))) ->
         (enough_fuel (length (vertices m1)) <= fuel)%nat ->
         removeDuplicatedVertices_alias ord2 fuel m1 = Ok (m1, ∅)
         /\ removeIsolatedVertices m1 = Ok m1
         /\ count_kept (vertices m1) = length (vertices m1)
         /\ cleanup ord2 fuel m1 = Ok m1.
Proof.
  intros Hsize Hnan Hfaces Hsorted.
  destruct (removeDuplicatedVertices_alias_spec m ord1 Hsize Hnan Hsorted)
    as (m' & alias & Hrun & Hlen & Hfs & Hal & Hkeep & Hdist & Hface & _ & _).
  assert (Hsize' : vsize (vertices m') < 2 ^ 31)
    by (unfold vsize in *; rewrite Hlen; exact Hsize).
  assert (Hrange : forall i, index_in_range m' i <-> index_in_range m i)
    by (intros i; unfold index_in_range, vsize; rewrite Hlen; reflexivity).
  assert (Hfaces' : faces_in_range m').
  { intros f i Hf Hi. rewrite Hfs in Hf.
    apply list_elem_of_fmap in Hf as (f0 & -> & Hf0).
    apply indices_map_indices in Hi as (i0 & Hi0 & ->).
    apply Hrange. unfold resolve_alias.
    destruct (alias !! i0) as [c |] eqn:E.
    - apply (Hal i0 c E).
    - apply (Hfaces f0 i0 Hf0 Hi0). }
  pose proof (removeIsolatedVertices_compacted m' Hsize' Hfaces') as Hcomp.
  exists (compacted m'). split.
  { intros fuel Hfuel. unfold cleanup.
    rewrite (proj2 (Hrun fuel Hfuel)). exact Hcomp. }
  set (m1 := compacted m') in *.
  assert (Hv1 : vertices m1 = filter (fun q => kept q = true) (vertices m'))
    by reflexivity.
  assert (Hkept1 : Forall (fun p => kept p = true) (vertices m1)).
  { rewrite Hv1. apply Forall_forall. intros p Hp.
    apply list_elem_of_filter in Hp as [Hp _]. exact Hp. }
  assert (Horigin : forall (a : nat) p,
            vertices m' !! a = Some p -> kept p = true ->
            alias !! Z.of_nat a = None /\ vget (vertices m) (Z.of_nat a) = Ok p).
  { intros a p Ha Hk.
    assert (Hg : vget (vertices m') (Z.of_nat a) = Ok p)
      by (rewrite vget_of_nat, Ha; reflexivity).
    destruct (alias !! Z.of_nat a) as [c |] eqn:E.
    - destruct (Hal _ _ E) as (_ & _ & _ & _ & Hinf & _).
      rewrite Hg in Hinf. inversion Hinf. subst p. discriminate.
    - split; [reflexivity |]. rewrite <- Hkeep; [exact Hg | | exact E].
      apply Hrange. apply (vget_in_range _ _ _ Hg). }
  assert (Hlt : forall (i j : nat) p q, (i < j)%nat ->
            vertices m1 !! i = Some p -> vertices m1 !! j = Some q ->
            P3.eqb p q = false).
  { intros i j p q Hij Hp Hq. rewrite Hv1 in Hp, Hq.
    destruct (filter_lookup_ordered _ _ i j p q Hij Hp Hq)
      as (a & b & Hab & Ha & Hb).
    apply list_elem_of_lookup_2 in Hp, Hq.
    apply list_elem_of_filter in Hp as [Hkp _].
    apply list_elem_of_filter in Hq as [Hkq _].
    destruct (Horigin a p Ha Hkp) as [Hna Hga].
    destruct (Horigin b q Hb Hkq) as [Hnb Hgb].
    apply (Hdist (Z.of_nat a) (Z.of_nat b)); try assumption. lia. }
  assert (Hdist1 : pairwise_distinct (vertices m1)).
  { intros i j p q Hij Hp Hq.
    destruct (Nat.lt_total i j) as [Hl | [He | Hg]]; [| contradiction |].
    - apply (Hlt i j p q Hl Hp Hq).
    - assert (Hkp : P3.nan_free p = true).
      { rewrite <- kept_nan_free. rewrite Forall_forall in Hkept1.
        apply Hkept1. apply list_elem_of_lookup_2 in Hp. exact Hp. }
      assert (Hkq : P3.nan_free q = true).
      { rewrite <- kept_nan_free. rewrite Forall_forall in Hkept1.
        apply Hkept1. apply list_elem_of_lookup_2 in Hq. exact Hq. }
      rewrite (P3_eqb_sym p q Hkp Hkq). apply (Hlt j i q p Hg Hq Hp). }
  assert (Hcons1 : attrs_consistent m1)
    by (apply (removeIsolatedVertices_consistent m' m1 Hcomp)).
  assert (Hfaces1 : faces_in_range m1).
  { intros f i Hf Hi. unfold m1, compacted in Hf. simpl in Hf.
    apply list_elem_of_fmap in Hf as (f0 & -> & Hf0).
    apply indices_map_indices in Hi as (i0 & Hi0 & ->).
    destruct (Hface f0 i0 Hf0 Hi0) as [Hnone Hsame].
    pose proof (Hfaces' f0 i0 Hf0 Hi0) as Hr0.
    destruct (Hsame (proj1 (Hrange i0) Hr0)) as [Heq _].
    destruct (vget_exists (vertices m) i0 (proj1 (Hrange i0) Hr0)) as (p & Hp).
    assert (Hkp : kept p = true).
    { rewrite kept_nan_free. rewrite Forall_forall in Hnan. apply Hnan.
      apply vget_Ok in Hp as [_ Hp]. apply list_elem_of_lookup_2 in Hp.
      exact Hp. }
    rewrite Hp in Heq.
    pose proof (new_index_kept (vertices m') i0 p Heq Hkp) as Hni.
    unfold index_in_range, vsize. rewrite Hv1. exact Hni. }
  assert (Hsize1 : vsize (vertices m1) < 2 ^ 31).
  { unfold vsize in *. rewrite Hv1.
    pose proof (count_kept_le (vertices m')) as Hle. unfold count_kept in Hle.
    lia. }
  intros ord2 fuel Hperm2 Hfuel.
  pose proof (removeDuplicatedVertices_alias_distinct m1 ord2 fuel Hsize1
                Hperm2 Hdist1 Hfuel) as Hd2.
  pose proof (removeIsolatedVertices_compacted m1 Hsize1 Hfaces1) as Hc2.
  rewrite (compacted_identity m1 Hkept1 Hcons1 Hfaces1) in Hc2.
  split; [exact Hd2 |]. split; [exact Hc2 |].
  split; [apply count_kept_all, Hkept1 |].
  unfold cleanup, removeDuplicatedVertices. rewrite Hd2. exact Hc2.
Qed.

(** [doubled] cleaned twice. *)
Lemma cleanup_idempotent_witness :
  exists m1, cleanup doubled_order 4 doubled = Ok m1
             /\ cleanup [0; 1] 3 m1 = Ok m1.
Proof.
  destruct (cleanup_idempotent doubled doubled_order) as (m1 & H1 & H2).
  - vm_compute. reflexivity.
  - repeat constructor.
  - intros f i Hf Hi. simpl in Hf. apply list_elem_of_singleton in Hf.
    subst f. unfold indices in Hi. simpl in Hi.
    rewrite !elem_of_cons, elem_of_nil in Hi.
    unfold index_in_range. vm_compute.
    destruct Hi as [-> | [-> | [-> | []]]]; split; congruence.
  - split; [apply perm_swap | vm_compute; reflexivity].
  - assert (Hfirst : cleanup doubled_order 4 doubled = Ok m1)
      by (apply H1; simpl; lia).
    assert (Hm1 : m1 = bare_mesh [pt 1 2 3; pt 0 0 0] [mkFace 0 1 0]).
    { vm_compute in Hfirst. inversion Hfirst. reflexivity. }
    exists m1. split; [exact Hfirst |].
    apply (H2 [0; 1] 3%nat).
    + rewrite Hm1. apply Permutation_refl.
    + rewrite Hm1. simpl. lia.
Defined.

(** C4 as stated fails on the point cloud [nan_cloud]: the first run
    removes the NaN point that separated the two coincident points; the
    second run, for either order of the two remaining points, merges them
    and returns a mesh with one vertex less. *)
Lemma cleanup_twice_differs :
  strict_weak_on (VertexComparator (vertices nan_cloud)) nan_cloud_order = true
  /\ sorted_indices nan_cloud nan_cloud_order
  /\ cleanup nan_cloud_order 4 nan_cloud = Ok nan_cloud_cleaned
  /\ sorted_indices nan_cloud_cleaned [0; 1]
  /\ sorted_indices nan_cloud_cleaned [1; 0]
  /\ (forall ord2, ord2 = [0; 1] \/ ord2 = [1; 0] ->
        exists m2, cleanup ord2 3 nan_cloud_cleaned = Ok m2
                   /\ length (vertices m2) = 1%nat
                   /\ m2 <> nan_cloud_cleaned).
Proof.
  split; [vm_compute; reflexivity |].
  split; [split; [apply Permutation_refl | vm_compute; reflexivity] |].
  split; [vm_compute; reflexivity |].
  split; [split; [apply Permutation_refl | vm_compute; reflexivity] |].
  split; [split; [apply perm_swap | vm_compute; reflexivity] |].
  intros ord2 [-> | ->]; eexists; (split; [vm_compute; reflexivity |]);
    (split; [reflexivity |]); intros H; inversion H.
Qed.

(** * Further properties *)

(** ** Compaction: attributes, dangling and stray indices *)

Lemma compact_by_lookup {A : Type} (vs : list Point3f) :
  forall (attr : list A) (i : nat) (p : Point3f),
    length attr = length vs -> vs !! i = Some p -> kept p = true ->
    compact_by vs attr !! count_kept (take i vs) = attr !! i.
Proof.
  induction vs as [| q vs IH]; intros attr i p Hlen Hi Hp; [discriminate |].
  destruct attr as [| a attr]; [discriminate |]. simpl in Hlen.
  destruct i as [| i]; simpl in Hi.
  - inversion Hi. subst q. cbn [take compact_by]. rewrite Hp. reflexivity.
  - cbn [take]. rewrite count_kept_cons. cbn [compact_by]. unfold kept at 1.
    destruct (isnan q); cbn [negb Nat.add].
    + apply (IH attr i p); [lia | exact Hi | exact Hp].
    + apply (IH attr i p); [lia | exact Hi | exact Hp].
Qed.

Lemma vget_compact_by {A : Type} (vs : list Point3f) (attr : list A)
    (i : Z) (p : Point3f) :
  length attr = length vs -> vget vs i = Ok p -> isnan p = false ->
  vget (compact_by vs attr) (new_index vs i) = vget attr i.
Proof.
  intros Hlen Hi Hp. unfold new_index. rewrite Hi, Hp.
  apply vget_Ok in Hi as [H0 Hi].
  rewrite vget_of_nat.
  rewrite (compact_by_lookup vs attr (Z.to_nat i) p Hlen Hi)
    by (unfold kept; rewrite Hp; reflexivity).
  rewrite <- vget_of_nat. rewrite Z2Nat.id by lia. reflexivity.
Qed.

(** X1. The compaction keeps every attribute attached to its vertex: a
    vertex whose position is not NaN is found at its new index with its
    position and, for each per-vertex array the mesh has, with the value
    it had. *)
Theorem removeIsolatedVertices_attributes_follow (m : Mesh) (i : Z)
    (p : Point3f) :
  vsize (vertices m) < 2 ^ 31 -> faces_in_range m ->
  vget (vertices m) i = Ok p -> isnan p = false ->
  exists m',
    removeIsolatedVertices m = Ok m'
    /\ vget (vertices m') (new_index (vertices m) i) = Ok p
    /\ (hasColors m = true ->
        vget (colors m') (new_index (vertices m) i) = vget (colors m) i)
    /\ (hasNormals m = true ->
        vget (normals m') (new_index (vertices m) i) = vget (normals m) i)
    /\ (hasTexcoords m = true ->
        vget (texcoords m') (new_index (vertices m) i) = vget (texcoords m) i).
Proof.
  intros Hn Hfaces Hi Hp. exists (compacted m).
  split; [apply removeIsolatedVertices_compacted; assumption |].
  unfold compacted. cbn [vertices colors normals texcoords].
  split; [| split; [| split]].
  - rewrite <- compact_by_self.
    rewrite (vget_compact_by _ _ i p eq_refl Hi Hp). exact Hi.
  - intros H. rewrite H. unfold hasColors in H. apply Nat.eqb_eq in H.
    apply (vget_compact_by _ _ i p H Hi Hp).
  - intros H. rewrite H. unfold hasNormals in H. apply Nat.eqb_eq in H.
    apply (vget_compact_by _ _ i p H Hi Hp).
  - intros H. rewrite H. unfold hasTexcoords in H. apply Nat.eqb_eq in H.
    apply (vget_compact_by _ _ i p H Hi Hp).
Qed.

Lemma removeIsolatedVertices_attributes_follow_witness :
  exists m',
    removeIsolatedVertices painted = Ok m'
    /\ vget (vertices m') (new_index (vertices painted) 2) = Ok (pt 1 5 0)
    /\ (hasColors painted = true ->
        vget (colors m') (new_index (vertices painted) 2)
        = vget (colors painted) 2)
    /\ (hasNormals painted = true ->
        vget (normals m') (new_index (vertices painted) 2)
        = vget (normals painted) 2)
    /\ (hasTexcoords painted = true ->
        vget (texcoords m') (new_index (vertices painted) 2)
        = vget (texcoords painted) 2).
Proof.
  apply (removeIsolatedVertices_attributes_follow painted 2 (pt 1 5 0)).
  - vm_compute. reflexivity.
  - intros f j Hf Hj. apply list_elem_of_singleton in Hf. subst f.
    unfold indices in Hj. simpl in Hj.
    rewrite !elem_of_cons in Hj. rewrite elem_of_nil in Hj.
    unfold index_in_range, vsize. simpl. lia.
  - vm_compute. reflexivity.
  - vm_compute. reflexivity.
Defined.

(** The copy loop of the compaction does not look at the faces. *)
Lemma copy_stage_Ok (m : Mesh) :
  foldM (copy_vertex m)
        (zip (seq 0 (length (vertices m))) (numbering (vertices m) 0))
        (mkNewArrays
           (replicate (count_kept (vertices m)) P3.zero)
           (if hasColors m
            then replicate (count_kept (vertices m)) default_color else [])
           (if hasNormals m
            then replicate (count_kept (vertices m)) P3.zero else [])
           (if hasTexcoords m
            then replicate (count_kept (vertices m)) default_texcoord
            else []))
  = Ok (mkNewArrays
          (compact_by (vertices m) (vertices m))
          (if hasColors m then compact_by (vertices m) (colors m) else [])
          (if hasNormals m then compact_by (vertices m) (normals m) else [])
          (if hasTexcoords m then compact_by (vertices m) (texcoords m)
           else [])).
Proof.
  apply foldM_copy_vertex_Ok. simpl. repeat split.
  - apply (copy_loop_whole P3.zero true). reflexivity.
  - apply (copy_loop_whole default_color). unfold hasColors.
    intros H. apply Nat.eqb_eq in H. exact H.
  - apply (copy_loop_whole P3.zero). unfold hasNormals.
    intros H. apply Nat.eqb_eq in H. exact H.
  - apply (copy_loop_whole default_texcoord). unfold hasTexcoords.
    intros H. apply Nat.eqb_eq in H. exact H.
Qed.

Lemma vget_Ok_or_Undef {A : Type} (v : list A) (i : Z) :
  (exists a, vget v i = Ok a /\ 0 <= i < vsize v)
  \/ (vget v i = Undef /\ ~ 0 <= i < vsize v).
Proof.
  unfold vget, vsize. destruct (0 <=? i) eqn:H0.
  - apply Z.leb_le in H0. destruct (v !! Z.to_nat i) eqn:Hl.
    + left. exists a. split; [reflexivity |].
      apply lookup_lt_Some in Hl. lia.
    + right. split; [reflexivity |]. apply lookup_ge_None in Hl. lia.
  - apply Z.leb_gt in H0. right. split; [reflexivity | lia].
Qed.

Lemma numbering_length (vs : list Point3f) (c : Z) :
  length (numbering vs c) = length vs.
Proof.
  revert c. induction vs as [| p vs IH]; intros c; simpl; [reflexivity |].
  destruct (isnan p); simpl; rewrite IH; reflexivity.
Qed.

(** A face is rewritten, or the look-up of one of its indices is out of
    bounds. *)
Lemma renumber_face_cases (tbl : list Z) (f : Face) :
  (exists g, renumber_face tbl f = Ok g
             /\ forall i, i ∈ indices f -> 0 <= i < vsize tbl)
  \/ (renumber_face tbl f = Undef).
Proof.
  unfold renumber_face.
  destruct (vget_Ok_or_Undef tbl (idx0 f)) as [(a & -> & Ha) | [-> _]];
    [| right; reflexivity].
  destruct (vget_Ok_or_Undef tbl (idx1 f)) as [(b & -> & Hb) | [-> _]];
    [| right; reflexivity].
  destruct (vget_Ok_or_Undef tbl (idx2 f)) as [(c & -> & Hc) | [-> _]];
    [| right; reflexivity].
  left. exists (mkFace a b c). split; [reflexivity |].
  intros i Hi. unfold indices in Hi.
  rewrite !elem_of_cons in Hi. rewrite elem_of_nil in Hi.
  destruct Hi as [-> | [-> | [-> | []]]]; assumption.
Qed.

Lemma renumber_faces_Undef (tbl : list Z) (fs : list Face) (f : Face) (i : Z) :
  f ∈ fs -> i ∈ indices f -> ~ 0 <= i < vsize tbl ->
  mapM_res (renumber_face tbl) fs = Undef.
Proof.
  intros Hf Hi Hbad. induction fs as [| g fs IH]; [inversion Hf |].
  cbn [mapM_res].
  destruct (renumber_face_cases tbl g) as [(g' & -> & Hg) | ->];
    [| reflexivity].
  apply elem_of_cons in Hf as [-> | Hf].
  - exfalso. apply Hbad. apply Hg. exact Hi.
  - simpl. rewrite (IH Hf). reflexivity.
Qed.

Lemma removeIsolatedVertices_stray (m : Mesh) (f : Face) (i : Z) :
  vsize (vertices m) < 2 ^ 31 ->
  f ∈ faces m -> i ∈ indices f -> ~ index_in_range m i ->
  removeIsolatedVertices m = Undef.
Proof.
  intros Hn Hf Hi Hbad. unfold removeIsolatedVertices, vsize in *.
  rewrite number_vertices_numbering by lia.
  replace (Z.to_nat (0 + Z.of_nat (count_kept (vertices m))))
    with (count_kept (vertices m)) by lia.
  rewrite copy_stage_Ok. simpl.
  rewrite (renumber_faces_Undef _ _ f i Hf Hi); [reflexivity |].
  unfold vsize. rewrite numbering_length. exact Hbad.
Qed.

(** X2. The compaction does not check the face indices: when a face
    holds an index that designates no vertex, the look-up in the table of
    new indices is out of bounds, which is undefined behaviour, and no
    mesh is returned. *)
Theorem removeIsolatedVertices_out_of_range (m : Mesh) (f : Face) (i : Z) :
  vsize (vertices m) < 2 ^ 31 ->
  f ∈ faces m -> i ∈ indices f -> ~ index_in_range m i ->
  removeIsolatedVertices m = Undef.
Proof. exact (removeIsolatedVertices_stray m f i). Qed.

Lemma removeIsolatedVertices_out_of_range_witness :
  removeIsolatedVertices stray = Undef.
Proof.
  apply (removeIsolatedVertices_out_of_range stray (mkFace 0 0 7) 7).
  - vm_compute. reflexivity.
  - apply list_elem_of_singleton. reflexivity.
  - unfold indices. simpl. rewrite !elem_of_cons. auto.
  - unfold index_in_range, vsize. simpl. lia.
Defined.

(** X3. A face on a vertex whose position is NaN is not removed: the
    compaction returns a mesh with as many faces, in which that corner
    holds the index -1, and a second compaction of this mesh reads out of
    bounds. *)
Theorem removeIsolatedVertices_dangling_face (m : Mesh) (k : nat) (f : Face)
    (i : Z) (p : Point3f) :
  vsize (vertices m) < 2 ^ 31 -> faces_in_range m ->
  faces m !! k = Some f -> i ∈ indices f ->
  vget (vertices m) i = Ok p -> isnan p = true ->
  exists m' f',
    removeIsolatedVertices m = Ok m'
    /\ length (faces m') = length (faces m)
    /\ faces m' !! k = Some f' /\ -1 ∈ indices f'
    /\ removeIsolatedVertices m' = Undef.
Proof.
  intros Hn Hfaces Hk Hi Hp Hnan.
  exists (compacted m), (map_indices (new_index (vertices m)) f).
  assert (Hf' : faces (compacted m) !! k
                = Some (map_indices (new_index (vertices m)) f)).
  { unfold compacted. cbn [faces]. rewrite list_lookup_fmap, Hk. reflexivity. }
  assert (Hm1 : -1 ∈ indices (map_indices (new_index (vertices m)) f)).
  { apply indices_map_indices. exists i. split; [exact Hi |].
    unfold new_index. rewrite Hp, Hnan. reflexivity. }
  split; [apply removeIsolatedVertices_compacted; assumption |].
  split; [unfold compacted; cbn [faces]; apply length_map |].
  split; [exact Hf' |]. split; [exact Hm1 |].
  apply (removeIsolatedVertices_stray _ (map_indices (new_index (vertices m)) f) (-1)).
  - unfold compacted, vsize in *. cbn [vertices].
    pose proof (count_kept_le (vertices m)) as Hle.
    unfold count_kept in Hle. lia.
  - apply list_elem_of_lookup_2 in Hf'. exact Hf'.
  - exact Hm1.
  - unfold index_in_range. lia.
Qed.

Lemma removeIsolatedVertices_dangling_face_witness :
  exists m' f',
    removeIsolatedVertices dangling = Ok m'
    /\ length (faces m') = length (faces dangling)
    /\ faces m' !! 0%nat = Some f' /\ -1 ∈ indices f'
    /\ removeIsolatedVertices m' = Undef.
Proof.
  apply (removeIsolatedVertices_dangling_face dangling 0 (mkFace 0 1 0) 1
           infinite_point).
  - vm_compute. reflexivity.
  - intros f j Hf Hj. apply list_elem_of_singleton in Hf. subst f.
    unfold indices in Hj. simpl in Hj.
    rewrite !elem_of_cons in Hj. rewrite elem_of_nil in Hj.
    unfold index_in_range, vsize. simpl. lia.
  - reflexivity.
  - unfold indices. simpl. rewrite !elem_of_cons. auto.
  - vm_compute. reflexivity.
  - vm_compute. reflexivity.
Defined.

(** ** Normal estimation: when it returns *)

Lemma foldM_add_to_total (n : Vec3f) (l : list Z) :
  forall acc : list Point3f,
    (forall i, i ∈ l -> 0 <= i < vsize acc) ->
    exists acc', foldM (add_to n) l acc = Ok acc' /\ length acc' = length acc.
Proof.
  induction l as [| i l IH]; intros acc Hl.
  - exists acc. split; reflexivity.
  - assert (Hi : 0 <= i < vsize acc) by (apply Hl; apply elem_of_cons; auto).
    destruct (vget_exists acc i Hi) as [a Ha].
    cbn [foldM]. unfold add_to at 2. rewrite Ha. cbn [mbind result_bind Res.bind].
    unfold vset. unfold vsize in Hi.
    replace ((0 <=? i) && (i <? Z.of_nat (length acc))) with true
      by (symmetry; apply andb_true_intro; split;
          [apply Z.leb_le | apply Z.ltb_lt]; lia).
    destruct (IH (<[Z.to_nat i := P3.add a n]> acc)) as (acc' & Hacc & Hlen).
    { intros j Hj. unfold vsize. rewrite length_insert.
      apply Hl. apply elem_of_cons. auto. }
    exists acc'. split; [exact Hacc |].
    rewrite Hlen. apply length_insert.
Qed.

Lemma accumulate_face_cases (vs acc : list Point3f) (face : Face) :
  length acc = length vs ->
  (face_in_range vs face
   /\ exists acc', accumulate_face vs acc face = Ok acc'
                   /\ length acc' = length acc)
  \/ (~ face_in_range vs face /\ accumulate_face vs acc face = Undef).
Proof.
  intros Hlen. unfold accumulate_face.
  destruct (vget_Ok_or_Undef vs (idx1 face)) as [(p1 & -> & H1) | [-> H1]].
  2: { right. split; [| reflexivity]. intros H. apply H1, H.
       unfold indices. rewrite !elem_of_cons. auto. }
  destruct (vget_Ok_or_Undef vs (idx0 face)) as [(p0 & -> & H0) | [-> H0]].
  2: { right. split; [| reflexivity]. intros H. apply H0, H.
       unfold indices. rewrite !elem_of_cons. auto. }
  destruct (vget_Ok_or_Undef vs (idx2 face)) as [(p2 & -> & H2) | [-> H2]].
  2: { right. split; [| reflexivity]. intros H. apply H2, H.
       unfold indices. rewrite !elem_of_cons. auto. }
  assert (Hin : face_in_range vs face).
  { intros i Hi. unfold indices in Hi.
    rewrite !elem_of_cons in Hi. rewrite elem_of_nil in Hi.
    destruct Hi as [-> | [-> | [-> | []]]]; assumption. }
  left. split; [exact Hin |]. cbn [mbind result_bind Res.bind].
  apply foldM_add_to_total. intros i Hi. unfold vsize. rewrite Hlen.
  apply Hin. exact Hi.
Qed.

Lemma foldM_accumulate_cases (vs : list Point3f) (fs : list Face) :
  forall acc : list Point3f,
    length acc = length vs ->
    ((forall f, f ∈ fs -> face_in_range vs f)
     /\ exists acc', foldM (accumulate_face vs) fs acc = Ok acc')
    \/ (~ (forall f, f ∈ fs -> face_in_range vs f)
        /\ foldM (accumulate_face vs) fs acc = Undef).
Proof.
  induction fs as [| f fs IH]; intros acc Hlen.
  - left. split; [intros f Hf; inversion Hf |]. exists acc. reflexivity.
  - cbn [foldM].
    destruct (accumulate_face_cases vs acc f Hlen)
      as [(Hf & acc1 & -> & Hl1) | [Hf ->]].
    + cbn [mbind result_bind Res.bind].
      destruct (IH acc1 ltac:(congruence)) as [(Hfs & acc' & ->) | [Hfs ->]].
      * left. split; [| exists acc'; reflexivity].
        intros g Hg. apply elem_of_cons in Hg as [-> | Hg]; auto.
      * right. split; [| reflexivity]. intros H. apply Hfs.
        intros g Hg. apply H. apply elem_of_cons. auto.
    + right. split; [| reflexivity]. intros H. apply Hf, H.
      apply elem_of_cons. auto.
Qed.

(** X4. The normal estimation returns exactly when every face index
    designates a vertex; otherwise it reads or writes out of bounds.
    When it returns, only the normals have changed, there is one normal
    per vertex, and running it again returns the same mesh. *)
Theorem computeNormalsFromFaces_defined (m : Mesh) :
  (faces_in_range m
   /\ exists m', computeNormalsFromFaces m = Ok m'
                 /\ vertices m' = vertices m /\ faces m' = faces m
                 /\ colors m' = colors m /\ texcoords m' = texcoords m
                 /\ length (normals m') = length (vertices m)
                 /\ computeNormalsFromFaces m' = Ok m')
  \/ (~ faces_in_range m /\ computeNormalsFromFaces m = Undef).
Proof.
  unfold computeNormalsFromFaces.
  destruct (foldM_accumulate_cases (vertices m) (faces m)
              (replicate (length (vertices m)) P3.zero)
              (length_replicate _ _)) as [(Hin & acc & Hacc) | [Hin Hacc]].
  - left. split; [intros f i Hf Hi; apply (Hin f Hf i Hi) |].
    rewrite Hacc. cbn [mbind result_bind Res.bind].
    eexists. split; [reflexivity |]. cbn [vertices faces colors texcoords normals].
    rewrite Hacc. cbn [mbind result_bind Res.bind].
    repeat (split; [reflexivity |]). split; [| reflexivity].
    rewrite length_map. rewrite (foldM_accumulate_length _ _ _ _ Hacc).
    apply length_replicate.
  - right. split; [| rewrite Hacc; reflexivity].
    intros H. apply Hin. intros f Hf i Hi. apply (H f i Hf Hi).
Qed.

(** ** Merging *)

Lemma wrap32_add_l (x y : Z) : wrap32 (wrap32 x + y) = wrap32 (x + y).
Proof.
  unfold wrap32. f_equal.
  replace ((x + 2 ^ 31) mod 2 ^ 32 - 2 ^ 31 + y + 2 ^ 31)
    with ((x + 2 ^ 31) mod 2 ^ 32 + y) by lia.
  rewrite Zplus_mod_idemp_l. f_equal. lia.
Qed.

Lemma wrap32_add_r (x y : Z) : wrap32 (x + wrap32 y) = wrap32 (x + y).
Proof. rewrite (Z.add_comm x), wrap32_add_l. f_equal. lia. Qed.

Lemma length_pos {A : Type} (l : list A) : l <> [] <-> (0 < length l)%nat.
Proof. destruct l; simpl; split; intros H; try congruence; lia. Qed.

(** The merge of two meshes that have a vertex, when the receiver's
    normal array does not happen to be as long as both vertex arrays
    together. *)
Lemma addMesh_merged (m rhs : Mesh) :
  vertices m <> [] ->
  length (normals m) <> (length (vertices m) + length (vertices rhs))%nat ->
  addMesh m rhs =
  if hasColors m && negb (hasColors rhs)
  then Fatal "Cannot merge different kind of meshes."
  else Ok (merged m rhs).
Proof.
  intros Hm Hn. apply length_pos in Hm. unfold addMesh, vsize.
  replace (Z.of_nat (length (vertices m)) <? 1) with false
    by (symmetry; apply Z.ltb_ge; lia).
  unfold hasNormals at 1. cbn [vertices normals]. rewrite length_app.
  replace (length (normals m) =? length (vertices m) + length (vertices rhs))%nat
    with false by (symmetry; apply Nat.eqb_neq; exact Hn).
  unfold merged, shifted, vsize.
  destruct (hasColors m) eqn:Ec; [destruct (hasColors rhs) eqn:Er |];
    simpl; reflexivity.
Qed.

Lemma consistent_normals_short (m rhs : Mesh) :
  attr_ok (normals m) (vertices m) -> vertices rhs <> [] ->
  vertices m <> [] ->
  length (normals m) <> (length (vertices m) + length (vertices rhs))%nat.
Proof.
  intros Hok Hr Hm. apply length_pos in Hr. apply length_pos in Hm.
  destruct Hok as [-> | Hlen]; [simpl; lia | lia].
Qed.

(** X5. Between two meshes that both have a vertex, with a receiver
    whose optional arrays are empty or complete, the merge is refused
    exactly when the receiver has colours and the operand has none; in
    every other case it returns, and a missing normal array of the
    operand is never an error. *)
Theorem addMesh_refused_iff (m rhs : Mesh) :
  attrs_consistent m -> vertices m <> [] -> vertices rhs <> [] ->
  (hasColors m = true /\ hasColors rhs = false
   /\ addMesh m rhs = Fatal "Cannot merge different kind of meshes.")
  \/ ((hasColors m = false \/ hasColors rhs = true)
      /\ addMesh m rhs = Ok (merged m rhs)).
Proof.
  intros (_ & Hn & _) Hm Hr.
  rewrite (addMesh_merged m rhs Hm (consistent_normals_short m rhs Hn Hr Hm)).
  destruct (hasColors m), (hasColors rhs); simpl; auto.
Qed.

Lemma addMesh_refused_iff_witness :
  (hasColors red_point = true /\ hasColors bare_point = false
   /\ addMesh red_point bare_point
      = Fatal "Cannot merge different kind of meshes.")
  \/ ((hasColors red_point = false \/ hasColors bare_point = true)
      /\ addMesh red_point bare_point = Ok (merged red_point bare_point)).
Proof.
  apply (addMesh_refused_iff red_point bare_point).
  - unfold attrs_consistent, attr_ok. simpl. auto.
  - discriminate.
  - discriminate.
Defined.

Lemma vget_app_r {A : Type} (v w : list A) (i : Z) :
  0 <= i -> vget (v ++ w) (i + vsize v) = vget w i.
Proof.
  intros Hi. unfold vget, vsize.
  replace (0 <=? i + Z.of_nat (length v)) with true
    by (symmetry; apply Z.leb_le; lia).
  replace (0 <=? i) with true by (symmetry; apply Z.leb_le; lia).
  rewrite lookup_app_r by lia.
  replace (Z.to_nat (i + Z.of_nat (length v)) - length v)%nat
    with (Z.to_nat i) by lia.
  reflexivity.
Qed.

(** X6. The merge keeps the faces on their vertices: when both meshes
    have face indices in range and the joint vertex count fits an int,
    the result has its face indices in range, the receiver's faces come
    first and unchanged, and the [k]-th face of the operand follows with
    every index moved by the receiver's vertex count, where it designates
    the vertex it designated in the operand. *)
Theorem addMesh_faces_follow (m rhs m' : Mesh) :
  vertices m <> [] ->
  vsize (vertices m) + vsize (vertices rhs) < 2 ^ 31 ->
  faces_in_range m -> faces_in_range rhs ->
  addMesh m rhs = Ok m' ->
  faces_in_range m'
  /\ vertices m' = vertices m ++ vertices rhs
  /\ (forall k f, faces m !! k = Some f -> faces m' !! k = Some f)
  /\ (forall k f, faces rhs !! k = Some f ->
        faces m' !! (length (faces m) + k)%nat
        = Some (map_indices (fun i => i + vsize (vertices m)) f)
        /\ forall i, i ∈ indices f ->
             vget (vertices m') (i + vsize (vertices m))
             = vget (vertices rhs) i).
Proof.
  intros Hm Hsize Hfm Hfr H. apply length_pos in Hm.
  unfold addMesh in H.
  replace (vsize (vertices m) <? 1) with false in H
    by (symmetry; apply Z.ltb_ge; unfold vsize; lia).
  apply bind_Ok in H as (colors1 & _ & H).
  apply bind_Ok in H as (normals1 & _ & H).
  inversion H. subst m'. clear H. cbn [vertices faces].
  assert (Hoff : wrap32 (vsize (vertices m)) = vsize (vertices m))
    by (apply wrap32_small; unfold vsize in *; lia).
  rewrite Hoff.
  assert (Hshift : forall f, f ∈ faces rhs ->
            map_indices (fun i => wrap32 (i + vsize (vertices m))) f
            = map_indices (fun i => i + vsize (vertices m)) f).
  { intros f Hf. destruct f as [a b c]. unfold map_indices. cbn.
    pose proof (Hfr _ a Hf) as Ha. pose proof (Hfr _ b Hf) as Hb.
    pose proof (Hfr _ c Hf) as Hc.
    unfold indices, index_in_range in Ha, Hb, Hc. cbn in Ha, Hb, Hc.
    rewrite !elem_of_cons in Ha, Hb, Hc.
    rewrite !wrap32_small by (unfold vsize in *; lia). reflexivity. }
  split; [| split; [reflexivity | split]].
  - intros f i Hf Hi. unfold index_in_range, vsize. cbn [vertices].
    rewrite length_app. apply elem_of_app in Hf as [Hf | Hf].
    + pose proof (Hfm f i Hf Hi) as Hr. unfold index_in_range, vsize in Hr.
      lia.
    + apply list_elem_of_fmap in Hf as (f0 & -> & Hf0).
      rewrite (Hshift f0 Hf0) in Hi.
      apply indices_map_indices in Hi as (i0 & Hi0 & ->).
      pose proof (Hfr f0 i0 Hf0 Hi0) as Hr.
      unfold index_in_range, vsize in *. lia.
  - intros k f Hk. apply lookup_app_l_Some. exact Hk.
  - intros k f Hk. split.
    + rewrite lookup_app_r by lia.
      replace (length (faces m) + k - length (faces m))%nat with k by lia.
      rewrite list_lookup_fmap, Hk. cbn. f_equal.
      apply Hshift. apply list_elem_of_lookup_2 in Hk. exact Hk.
    + intros i Hi. apply list_elem_of_lookup_2 in Hk.
      pose proof (Hfr f i Hk Hi) as Hr. unfold index_in_range, vsize in Hr.
      apply vget_app_r. lia.
Qed.

Lemma addMesh_faces_follow_witness :
  faces_in_range (merged red_point blue_corner)
  /\ vertices (merged red_point blue_corner)
     = vertices red_point ++ vertices blue_corner
  /\ (forall k f, faces red_point !! k = Some f ->
        faces (merged red_point blue_corner) !! k = Some f)
  /\ (forall k f, faces blue_corner !! k = Some f ->
        faces (merged red_point blue_corner)
          !! (length (faces red_point) + k)%nat
        = Some (map_indices (fun i => i + vsize (vertices red_point)) f)
        /\ forall i, i ∈ indices f ->
             vget (vertices (merged red_point blue_corner))
                  (i + vsize (vertices red_point))
             = vget (vertices blue_corner) i).
Proof.
  apply (addMesh_faces_follow red_point blue_corner).
  - discriminate.
  - vm_compute. reflexivity.
  - intros f i Hf. inversion Hf.
  - intros f i Hf Hi. apply list_elem_of_singleton in Hf. subst f.
    unfold indices in Hi. simpl in Hi.
    rewrite !elem_of_cons in Hi. rewrite elem_of_nil in Hi.
    unfold index_in_range, vsize. simpl. lia.
  - reflexivity.
Defined.

Lemma hasColors_false_nil (m : Mesh) :
  attr_ok (colors m) (vertices m) -> hasColors m = false -> colors m = [].
Proof.
  intros [H | H] Hc; [exact H |].
  unfold hasColors in Hc. apply Nat.eqb_neq in Hc. contradiction.
Qed.

Lemma shifted_app (n : Z) (fs gs : list Face) :
  shifted n (fs ++ gs) = shifted n fs ++ shifted n gs.
Proof. apply map_app. Qed.

Lemma shifted_shifted (a b : Z) (fs : list Face) :
  shifted a (shifted b fs) = shifted (a + b) fs.
Proof.
  unfold shifted. rewrite map_map. apply map_ext. intros [i j k].
  unfold map_indices. cbn.
  rewrite !wrap32_add_r, !wrap32_add_l.
  f_equal; f_equal; lia.
Qed.

Lemma mesh_eq (x y : Mesh) :
  vertices x = vertices y -> colors x = colors y -> normals x = normals y ->
  texcoords x = texcoords y -> faces x = faces y ->
  face_texcoords x = face_texcoords y -> texture x = texture y -> x = y.
Proof. destruct x, y. simpl. intros. subst. reflexivity. Qed.

Lemma merged_vertices (m rhs : Mesh) :
  vertices (merged m rhs) = vertices m ++ vertices rhs.
Proof. reflexivity. Qed.

Lemma merged_colors (m rhs : Mesh) :
  colors (merged m rhs)
  = if hasColors m then colors m ++ colors rhs else colors m.
Proof. reflexivity. Qed.

Lemma merged_assoc_faces (a b c : Mesh) :
  faces (merged (merged a b) c) = faces (merged a (merged b c)).
Proof.
  unfold merged. cbn [faces vertices].
  rewrite shifted_app, shifted_shifted, <- app_assoc.
  unfold vsize. rewrite length_app, Nat2Z.inj_add. reflexivity.
Qed.

(** X7. Merging is associative with one exception. For three meshes
    that each have a vertex, the first two with optional arrays that are
    empty or complete, merging the first two and then the third gives the
    same outcome (the same mesh or the same refusal) as merging the first
    with the merge of the two others, unless the first mesh has no
    colours, the second has colours and the third has none: the first
    grouping then returns a mesh and the second one is refused. *)
Theorem addMesh_assoc_iff (a b c : Mesh) :
  attrs_consistent a -> attrs_consistent b ->
  vertices a <> [] -> vertices b <> [] -> vertices c <> [] ->
  ((hasColors a = true \/ hasColors b = false \/ hasColors c = true)
   /\ (ab ← addMesh a b; addMesh ab c) = (bc ← addMesh b c; addMesh a bc))
  \/ (hasColors a = false /\ hasColors b = true /\ hasColors c = false
      /\ (ab ← addMesh a b; addMesh ab c) = Ok (merged (merged a b) c)
      /\ (bc ← addMesh b c; addMesh a bc)
         = Fatal "Cannot merge different kind of meshes.").
Proof.
  intros (Hca & Hna & _) (Hcb & Hnb & _) Ha Hb Hc.
  pose proof (proj1 (length_pos _) Ha) as La.
  pose proof (proj1 (length_pos _) Hb) as Lb.
  pose proof (proj1 (length_pos _) Hc) as Lc.
  assert (Hab : vertices (merged a b) <> []).
  { apply length_pos. unfold merged. cbn [vertices]. rewrite length_app. lia. }
  assert (Hbc : vertices (merged b c) <> []).
  { apply length_pos. unfold merged. cbn [vertices]. rewrite length_app. lia. }
  assert (Nab : length (normals (merged a b))
                <> (length (vertices (merged a b)) + length (vertices c))%nat).
  { unfold merged. cbn [vertices normals]. rewrite length_app.
    destruct Hna as [-> | Hl]; [simpl; lia | lia]. }
  assert (Nabc : length (normals a)
                 <> (length (vertices a) + length (vertices (merged b c)))%nat).
  { unfold merged. cbn [vertices normals]. rewrite length_app.
    destruct Hna as [-> | Hl]; [simpl; lia | lia]. }
  rewrite (addMesh_merged a b Ha (consistent_normals_short a b Hna Hb Ha)).
  rewrite (addMesh_merged b c Hb (consistent_normals_short b c Hnb Hc Hb)).
  assert (Hcab : hasColors (merged a b) = hasColors a && hasColors b).
  { unfold merged, hasColors at 1. cbn [vertices colors].
    destruct (hasColors a) eqn:Ea.
    - rewrite !length_app. unfold hasColors in *.
      apply Nat.eqb_eq in Ea. rewrite Ea.
      destruct (length (colors b) =? length (vertices b))%nat eqn:Eb.
      + apply Nat.eqb_eq in Eb. rewrite Eb. apply Nat.eqb_refl.
      + apply Nat.eqb_neq in Eb. apply Nat.eqb_neq. cbn. lia.
    - rewrite (hasColors_false_nil a Hca Ea). rewrite length_app.
      apply Nat.eqb_neq. cbn. lia. }
  assert (Hcbc : hasColors (merged b c) = hasColors b && hasColors c).
  { unfold merged, hasColors at 1. cbn [vertices colors].
    destruct (hasColors b) eqn:Eb.
    - rewrite !length_app. unfold hasColors in *.
      apply Nat.eqb_eq in Eb. rewrite Eb.
      destruct (length (colors c) =? length (vertices c))%nat eqn:Ec.
      + apply Nat.eqb_eq in Ec. rewrite Ec. apply Nat.eqb_refl.
      + apply Nat.eqb_neq in Ec. apply Nat.eqb_neq. cbn. lia.
    - rewrite (hasColors_false_nil b Hcb Eb). rewrite length_app.
      apply Nat.eqb_neq. cbn. lia. }
  assert (Hmesh : hasColors a && hasColors b = hasColors a ->
                  merged (merged a b) c = merged a (merged b c)).
  { intros Hb'. apply mesh_eq; try reflexivity.
    - rewrite !merged_vertices. symmetry. apply app_assoc.
    - rewrite (merged_colors (merged a b) c), (merged_colors a (merged b c)).
      rewrite Hcab, Hb', !merged_colors.
      destruct (hasColors a) eqn:Ea; [| reflexivity].
      rewrite andb_true_l in Hb'. rewrite Hb'.
      symmetry. apply app_assoc.
    - apply merged_assoc_faces. }
  destruct (hasColors a) eqn:Ea, (hasColors b) eqn:Eb, (hasColors c) eqn:Ec;
    cbn [andb negb mbind result_bind Res.bind];
    rewrite ?(addMesh_merged _ c Hab Nab), ?(addMesh_merged a _ Ha Nabc),
      ?Hcab, ?Hcbc, ?Ea, ?Eb, ?Ec;
    cbn [andb negb].
  - left. split; [auto |]. f_equal. apply Hmesh. reflexivity.
  - left. split; [auto |]. reflexivity.
  - left. split; [auto |]. reflexivity.
  - left. split; [auto |]. reflexivity.
  - left. split; [auto |]. f_equal. apply Hmesh. reflexivity.
  - right. repeat (split; [reflexivity |]). reflexivity.
  - left. split; [auto |]. f_equal. apply Hmesh. reflexivity.
  - left. split; [auto |]. f_equal. apply Hmesh. reflexivity.
Qed.

Lemma addMesh_assoc_iff_witness :
  ((hasColors operand_bare = true \/ hasColors blue_corner = false
    \/ hasColors bare_point = true)
   /\ (ab ← addMesh operand_bare blue_corner; addMesh ab bare_point)
      = (bc ← addMesh blue_corner bare_point; addMesh operand_bare bc))
  \/ (hasColors operand_bare = false /\ hasColors blue_corner = true
      /\ hasColors bare_point = false
      /\ (ab ← addMesh operand_bare blue_corner; addMesh ab bare_point)
         = Ok (merged (merged operand_bare blue_corner) bare_point)
      /\ (bc ← addMesh blue_corner bare_point; addMesh operand_bare bc)
         = Fatal "Cannot merge different kind of meshes.").
Proof.
  apply (addMesh_assoc_iff operand_bare blue_corner bare_point).
  - unfold attrs_consistent, attr_ok. simpl. auto.
  - unfold attrs_consistent, attr_ok. simpl. auto.
  - discriminate.
  - discriminate.
  - discriminate.
Defined.

(** X8. The mesh without anything is neutral for the merge on the side
    of the receiver, and so is any cleared mesh; on the side of the
    operand it is neutral for a receiver that has a vertex, while a
    receiver without vertices is replaced by it and loses its faces and
    its texture. *)
Theorem addMesh_neutral (m r : Mesh) :
  addMesh empty_mesh m = Ok m
  /\ addMesh (clear r) m = Ok m
  /\ addMesh m empty_mesh
     = Ok (if vsize (vertices m) <? 1 then empty_mesh else m).
Proof.
  split; [reflexivity | split; [reflexivity |]].
  destruct m as [vs cs ns ts fs fts tex].
  unfold addMesh, hasColors, hasNormals.
  cbn [vertices colors normals texcoords faces face_texcoords texture
       empty_mesh length map negb Nat.eqb].
  destruct (vsize vs <? 1); [reflexivity |].
  rewrite !app_nil_r.
  destruct (length cs =? length vs)%nat; cbn [mbind result_bind Res.bind];
    destruct (length ns =? length vs)%nat; cbn [mbind result_bind Res.bind];
    rewrite ?app_nil_r; reflexivity.
Qed.

(** ** Rigid motions and scalings *)

Lemma addMesh_map_vertices (g : Point3f -> Point3f) (m rhs : Mesh) :
  addMesh (with_vertices m (map g (vertices m)))
          (with_vertices rhs (map g (vertices rhs)))
  = (m' ← addMesh m rhs; Ok (with_vertices m' (map g (vertices m')))).
Proof.
  unfold addMesh, with_vertices, hasColors, hasNormals, vsize.
  cbn [vertices colors normals texcoords faces face_texcoords texture].
  rewrite !length_map.
  destruct (Z.of_nat (length (vertices m)) <? 1); [reflexivity |].
  destruct (length (colors m) =? length (vertices m))%nat;
    [destruct (length (colors rhs) =? length (vertices rhs))%nat |];
    cbn [negb mbind result_bind Res.bind]; try reflexivity;
    rewrite !length_app, !length_map;
    destruct (length (normals m) =? length (vertices m) + length (vertices rhs))%nat;
    try (destruct (length (normals rhs) =? length (vertices rhs))%nat);
    cbn [negb mbind result_bind Res.bind vertices]; try reflexivity;
    rewrite map_app; reflexivity.
Qed.

(** X9. Moving or scaling two meshes and merging them is the same as
    merging them and moving or scaling the result, refusals included: the
    merge never looks at the positions. *)
Theorem transforms_commute_with_addMesh (Pose3D : Type)
    (cameraTransform : Pose3D -> Point3f -> Point3f) (pose : Pose3D)
    (x_scale y_scale z_scale : float) (m rhs : Mesh) :
  addMesh (applyTransform Pose3D cameraTransform m pose)
          (applyTransform Pose3D cameraTransform rhs pose)
  = (m' ← addMesh m rhs; Ok (applyTransform Pose3D cameraTransform m' pose))
  /\ addMesh (applyScaleTransform m x_scale y_scale z_scale)
             (applyScaleTransform rhs x_scale y_scale z_scale)
     = (m' ← addMesh m rhs;
        Ok (applyScaleTransform m' x_scale y_scale z_scale)).
Proof.
  split.
  - apply (addMesh_map_vertices (cameraTransform pose)).
  - apply (addMesh_map_vertices (scale_point x_scale y_scale z_scale)).
Qed.

(** ** The order given to the sort *)

Lemma VertexComparator_cmp (vs : list Point3f) (a b : Z) :
  Forall (fun p => P3.nan_free p = true) vs ->
  0 <= a < vsize vs -> 0 <= b < vsize vs ->
  exists p q, vget vs a = Ok p /\ vget vs b = Ok q
    /\ VertexComparator vs a b
       = match lex_cmp (P3.key p) (P3.key q) with Lt => true | _ => false end.
Proof.
  intros Hnan Ha Hb.
  destruct (vget_exists vs a Ha) as [p Hp].
  destruct (vget_exists vs b Hb) as [q Hq].
  exists p, q. split; [exact Hp | split; [exact Hq |]].
  unfold VertexComparator. rewrite Hp, Hq.
  rewrite Forall_forall in Hnan.
  apply vget_Ok in Hp as [_ Hp]. apply vget_Ok in Hq as [_ Hq].
  apply list_elem_of_lookup_2 in Hp, Hq.
  apply P3_ltb_cmp; apply Hnan; assumption.
Qed.

(** X10. On vertices without NaN coordinate the comparator handed to
    the sort is a strict weak ordering of the indices of the mesh: it is
    irreflexive and transitive, and being unordered both ways is
    transitive. *)
Theorem VertexComparator_strict_weak (vs : list Point3f) :
  Forall (fun p => P3.nan_free p = true) vs ->
  strict_weak_on (VertexComparator vs) (iota (length vs)) = true.
Proof.
  intros Hnan.
  assert (Hrange : forall a, In a (iota (length vs)) -> 0 <= a < vsize vs).
  { intros a Ha. unfold iota in Ha. apply in_map_iff in Ha as (k & <- & Hk).
    apply in_seq in Hk. unfold vsize. lia. }
  unfold strict_weak_on. apply andb_true_intro. split.
  - apply forallb_forall. intros a Ha. apply Hrange in Ha.
    destruct (VertexComparator_cmp vs a a Hnan Ha Ha) as (p & q & Hp & Hq & ->).
    rewrite Hp in Hq. inversion Hq. subst q.
    rewrite lex_cmp_refl. reflexivity.
  - apply forallb_forall. intros a Ha. apply Hrange in Ha.
    apply forallb_forall. intros b Hb. apply Hrange in Hb.
    apply forallb_forall. intros c Hc. apply Hrange in Hc.
    destruct (VertexComparator_cmp vs a b Hnan Ha Hb)
      as (p & q & Hp & Hq & ->).
    destruct (VertexComparator_cmp vs b c Hnan Hb Hc)
      as (q' & r & Hq' & Hr & ->).
    rewrite Hq in Hq'. inversion Hq'. subst q'.
    destruct (VertexComparator_cmp vs a c Hnan Ha Hc)
      as (p' & r' & Hp' & Hr' & ->).
    rewrite Hp in Hp'. inversion Hp'. subst p'.
    rewrite Hr in Hr'. inversion Hr'. subst r'.
    destruct (VertexComparator_cmp vs b a Hnan Hb Ha)
      as (q' & p' & Hq'' & Hp'' & ->).
    rewrite Hq in Hq''. inversion Hq''. subst q'.
    rewrite Hp in Hp''. inversion Hp''. subst p'.
    destruct (VertexComparator_cmp vs c b Hnan Hc Hb)
      as (r' & q' & Hr'' & Hq''' & ->).
    rewrite Hr in Hr''. inversion Hr''. subst r'.
    rewrite Hq in Hq'''. inversion Hq'''. subst q'.
    destruct (VertexComparator_cmp vs c a Hnan Hc Ha)
      as (r' & p' & Hr''' & Hp''' & ->).
    rewrite Hr in Hr'''. inversion Hr'''. subst r'.
    rewrite Hp in Hp'''. inversion Hp'''. subst p'.
    rewrite (lex_cmp_opp (P3.key p) (P3.key q)).
    rewrite (lex_cmp_opp (P3.key q) (P3.key r)).
    rewrite (lex_cmp_opp (P3.key p) (P3.key r)).
    destruct (lex_cmp (P3.key p) (P3.key q)) eqn:E1;
      destruct (lex_cmp (P3.key q) (P3.key r)) eqn:E2;
      try (apply lex_cmp_eq in E1; rewrite E1 in *);
      try (apply lex_cmp_eq in E2; rewrite E2 in *);
      rewrite ?lex_cmp_refl, ?E1, ?E2;
      try rewrite (lex_cmp_lt_trans _ _ _ E1 E2);
      cbn; try reflexivity;
      destruct (lex_cmp (P3.key p) (P3.key r)); reflexivity.
Qed.

Lemma VertexComparator_strict_weak_witness :
  strict_weak_on (VertexComparator (vertices doubled))
                 (iota (length (vertices doubled))) = true.
Proof.
  apply (VertexComparator_strict_weak (vertices doubled)).
  repeat constructor.
Defined.

(** ** Deduplication on its own *)

(** X11. Without two equal vertices the deduplication returns the mesh
    as it is, in whatever order the indices are scanned (no sort is
    needed for that), NaN vertices included. *)
Theorem removeDuplicatedVertices_distinct_identity (m : Mesh) (ord : list Z)
    (fuel : nat) :
  vsize (vertices m) < 2 ^ 31 ->
  Permutation ord (iota (length (vertices m))) ->
  pairwise_distinct (vertices m) ->
  (enough_fuel (length (vertices m)) <= fuel)%nat ->
  removeDuplicatedVertices ord fuel m = Ok m.
Proof.
  intros Hsize Hperm Hdist Hfuel. unfold removeDuplicatedVertices.
  rewrite (removeDuplicatedVertices_alias_distinct m ord fuel Hsize Hperm
             Hdist Hfuel).
  reflexivity.
Qed.

Lemma removeDuplicatedVertices_distinct_identity_witness :
  removeDuplicatedVertices [2; 0; 1] 4 triangle = Ok triangle.
Proof.
  apply (removeDuplicatedVertices_distinct_identity triangle [2; 0; 1] 4).
  - vm_compute. reflexivity.
  - change (Permutation (2 :: [0; 1]) ([0; 1] ++ [2])).
    apply Permutation_cons_app. apply Permutation_refl.
  - intros i j p q Hij Hp Hq.
    destruct i as [| [| [| i]]]; destruct j as [| [| [| j]]];
      try discriminate; try congruence;
      inversion Hp; inversion Hq; subst; vm_compute; reflexivity.
  - simpl. lia.
Defined.

(** X12. A mesh with at least one vertex is scanned in one turn more than
    it has vertices, for every order of its indices and whatever its
    vertices are: no access is out of bounds, every vertex comes back as
    it was or replaced by the sentinel, the vertex that comes first in
    the order comes back as it was, the per-vertex arrays are untouched
    and the number of faces is unchanged. *)
Theorem removeDuplicatedVertices_returns (m : Mesh) (ord : list Z)
    (fuel : nat) :
  vertices m <> [] -> vsize (vertices m) < 2 ^ 31 ->
  Permutation ord (iota (length (vertices m))) ->
  (S (length (vertices m)) <= fuel)%nat ->
  exists m',
    removeDuplicatedVertices ord fuel m = Ok m'
    /\ length (vertices m') = length (vertices m)
    /\ (forall (i : nat) p, vertices m !! i = Some p ->
          vertices m' !! i = Some p
          \/ vertices m' !! i = Some infinite_point)
    /\ vget (vertices m') (at_pos ord 0) = vget (vertices m) (at_pos ord 0)
    /\ colors m' = colors m /\ normals m' = normals m
    /\ texcoords m' = texcoords m
    /\ length (faces m') = length (faces m).
Proof.
  intros Hne Hsize Hperm Hfuel.
  destruct (removeDuplicatedVertices_alias_total m ord Hsize Hperm)
    as (vs' & alias & Hsc & _ & Hrun).
  assert (Hpos : (0 < length (vertices m))%nat) by (apply length_pos; exact Hne).
  assert (Hfuel' : (enough_fuel (length (vertices m)) <= fuel)%nat).
  { destruct (length (vertices m)); [lia | simpl; lia]. }
  exists (deduplicated m vs' alias).
  split; [unfold removeDuplicatedVertices; rewrite (Hrun fuel Hfuel');
          reflexivity |].
  unfold deduplicated. cbn [vertices colors normals texcoords faces].
  pose proof Hsc as (Hlen & Hat & _).
  split; [exact Hlen |]. split; [| split].
  - intros i p Hi.
    assert (Hr : 0 <= Z.of_nat i < vsize (vertices m)).
    { apply lookup_lt_Some in Hi. unfold vsize. lia. }
    destruct (alias !! Z.of_nat i) as [c |] eqn:E.
    + destruct (alias_Some _ ord Hperm vs' alias Hsc _ _ E)
        as (a & _ & _ & _ & _ & Hv).
      rewrite Nat2Z.id in Hv. right. exact Hv.
    + destruct (alias_None _ ord Hperm vs' alias Hsc _ Hr E)
        as (a & _ & _ & _ & Hv).
      rewrite Nat2Z.id in Hv. left. rewrite Hv. exact Hi.
  - specialize (Hat 0%nat Hpos).
    rewrite (marked_head (vertices m) ord _ 0%nat eq_refl) in Hat.
    destruct Hat as [Hv _]. apply vget_lookup_eq. exact Hv.
  - repeat (split; [reflexivity |]). apply length_map.
Qed.

Lemma removeDuplicatedVertices_returns_witness :
  exists m',
    removeDuplicatedVertices nan_between_order 6 nan_between = Ok m'
    /\ length (vertices m') = length (vertices nan_between)
    /\ (forall (i : nat) p, vertices nan_between !! i = Some p ->
          vertices m' !! i = Some p
          \/ vertices m' !! i = Some infinite_point)
    /\ vget (vertices m') (at_pos nan_between_order 0)
       = vget (vertices nan_between) (at_pos nan_between_order 0)
    /\ colors m' = colors nan_between /\ normals m' = normals nan_between
    /\ texcoords m' = texcoords nan_between
    /\ length (faces m') = length (faces nan_between).
Proof.
  apply (removeDuplicatedVertices_returns nan_between nan_between_order 6).
  - discriminate.
  - vm_compute. reflexivity.
  - apply Permutation_refl.
  - simpl. lia.
Defined.

(** ** Deduplication followed by compaction *)

(** What the pair makes of a mesh with NaN-free vertices: the compaction
    of the deduplicated mesh [m'], in which every index [i] of the input
    has moved to the new index of its canonical index. *)
Lemma cleanup_facts (m : Mesh) (ord : list Z) :
  vsize (vertices m) < 2 ^ 31 ->
  Forall (fun p => P3.nan_free p = true) (vertices m) ->
  faces_in_range m ->
  sorted_indices m ord ->
  exists (m' : Mesh) (alias : gmap Z Z),
    (forall fuel, (enough_fuel (length (vertices m)) <= fuel)%nat ->
       cleanup ord fuel m = Ok (compacted m'))
    /\ pairwise_distinct (vertices (compacted m'))
    /\ (forall p, p ∈ vertices (compacted m') ->
          p ∈ vertices m /\ P3.nan_free p = true)
    /\ (forall i p, vget (vertices m) i = Ok p ->
          exists q,
            vget (vertices (compacted m'))
                 (new_index (vertices m') (resolve_alias alias i)) = Ok q
            /\ P3.eqb q p = true)
    /\ faces (compacted m')
       = map (map_indices (fun i => new_index (vertices m')
                                              (resolve_alias alias i)))
             (faces m).
Proof.
  intros Hsize Hnan Hfaces Hsorted.
  destruct (removeDuplicatedVertices_alias_spec m ord Hsize Hnan Hsorted)
    as (m' & alias & Hrun & Hlen & Hfs & Hal & Hkeep & Hdist & Hface & _ & _).
  assert (Hsize' : vsize (vertices m') < 2 ^ 31)
    by (unfold vsize in *; rewrite Hlen; exact Hsize).
  assert (Hrange : forall i, index_in_range m' i <-> index_in_range m i)
    by (intros i; unfold index_in_range, vsize; rewrite Hlen; reflexivity).
  assert (Hfaces' : faces_in_range m').
  { intros f i Hf Hi. rewrite Hfs in Hf.
    apply list_elem_of_fmap in Hf as (f0 & -> & Hf0).
    apply indices_map_indices in Hi as (i0 & Hi0 & ->).
    apply Hrange. unfold resolve_alias.
    destruct (alias !! i0) as [c |] eqn:E.
    - apply (Hal i0 c E).
    - apply (Hfaces f0 i0 Hf0 Hi0). }
  pose proof (removeIsolatedVertices_compacted m' Hsize' Hfaces') as Hcomp.
  exists m', alias.
  assert (Hv1 : vertices (compacted m')
                = filter (fun q => kept q = true) (vertices m'))
    by reflexivity.
  assert (Hmem : forall p, p ∈ vertices m -> P3.nan_free p = true).
  { rewrite Forall_forall in Hnan. exact Hnan. }
  assert (Horigin : forall (a : nat) p,
            vertices m' !! a = Some p -> kept p = true ->
            alias !! Z.of_nat a = None /\ vget (vertices m) (Z.of_nat a) = Ok p).
  { intros a p Ha Hk.
    assert (Hg : vget (vertices m') (Z.of_nat a) = Ok p)
      by (rewrite vget_of_nat, Ha; reflexivity).
    destruct (alias !! Z.of_nat a) as [c |] eqn:E.
    - destruct (Hal _ _ E) as (_ & _ & _ & _ & Hinf & _).
      rewrite Hg in Hinf. inversion Hinf. subst p. discriminate.
    - split; [reflexivity |]. rewrite <- Hkeep; [exact Hg | | exact E].
      apply Hrange. apply (vget_in_range _ _ _ Hg). }
  assert (Hsub : forall p, p ∈ vertices (compacted m') ->
                   p ∈ vertices m /\ P3.nan_free p = true).
  { intros p Hp. rewrite Hv1 in Hp.
    apply list_elem_of_filter in Hp as [Hk Hp].
    apply list_elem_of_lookup_1 in Hp as [a Ha].
    destruct (Horigin a p Ha Hk) as [_ Hg].
    apply vget_Ok in Hg as [_ Hg]. apply list_elem_of_lookup_2 in Hg.
    split; [exact Hg | apply Hmem; exact Hg]. }
  assert (Hlt : forall (i j : nat) p q, (i < j)%nat ->
            vertices (compacted m') !! i = Some p ->
            vertices (compacted m') !! j = Some q ->
            P3.eqb p q = false).
  { intros i j p q Hij Hp Hq. rewrite Hv1 in Hp, Hq.
    destruct (filter_lookup_ordered _ _ i j p q Hij Hp Hq)
      as (a & b & Hab & Ha & Hb).
    apply list_elem_of_lookup_2 in Hp, Hq.
    apply list_elem_of_filter in Hp as [Hkp _].
    apply list_elem_of_filter in Hq as [Hkq _].
    destruct (Horigin a p Ha Hkp) as [Hna Hga].
    destruct (Horigin b q Hb Hkq) as [Hnb Hgb].
    apply (Hdist (Z.of_nat a) (Z.of_nat b)); try assumption. lia. }
  split; [| split; [| split; [exact Hsub | split]]].
  - intros fuel Hfuel. unfold cleanup.
    rewrite (proj2 (Hrun fuel Hfuel)). exact Hcomp.
  - intros i j p q Hij Hp Hq.
    destruct (Nat.lt_total i j) as [Hl | [He | Hg]]; [| contradiction |].
    + apply (Hlt i j p q Hl Hp Hq).
    + rewrite (P3_eqb_sym p q).
      * apply (Hlt j i q p Hg Hq Hp).
      * apply Hsub. apply list_elem_of_lookup_2 in Hp. exact Hp.
      * apply Hsub. apply list_elem_of_lookup_2 in Hq. exact Hq.
  - intros i p Hi.
    assert (Hp : P3.nan_free p = true).
    { apply Hmem. apply vget_Ok in Hi as [_ Hi].
      apply list_elem_of_lookup_2 in Hi. exact Hi. }
    assert (Hc : exists q, vget (vertices m') (resolve_alias alias i) = Ok q
                           /\ P3.eqb q p = true /\ P3.nan_free q = true).
    { unfold resolve_alias. destruct (alias !! i) as [c |] eqn:E.
      - destruct (Hal i c E)
          as (_ & _ & _ & _ & _ & p' & q & Hp' & Hq & Hq' & Heq).
        rewrite Hi in Hp'. inversion Hp'. subst p'.
        exists q. split; [exact Hq' | split; [exact Heq |]].
        apply Hmem. apply vget_Ok in Hq as [_ Hq].
        apply list_elem_of_lookup_2 in Hq. exact Hq.
      - exists p. split; [| split; [apply P3_eqb_refl; exact Hp | exact Hp]].
        rewrite Hkeep; [exact Hi | | exact E].
        apply (vget_in_range _ _ _ Hi). }
    destruct Hc as (q & Hq & Heq & Hnq). exists q. split; [| exact Heq].
    rewrite Hv1, <- compact_by_self.
    rewrite (vget_compact_by (vertices m') (vertices m') _ q eq_refl Hq).
    + exact Hq.
    + unfold isnan. rewrite Hnq. reflexivity.
  - unfold compacted. cbn [faces]. rewrite Hfs, map_map.
    apply map_ext. intros [a b c]. reflexivity.
Qed.

(** X13. Deduplication followed by compaction keeps the geometry of a
    mesh with NaN-free vertices and face indices in range: the result has
    no two equal vertices and no NaN vertex, each of its vertices is a
    vertex of the input, each vertex of the input has an equal vertex in
    it, it has as many faces, with indices in range, and each corner of
    each face designates a position equal to the one it designated
    before. *)
Theorem cleanup_keeps_geometry (m : Mesh) (ord : list Z) (fuel : nat) :
  vsize (vertices m) < 2 ^ 31 ->
  Forall (fun p => P3.nan_free p = true) (vertices m) ->
  faces_in_range m ->
  sorted_indices m ord ->
  (enough_fuel (length (vertices m)) <= fuel)%nat ->
  exists m1,
    cleanup ord fuel m = Ok m1
    /\ pairwise_distinct (vertices m1)
    /\ (forall p, p ∈ vertices m1 -> p ∈ vertices m /\ P3.nan_free p = true)
    /\ (forall p, p ∈ vertices m ->
          exists q, q ∈ vertices m1 /\ P3.eqb q p = true)
    /\ faces_in_range m1
    /\ length (faces m1) = length (faces m)
    /\ (forall (k : nat) f, faces m !! k = Some f ->
          exists f', faces m1 !! k = Some f'
            /\ same_position (vertices m) (vertices m1) (idx0 f) (idx0 f')
            /\ same_position (vertices m) (vertices m1) (idx1 f) (idx1 f')
            /\ same_position (vertices m) (vertices m1) (idx2 f) (idx2 f')).
Proof.
  intros Hsize Hnan Hfaces Hsorted Hfuel.
  destruct (cleanup_facts m ord Hsize Hnan Hfaces Hsorted)
    as (m' & alias & Hrun & Hdist & Hsub & Hmove & Hfs).
  exists (compacted m').
  assert (Hcorner : forall f i, f ∈ faces m -> i ∈ indices f ->
            same_position (vertices m) (vertices (compacted m')) i
              (new_index (vertices m') (resolve_alias alias i))).
  { intros f i Hf Hi.
    destruct (vget_exists (vertices m) i (Hfaces f i Hf Hi)) as [p Hp].
    destruct (Hmove i p Hp) as (q & Hq & Heq).
    exists p, q. auto. }
  split; [apply Hrun; exact Hfuel |]. split; [exact Hdist |].
  split; [exact Hsub |]. split; [| split; [| split]].
  - intros p Hp. apply list_elem_of_lookup_1 in Hp as [i Hi].
    assert (Hg : vget (vertices m) (Z.of_nat i) = Ok p)
      by (rewrite vget_of_nat, Hi; reflexivity).
    destruct (Hmove _ p Hg) as (q & Hq & Heq).
    exists q. split; [| exact Heq].
    apply vget_Ok in Hq as [_ Hq]. apply list_elem_of_lookup_2 in Hq.
    exact Hq.
  - intros f i Hf Hi. rewrite Hfs in Hf.
    apply list_elem_of_fmap in Hf as (f0 & -> & Hf0).
    apply indices_map_indices in Hi as (i0 & Hi0 & ->).
    destruct (Hcorner f0 i0 Hf0 Hi0) as (p & q & _ & Hq & _).
    apply (vget_in_range _ _ _ Hq).
  - rewrite Hfs. apply length_map.
  - intros k f Hk. rewrite Hfs. rewrite list_lookup_fmap, Hk.
    eexists. split; [reflexivity |].
    apply list_elem_of_lookup_2 in Hk.
    destruct f as [a b c]. cbn [map_indices idx0 idx1 idx2].
    split; [| split]; apply (Hcorner (mkFace a b c)); try exact Hk;
      unfold indices; cbn; rewrite !elem_of_cons; auto.
Qed.

Lemma cleanup_keeps_geometry_witness :
  exists m1,
    cleanup doubled_order 4 doubled = Ok m1
    /\ pairwise_distinct (vertices m1)
    /\ (forall p, p ∈ vertices m1 ->
          p ∈ vertices doubled /\ P3.nan_free p = true)
    /\ (forall p, p ∈ vertices doubled ->
          exists q, q ∈ vertices m1 /\ P3.eqb q p = true)
    /\ faces_in_range m1
    /\ length (faces m1) = length (faces doubled)
    /\ (forall (k : nat) f, faces doubled !! k = Some f ->
          exists f', faces m1 !! k = Some f'
            /\ same_position (vertices doubled) (vertices m1) (idx0 f) (idx0 f')
            /\ same_position (vertices doubled) (vertices m1) (idx1 f) (idx1 f')
            /\ same_position (vertices doubled) (vertices m1) (idx2 f) (idx2 f')).
Proof.
  apply (cleanup_keeps_geometry doubled doubled_order 4).
  - vm_compute. reflexivity.
  - repeat constructor.
  - intros f i Hf Hi. simpl in Hf. apply list_elem_of_singleton in Hf.
    subst f. unfold indices in Hi. simpl in Hi.
    rewrite !elem_of_cons, elem_of_nil in Hi.
    unfold index_in_range. vm_compute.
    destruct Hi as [-> | [-> | [-> | []]]]; split; congruence.
  - split; [apply perm_swap | vm_compute; reflexivity].
  - simpl. lia.
Defined.

(** ** The faces around a vertex *)

Lemma vresize_length {A : Type} (n : nat) (d : A) (v : list A) :
  length (vresize n d v) = n.
Proof.
  unfold vresize. rewrite length_app, length_take, length_replicate. lia.
Qed.

Lemma vresize_lookup {A : Type} (n : nat) (d : A) (v : list A) (k : nat) :
  (k < n)%nat ->
  vresize n d v !! k = Some (default d (v !! k)).
Proof.
  intros Hk. unfold vresize.
  destruct (decide (k < length v)%nat) as [Hl | Hl].
  - rewrite lookup_app_l by (rewrite length_take; lia).
    rewrite lookup_take_lt by lia.
    destruct (v !! k) eqn:E; [reflexivity |].
    apply lookup_ge_None in E. lia.
  - rewrite lookup_app_r by (rewrite length_take; lia).
    rewrite (proj2 (lookup_ge_None v k)) by lia.
    rewrite lookup_replicate_2 by (rewrite length_take; lia). reflexivity.
Qed.

Lemma push_face_cases (face_i : Z) (fpv : list (list Z)) (i : Z) :
  (exists a, fpv !! Z.to_nat i = Some a /\ 0 <= i < vsize fpv
             /\ push_face face_i fpv i
                = Ok (<[Z.to_nat i := a ++ [face_i]]> fpv))
  \/ (~ 0 <= i < vsize fpv /\ push_face face_i fpv i = Undef).
Proof.
  unfold push_face.
  destruct (vget_Ok_or_Undef fpv i) as [(a & Ha & Hi) | [Ha Hi]]; rewrite Ha.
  - left. exists a. apply vget_Ok in Ha as [_ Ha].
    split; [exact Ha | split; [exact Hi |]].
    cbn [mbind result_bind Res.bind]. unfold vset. unfold vsize in Hi.
    replace ((0 <=? i) && (i <? Z.of_nat (length fpv))) with true
      by (symmetry; apply andb_true_intro; split;
          [apply Z.leb_le | apply Z.ltb_lt]; lia).
    reflexivity.
  - right. split; [exact Hi | reflexivity].
Qed.

Lemma foldM_push_cases (face_i : Z) (l : list Z) :
  forall fpv : list (list Z),
    ((forall i, i ∈ l -> 0 <= i < vsize fpv)
     /\ exists fpv',
          foldM (push_face face_i) l fpv = Ok fpv'
          /\ length fpv' = length fpv
          /\ forall k : nat,
               fpv' !! k =
               (fun l0 => l0 ++ replicate
                            (length (filter (fun j => j = Z.of_nat k) l))
                            face_i)
                 <$> fpv !! k)
    \/ (~ (forall i, i ∈ l -> 0 <= i < vsize fpv)
        /\ foldM (push_face face_i) l fpv = Undef).
Proof.
  induction l as [| i l IH]; intros fpv.
  - left. split; [intros i Hi; inversion Hi |].
    exists fpv. split; [reflexivity | split; [reflexivity |]].
    intros k. cbn. destruct (fpv !! k); cbn; [rewrite app_nil_r |]; reflexivity.
  - cbn [foldM].
    destruct (push_face_cases face_i fpv i) as [(a & Ha & Hi & ->) | [Hi ->]].
    2: { right. split; [| reflexivity]. intros H. apply Hi, H.
         apply elem_of_cons. auto. }
    cbn [mbind result_bind Res.bind].
    destruct (IH (<[Z.to_nat i := a ++ [face_i]]> fpv))
      as [(Hl & fpv' & Hrun & Hlen & Hk) | [Hl Hrun]].
    + left. split.
      * intros j Hj. apply elem_of_cons in Hj as [-> | Hj]; [exact Hi |].
        specialize (Hl j Hj). unfold vsize in *.
        rewrite length_insert in Hl. exact Hl.
      * exists fpv'. split; [exact Hrun |].
        split; [rewrite Hlen; apply length_insert |].
        intros k. rewrite Hk, count_index_cons.
        destruct (decide (i = Z.of_nat k)) as [E | E].
        -- rewrite bool_decide_eq_true_2 by exact E.
           subst i. rewrite Nat2Z.id in *.
           rewrite list_lookup_insert_eq by (apply lookup_lt_Some in Ha; exact Ha).
           rewrite Ha. cbn. rewrite <- app_assoc. reflexivity.
        -- rewrite bool_decide_eq_false_2 by exact E.
           rewrite list_lookup_insert_ne by lia. reflexivity.
    + right. split; [| exact Hrun]. intros H. apply Hl.
      intros j Hj. unfold vsize. rewrite length_insert.
      apply H. apply elem_of_cons. auto.
Qed.

Lemma foldM_faces_cases (vs : list Point3f) (fs : list Face) :
  forall (s : nat) (fpv : list (list Z)),
    length fpv = length vs ->
    Z.of_nat (s + length fs) < 2 ^ 31 ->
    ((forall f, f ∈ fs -> face_in_range vs f)
     /\ exists fpv',
          foldM (fun fpv '(face_i, face) =>
                   foldM (push_face (wrap32 (Z.of_nat face_i)))
                         (indices face) fpv)
                (zip (seq s (length fs)) fs) fpv = Ok fpv'
          /\ length fpv' = length vs
          /\ forall k : nat,
               fpv' !! k = (fun l0 => l0 ++ incident_from s fs k) <$> fpv !! k)
    \/ (~ (forall f, f ∈ fs -> face_in_range vs f)
        /\ foldM (fun fpv '(face_i, face) =>
                    foldM (push_face (wrap32 (Z.of_nat face_i)))
                          (indices face) fpv)
                 (zip (seq s (length fs)) fs) fpv = Undef).
Proof.
  induction fs as [| f fs IH]; intros s fpv Hlen Hs.
  - left. split; [intros f Hf; inversion Hf |].
    exists fpv. split; [reflexivity | split; [exact Hlen |]].
    intros k. cbn. destruct (fpv !! k); cbn; [rewrite app_nil_r |]; reflexivity.
  - cbn [length seq zip zip_with foldM]. cbn [length] in Hs.
    rewrite wrap32_small by lia.
    destruct (foldM_push_cases (Z.of_nat s) (indices f) fpv)
      as [(Hf & fpv1 & -> & Hl1 & Hk1) | [Hf ->]].
    + cbn [mbind result_bind Res.bind].
      destruct (IH (S s) fpv1 ltac:(congruence) ltac:(lia))
        as [(Hfs & fpv' & -> & Hl' & Hk') | [Hfs ->]].
      * left. split.
        -- intros g Hg. apply elem_of_cons in Hg as [-> | Hg]; [| auto].
           intros i Hi. unfold vsize in *. rewrite <- Hlen. apply Hf, Hi.
        -- exists fpv'. split; [reflexivity | split; [exact Hl' |]].
           intros k. rewrite Hk', Hk1. cbn [incident_from]. unfold touches.
           destruct (fpv !! k); cbn; [rewrite app_assoc |]; reflexivity.
      * right. split; [| reflexivity]. intros H. apply Hfs.
        intros g Hg. apply H. apply elem_of_cons. auto.
    + right. split; [| reflexivity]. intros H. apply Hf.
      intros i Hi. unfold vsize. rewrite Hlen.
      apply (H f); [apply elem_of_cons; auto | exact Hi].
Qed.

(** X14. The vertex-face map is filled exactly when every face index
    designates a vertex; otherwise a look-up is out of bounds. When it is
    filled it has one entry per vertex, and the entry of a vertex is what
    the argument held for this vertex on entry (the argument is resized,
    not emptied) followed by the numbers of the faces around the vertex,
    in increasing order, each face once per corner on the vertex. *)
Theorem computeVertexFaceMap_spec (m : Mesh) (faces_per_vertex : list (list Z)) :
  Z.of_nat (length (faces m)) < 2 ^ 31 ->
  (faces_in_range m
   /\ exists fpv,
        computeVertexFaceMap m faces_per_vertex = Ok fpv
        /\ length fpv = length (vertices m)
        /\ forall v : nat, (v < length (vertices m))%nat ->
             fpv !! v = Some (default [] (faces_per_vertex !! v)
                              ++ incident (faces m) v))
  \/ (~ faces_in_range m
      /\ computeVertexFaceMap m faces_per_vertex = Undef).
Proof.
  intros Hn. unfold computeVertexFaceMap.
  destruct (foldM_faces_cases (vertices m) (faces m) 0
              (vresize (length (vertices m)) [] faces_per_vertex)
              (vresize_length _ _ _) Hn)
    as [(Hin & fpv & Hrun & Hlen & Hk) | [Hin Hrun]].
  - left. split; [intros f i Hf Hi; apply (Hin f Hf i Hi) |].
    exists fpv. split; [exact Hrun | split; [exact Hlen |]].
    intros v Hv. rewrite Hk, vresize_lookup by exact Hv. reflexivity.
  - right. split; [| exact Hrun].
    intros H. apply Hin. intros f Hf i Hi. apply (H f i Hf Hi).
Qed.

Lemma computeVertexFaceMap_spec_witness :
  (faces_in_range triangle_and_point
   /\ exists fpv,
        computeVertexFaceMap triangle_and_point stale_map = Ok fpv
        /\ length fpv = length (vertices triangle_and_point)
        /\ forall v : nat, (v < length (vertices triangle_and_point))%nat ->
             fpv !! v = Some (default [] (stale_map !! v)
                              ++ incident (faces triangle_and_point) v))
  \/ (~ faces_in_range triangle_and_point
      /\ computeVertexFaceMap triangle_and_point stale_map = Undef).
Proof.
  apply (computeVertexFaceMap_spec triangle_and_point stale_map).
  vm_compute. reflexivity.
Defined.

(** ** The cube and splat builders *)

Lemma cube_faces (n : Z) :
  0 <= n -> n + 8 < 2 ^ 31 ->
  map (map_indices (fun l => wrap32 (wrap32 n + l))) links
  = map (map_indices (fun l => n + l)) links.
Proof.
  intros H0 Hn. rewrite (wrap32_small n) by lia.
  unfold links, map_indices. cbn [map idx0 idx1 idx2].
  rewrite !wrap32_small by lia. reflexivity.
Qed.

Lemma cube_faces_range (n : Z) (f : Face) (i : Z) :
  f ∈ map (map_indices (fun l => n + l)) links -> i ∈ indices f ->
  n <= i < n + 8.
Proof.
  intros Hf Hi. apply list_elem_of_fmap in Hf as (f0 & -> & Hf0).
  apply indices_map_indices in Hi as (i0 & Hi0 & ->).
  unfold links in Hf0. rewrite !elem_of_cons in Hf0. rewrite elem_of_nil in Hf0.
  assert (H : 0 <= i0 < 8); [| lia].
  repeat (destruct Hf0 as [-> | Hf0];
          [unfold indices in Hi0; cbn in Hi0;
           rewrite !elem_of_cons in Hi0; rewrite elem_of_nil in Hi0; lia |]).
  contradiction.
Qed.

Lemma cube_corner_used (n k : Z) :
  0 <= k < 8 ->
  exists f, f ∈ map (map_indices (fun l => n + l)) links
            /\ n + k ∈ indices f.
Proof.
  intros Hk.
  assert (Hcase : k = 0 \/ k = 1 \/ k = 2 \/ k = 3 \/ k = 4 \/ k = 5
                  \/ k = 6 \/ k = 7) by lia.
  assert (Hin : forall f0, f0 ∈ links -> k ∈ indices f0 ->
            exists f, f ∈ map (map_indices (fun l => n + l)) links
                      /\ n + k ∈ indices f).
  { intros f0 Hf0 Hk0. exists (map_indices (fun l => n + l) f0). split.
    - apply list_elem_of_fmap. exists f0. auto.
    - apply indices_map_indices. exists k. auto. }
  destruct Hcase as [-> | [-> | [-> | [-> | [-> | [-> | [-> | ->]]]]]]].
  - apply (Hin (mkFace 0 1 3)); unfold links, indices; cbn;
      rewrite !elem_of_cons; auto.
  - apply (Hin (mkFace 0 1 3)); unfold links, indices; cbn;
      rewrite !elem_of_cons; auto.
  - apply (Hin (mkFace 0 3 2)); unfold links, indices; cbn;
      rewrite !elem_of_cons; auto.
  - apply (Hin (mkFace 0 1 3)); unfold links, indices; cbn;
      rewrite !elem_of_cons; auto.
  - apply (Hin (mkFace 0 4 5)); unfold links, indices; cbn;
      rewrite !elem_of_cons; auto 10.
  - apply (Hin (mkFace 0 5 1)); unfold links, indices; cbn;
      rewrite !elem_of_cons; auto.
  - apply (Hin (mkFace 2 7 6)); unfold links, indices; cbn;
      rewrite !elem_of_cons; auto 10.
  - apply (Hin (mkFace 3 5 7)); unfold links, indices; cbn;
      rewrite !elem_of_cons; auto 10.
Qed.

(** X15. Both cube builders append eight vertices and the same twelve
    faces. When the vertex count stays within an int, each new face has
    its three indices among the eight new vertices, each new vertex is a
    corner of some new face, the prior faces are kept, and face indices
    that were in range stay in range. *)
Theorem cube_builders_faces (m : Mesh) (center sizes : Point3f)
    (color : Vec3b) (cube : Rect3f) :
  vsize (vertices m) + 8 < 2 ^ 31 -> faces_in_range m ->
  exists new_faces,
    faces (addCube m center sizes color) = faces m ++ new_faces
    /\ faces (generate_mesh_from_cube m cube) = faces m ++ new_faces
    /\ length new_faces = 12%nat
    /\ vsize (vertices (addCube m center sizes color))
       = vsize (vertices m) + 8
    /\ vsize (vertices (generate_mesh_from_cube m cube))
       = vsize (vertices m) + 8
    /\ (forall f i, f ∈ new_faces -> i ∈ indices f ->
          vsize (vertices m) <= i < vsize (vertices m) + 8)
    /\ (forall k, 0 <= k < 8 ->
          exists f, f ∈ new_faces /\ vsize (vertices m) + k ∈ indices f)
    /\ faces_in_range (addCube m center sizes color)
    /\ faces_in_range (generate_mesh_from_cube m cube).
Proof.
  intros Hn Hfaces.
  assert (H0 : 0 <= vsize (vertices m)) by (unfold vsize; lia).
  exists (map (map_indices (fun l => vsize (vertices m) + l)) links).
  assert (Hrange : forall (vs' : list Point3f) f i,
            vsize vs' = vsize (vertices m) + 8 ->
            f ∈ faces m
                ++ map (map_indices (fun l => vsize (vertices m) + l)) links ->
            i ∈ indices f -> 0 <= i < vsize vs').
  { intros vs' f i Hvs Hf Hi. rewrite Hvs.
    apply elem_of_app in Hf as [Hf | Hf].
    - pose proof (Hfaces f i Hf Hi) as Hr. unfold index_in_range in Hr. lia.
    - pose proof (cube_faces_range _ f i Hf Hi). lia. }
  assert (Hv1 : vsize (vertices (addCube m center sizes color))
                = vsize (vertices m) + 8).
  { unfold addCube, vsize. cbn [vertices]. rewrite length_app. cbn. lia. }
  assert (Hv2 : vsize (vertices (generate_mesh_from_cube m cube))
                = vsize (vertices m) + 8).
  { unfold generate_mesh_from_cube, vsize. cbn [vertices].
    rewrite length_app. cbn. lia. }
  assert (Hf1 : faces (addCube m center sizes color)
                = faces m
                  ++ map (map_indices (fun l => vsize (vertices m) + l)) links).
  { unfold addCube. cbn [faces]. rewrite cube_faces by lia. reflexivity. }
  assert (Hf2 : faces (generate_mesh_from_cube m cube)
                = faces m
                  ++ map (map_indices (fun l => vsize (vertices m) + l)) links).
  { unfold generate_mesh_from_cube. cbn [faces].
    rewrite cube_faces by lia. reflexivity. }
  split; [exact Hf1 |]. split; [exact Hf2 |]. split; [reflexivity |].
  split; [exact Hv1 |]. split; [exact Hv2 |].
  split; [intros f i; apply cube_faces_range |].
  split; [intros k; apply cube_corner_used |]. split.
  - intros f i Hf Hi. rewrite Hf1 in Hf. apply (Hrange _ f i Hv1 Hf Hi).
  - intros f i Hf Hi. rewrite Hf2 in Hf. apply (Hrange _ f i Hv2 Hf Hi).
Qed.

Lemma cube_builders_faces_witness :
  exists new_faces,
    faces (addCube triangle (pt 0 0 0) (pt 2 2 2) (mkVec3b 9 9 9))
    = faces triangle ++ new_faces
    /\ faces (generate_mesh_from_cube triangle unit_box)
       = faces triangle ++ new_faces
    /\ length new_faces = 12%nat
    /\ vsize (vertices (addCube triangle (pt 0 0 0) (pt 2 2 2)
                                (mkVec3b 9 9 9)))
       = vsize (vertices triangle) + 8
    /\ vsize (vertices (generate_mesh_from_cube triangle unit_box))
       = vsize (vertices triangle) + 8
    /\ (forall f i, f ∈ new_faces -> i ∈ indices f ->
          vsize (vertices triangle) <= i < vsize (vertices triangle) + 8)
    /\ (forall k, 0 <= k < 8 ->
          exists f, f ∈ new_faces
                    /\ vsize (vertices triangle) + k ∈ indices f)
    /\ faces_in_range (addCube triangle (pt 0 0 0) (pt 2 2 2) (mkVec3b 9 9 9))
    /\ faces_in_range (generate_mesh_from_cube triangle unit_box).
Proof.
  apply (cube_builders_faces triangle).
  - vm_compute. reflexivity.
  - intros f i Hf Hi. apply list_elem_of_singleton in Hf. subst f.
    unfold indices in Hi. simpl in Hi.
    rewrite !elem_of_cons in Hi. rewrite elem_of_nil in Hi.
    unfold index_in_range, vsize. simpl. lia.
Defined.

(** X16. The two cube builders differ on a coloured receiver: [addCube]
    gives the eight new vertices the colour it is passed and the mesh
    still has colours, whereas [generate_mesh_from_cube] appends no
    colour, so that the mesh it returns no longer has colours and, when
    the receiver had a vertex, holds a colour array that is neither empty
    nor complete. *)
Theorem cube_builders_colors (m : Mesh) (center sizes : Point3f)
    (color : Vec3b) (cube : Rect3f) :
  hasColors m = true ->
  hasColors (addCube m center sizes color) = true
  /\ colors (addCube m center sizes color) = colors m ++ replicate 8 color
  /\ hasColors (generate_mesh_from_cube m cube) = false
  /\ colors (generate_mesh_from_cube m cube) = colors m
  /\ (vertices m <> [] -> ~ attrs_consistent (generate_mesh_from_cube m cube)).
Proof.
  intros Hc. pose proof Hc as Hlen. unfold hasColors in Hlen.
  apply Nat.eqb_eq in Hlen.
  split; [| split; [| split; [| split]]].
  - unfold addCube. rewrite Hc. unfold hasColors. cbn [vertices colors].
    apply Nat.eqb_eq. rewrite !length_app, Hlen. reflexivity.
  - unfold addCube. rewrite Hc. reflexivity.
  - unfold generate_mesh_from_cube, hasColors. cbn [vertices colors].
    apply Nat.eqb_neq. rewrite length_app, Hlen. cbn. lia.
  - reflexivity.
  - intros Hne (Hcol & _). apply length_pos in Hne.
    unfold generate_mesh_from_cube, attr_ok in Hcol. cbn [vertices colors] in Hcol.
    destruct Hcol as [Hnil | Hl].
    + rewrite Hnil in Hlen. cbn in Hlen. lia.
    + rewrite length_app in Hl. cbn in Hl. lia.
Qed.

Lemma cube_builders_colors_witness :
  hasColors (addCube red_point (pt 0 0 0) (pt 2 2 2) (mkVec3b 9 9 9)) = true
  /\ colors (addCube red_point (pt 0 0 0) (pt 2 2 2) (mkVec3b 9 9 9))
     = colors red_point ++ replicate 8 (mkVec3b 9 9 9)
  /\ hasColors (generate_mesh_from_cube red_point unit_box) = false
  /\ colors (generate_mesh_from_cube red_point unit_box) = colors red_point
  /\ (vertices red_point <> [] ->
      ~ attrs_consistent (generate_mesh_from_cube red_point unit_box)).
Proof.
  apply (cube_builders_colors red_point). reflexivity.
Defined.

Lemma surfel_faces_range (n : Z) (f : Face) (i : Z) :
  f ∈ [mkFace (n + 5) (n + 0) (n + 1); mkFace (n + 5) (n + 1) (n + 2);
       mkFace (n + 4) (n + 5) (n + 2); mkFace (n + 4) (n + 2) (n + 3)] ->
  i ∈ indices f -> n <= i < n + 6.
Proof.
  intros Hf Hi. rewrite !elem_of_cons in Hf. rewrite elem_of_nil in Hf.
  repeat (destruct Hf as [-> | Hf];
          [unfold indices in Hi; cbn in Hi;
           rewrite !elem_of_cons in Hi; rewrite elem_of_nil in Hi; lia |]).
  contradiction.
Qed.

Lemma surfel_corner_used (n k : Z) :
  0 <= k < 6 ->
  exists f,
    f ∈ [mkFace (n + 5) (n + 0) (n + 1); mkFace (n + 5) (n + 1) (n + 2);
         mkFace (n + 4) (n + 5) (n + 2); mkFace (n + 4) (n + 2) (n + 3)]
    /\ n + k ∈ indices f.
Proof.
  intros Hk.
  assert (Hcase : k = 0 \/ k = 1 \/ k = 2 \/ k = 3 \/ k = 4 \/ k = 5) by lia.
  destruct Hcase as [-> | [-> | [-> | [-> | [-> | ->]]]]].
  - exists (mkFace (n + 5) (n + 0) (n + 1)).
    unfold indices; cbn; rewrite !elem_of_cons; auto.
  - exists (mkFace (n + 5) (n + 0) (n + 1)).
    unfold indices; cbn; rewrite !elem_of_cons; auto.
  - exists (mkFace (n + 5) (n + 1) (n + 2)).
    unfold indices; cbn; rewrite !elem_of_cons; auto 6.
  - exists (mkFace (n + 4) (n + 2) (n + 3)).
    unfold indices; cbn; rewrite !elem_of_cons; auto 10.
  - exists (mkFace (n + 4) (n + 2) (n + 3)).
    unfold indices; cbn; rewrite !elem_of_cons; auto 10.
  - exists (mkFace (n + 5) (n + 0) (n + 1)).
    unfold indices; cbn; rewrite !elem_of_cons; auto.
Qed.

(** X17. A surfel is turned into a hexagon, or refused. When the norm
    of its normal is above 0.9 the builder appends six vertices, six
    times the colour and six times the normal of the surfel, and four
    faces whose indices lie among the six new vertices, each of which is
    a corner of one of them; face indices that were in range stay in
    range. In every other case, a NaN norm included, the builder stops
    with a fatal error and returns no mesh. *)
Theorem addSurfel_hexagon (cv_norm : Vec3f -> float)
    (orthogonal_basis : Vec3f -> Vec3f * Vec3f) (m : Mesh) (s : Surfel) :
  vsize (vertices m) + 6 < 2 ^ 31 -> faces_in_range m ->
  (cv_norm (normal s) = F32.quiet_NaN ->
   addSurfel cv_norm orthogonal_basis m s
   = Fatal "Normal must be normalized and valid!")
  /\ ((SFltb double_0_9 (cv_norm (normal s)) = true
       /\ exists m' new_faces,
            addSurfel cv_norm orthogonal_basis m s = Ok m'
            /\ vsize (vertices m') = vsize (vertices m) + 6
            /\ colors m' = colors m ++ replicate 6 (color s)
            /\ normals m' = normals m ++ replicate 6 (normal s)
            /\ faces m' = faces m ++ new_faces
            /\ length new_faces = 4%nat
            /\ (forall f i, f ∈ new_faces -> i ∈ indices f ->
                  vsize (vertices m) <= i < vsize (vertices m) + 6)
            /\ (forall k, 0 <= k < 6 ->
                  exists f, f ∈ new_faces
                            /\ vsize (vertices m) + k ∈ indices f)
            /\ faces_in_range m')
      \/ (SFltb double_0_9 (cv_norm (normal s)) = false
          /\ addSurfel cv_norm orthogonal_basis m s
             = Fatal "Normal must be normalized and valid!")).
Proof.
  intros Hn Hfaces.
  assert (H0 : 0 <= vsize (vertices m)) by (unfold vsize; lia).
  split.
  { intros Hnan. unfold addSurfel. rewrite Hnan. reflexivity. }
  unfold addSurfel.
  destruct (SFltb double_0_9 (cv_norm (normal s))); [left | right; auto].
  split; [reflexivity |].
  destruct (orthogonal_basis (normal s)) as [v1 v2].
  rewrite (wrap32_small (vsize (vertices m))) by lia.
  rewrite !wrap32_small by lia.
  eexists. eexists. split; [reflexivity |].
  cbn [vertices colors normals faces].
  split; [unfold vsize; rewrite length_app; cbn; lia |].
  split; [reflexivity |]. split; [reflexivity |]. split; [reflexivity |].
  split; [reflexivity |].
  split; [intros f i; apply surfel_faces_range |].
  split; [intros k; apply surfel_corner_used |].
  intros f i Hf Hi. unfold index_in_range, vsize. cbn [vertices faces] in *.
  rewrite length_app. cbn [length].
  apply elem_of_app in Hf as [Hf | Hf].
  - pose proof (Hfaces f i Hf Hi) as Hr. unfold index_in_range, vsize in Hr.
    lia.
  - pose proof (surfel_faces_range _ f i Hf Hi) as Hr. unfold vsize in Hr.
    lia.
Qed.

Lemma addSurfel_hexagon_witness :
  (unit_norm (normal sample_surfel) = F32.quiet_NaN ->
   addSurfel unit_norm some_basis triangle sample_surfel
   = Fatal "Normal must be normalized and valid!")
  /\ ((SFltb double_0_9 (unit_norm (normal sample_surfel)) = true
       /\ exists m' new_faces,
            addSurfel unit_norm some_basis triangle sample_surfel = Ok m'
            /\ vsize (vertices m') = vsize (vertices triangle) + 6
            /\ colors m' = colors triangle ++ replicate 6 (color sample_surfel)
            /\ normals m'
               = normals triangle ++ replicate 6 (normal sample_surfel)
            /\ faces m' = faces triangle ++ new_faces
            /\ length new_faces = 4%nat
            /\ (forall f i, f ∈ new_faces -> i ∈ indices f ->
                  vsize (vertices triangle) <= i
                  < vsize (vertices triangle) + 6)
            /\ (forall k, 0 <= k < 6 ->
                  exists f, f ∈ new_faces
                            /\ vsize (vertices triangle) + k ∈ indices f)
            /\ faces_in_range m')
      \/ (SFltb double_0_9 (unit_norm (normal sample_surfel)) = false
          /\ addSurfel unit_norm some_basis triangle sample_surfel
             = Fatal "Normal must be normalized and valid!")).
Proof.
  apply (addSurfel_hexagon unit_norm some_basis triangle sample_surfel).
  - vm_compute. reflexivity.
  - intros f i Hf Hi. apply list_elem_of_singleton in Hf. subst f.
    unfold indices in Hi. simpl in Hi.
    rewrite !elem_of_cons in Hi. rewrite elem_of_nil in Hi.
    unfold index_in_range, vsize. simpl. lia.
Defined.

(** ** The centre *)

Lemma SFadd_nan_l (prec emax : Z) (y : float) :
  SFadd prec emax S754_nan y = S754_nan.
Proof. reflexivity. Qed.

Lemma SFadd_nan_r (prec emax : Z) (x : float) :
  SFadd prec emax x S754_nan = S754_nan.
Proof. destruct x as [| [] | |]; reflexivity. Qed.

Lemma SFsub_nan_r (prec emax : Z) (x : float) :
  SFsub prec emax x S754_nan = S754_nan.
Proof. destruct x as [| [] | |]; reflexivity. Qed.

Lemma SFmul_nan_l (prec emax : Z) (y : float) :
  SFmul prec emax S754_nan y = S754_nan.
Proof. reflexivity. Qed.

Lemma isnan_eq (x : float) : F32.isnan x = true <-> x = S754_nan.
Proof. destruct x; cbn; split; congruence. Qed.

(** A NaN coordinate among the summands is a NaN coordinate of the sum. *)
Lemma sum_nan (c : Point3f -> float) (vs : list Point3f) :
  (forall a b, c (P3.add a b) = F32.add (c a) (c b)) ->
  forall acc,
    c acc = S754_nan \/ (exists p, p ∈ vs /\ c p = S754_nan) ->
    c (fold_left P3.add vs acc) = S754_nan.
Proof.
  intros Hc. induction vs as [| q vs IH]; intros acc H.
  - destruct H as [H | (p & Hp & _)]; [exact H | inversion Hp].
  - cbn [fold_left]. apply IH.
    destruct H as [H | (p & Hp & Hn)].
    + left. rewrite Hc, H. apply SFadd_nan_l.
    + apply elem_of_cons in Hp as [-> | Hp].
      * left. rewrite Hc, Hn. apply SFadd_nan_r.
      * right. exists p. auto.
Qed.

Lemma isnan_coord (p : Point3f) :
  isnan p = true <->
  px p = S754_nan \/ py p = S754_nan \/ pz p = S754_nan.
Proof.
  unfold isnan, P3.nan_free. rewrite <- !isnan_eq.
  destruct (F32.isnan (px p)), (F32.isnan (py p)), (F32.isnan (pz p));
    cbn; split; intros H; try reflexivity; try discriminate; auto;
    destruct H as [H | [H | H]]; discriminate.
Qed.

(** X18. A vertex with a NaN coordinate, such as the sentinel that the
    deduplication writes, makes the centre of the mesh NaN, and
    [centerize] then turns every vertex of the mesh into a NaN vertex. *)
Theorem center_nan (m : Mesh) (p : Point3f) :
  p ∈ vertices m -> isnan p = true ->
  isnan (center m) = true
  /\ snd (centerize m) = center m
  /\ length (vertices (fst (centerize m))) = length (vertices m)
  /\ Forall (fun q => isnan q = true) (vertices (fst (centerize m))).
Proof.
  intros Hp Hnan.
  assert (Hc : isnan (center m) = true).
  { apply isnan_coord. apply isnan_coord in Hnan.
    unfold center, scale_by_double. cbn [px py pz].
    destruct Hnan as [H | [H | H]]; [left | right; left | right; right];
      rewrite (sum_nan _ (vertices m) (fun a b => eq_refl) P3.zero
                 (or_intror (ex_intro _ p (conj Hp H))));
      reflexivity. }
  split; [exact Hc |]. split; [reflexivity |].
  unfold centerize. cbn [fst with_vertices vertices].
  split; [apply length_map |].
  apply Forall_forall. intros q Hq.
  apply list_elem_of_fmap in Hq as (q0 & -> & _).
  apply isnan_coord. apply isnan_coord in Hc.
  unfold P3.sub. cbn [px py pz].
  destruct Hc as [H | [H | H]]; [left | right; left | right; right];
    rewrite H; apply SFsub_nan_r.
Qed.

Lemma center_nan_witness :
  isnan (center painted) = true
  /\ snd (centerize painted) = center painted
  /\ length (vertices (fst (centerize painted))) = length (vertices painted)
  /\ Forall (fun q => isnan q = true) (vertices (fst (centerize painted))).
Proof.
  apply (center_nan painted infinite_point).
  - unfold painted. cbn [vertices]. rewrite !elem_of_cons. auto.
  - reflexivity.
Defined.

(** X19. A mesh without vertices has no centre: the sum is divided by
    zero, [center] returns the point whose coordinates are all NaN, and
    [centerize] returns it too and leaves the mesh as it is. *)
Theorem center_empty (m : Mesh) :
  vertices m = [] ->
  center m = infinite_point /\ centerize m = (m, infinite_point).
Proof.
  intros Hnil.
  assert (Hc : center m = infinite_point).
  { unfold center. rewrite Hnil. reflexivity. }
  split; [exact Hc |]. unfold centerize. rewrite Hc. f_equal.
  unfold with_vertices. rewrite Hnil. destruct m. cbn in *. subst.
  reflexivity.
Qed.

Lemma center_empty_witness :
  center empty_mesh = infinite_point
  /\ centerize empty_mesh = (empty_mesh, infinite_point).
Proof. apply (center_empty empty_mesh). reflexivity. Defined.

(** ** The PLY writer *)

Lemma string_app_cons (a : Ascii.ascii) (s t : string) :
  String a s +:+ t = String a (s +:+ t).
Proof. reflexivity. Qed.

Lemma string_app_nil (t : string) : "" +:+ t = t.
Proof. reflexivity. Qed.

Lemma string_length_app (s t : string) :
  String.length (s +:+ t) = (String.length s + String.length t)%nat.
Proof.
  induction s as [| a s IH]; [reflexivity |].
  rewrite string_app_cons. simpl. f_equal. exact IH.
Qed.

Lemma string_app_assoc (s t u : string) :
  (s +:+ t) +:+ u = s +:+ (t +:+ u).
Proof.
  induction s as [| a s IH]; [reflexivity |].
  rewrite !string_app_cons. f_equal. exact IH.
Qed.

Lemma substring_stem (s t : string) :
  substring 0 (String.length s) (s +:+ t) = s.
Proof.
  induction s as [| a s IH].
  - rewrite string_app_nil. destruct t; reflexivity.
  - rewrite string_app_cons. simpl. f_equal. exact IH.
Qed.

(** X20. The texture goes to a file whose name always ends in .png: a
    name of more than three characters has its last four characters
    replaced by .png, a shorter one gets .texture.png appended. So the
    texture file is the mesh file itself exactly when the mesh file name
    ends in .png. *)
Theorem texture_filename_spec (filename : string) :
  (exists stem, texture_filename filename = stem +:+ ".png")
  /\ (forall stem ext, filename = stem +:+ ext -> String.length ext = 4%nat ->
        texture_filename filename = stem +:+ ".png")
  /\ ((String.length filename <= 3)%nat ->
      texture_filename filename = filename +:+ ".texture.png")
  /\ (texture_filename filename = filename
      <-> exists stem, filename = stem +:+ ".png").
Proof.
  assert (Hext : forall stem ext, filename = stem +:+ ext ->
            String.length ext = 4%nat ->
            texture_filename filename = stem +:+ ".png").
  { intros stem ext -> Hl. unfold texture_filename.
    rewrite string_length_app, Hl.
    replace (3 <? String.length stem + 4)%nat with true
      by (symmetry; apply Nat.ltb_lt; lia).
    replace (String.length stem + 4 - 4)%nat with (String.length stem) by lia.
    rewrite substring_stem. reflexivity. }
  assert (Hshort : (String.length filename <= 3)%nat ->
            texture_filename filename = filename +:+ ".texture.png").
  { intros Hl. unfold texture_filename.
    replace (3 <? String.length filename)%nat with false
      by (symmetry; apply Nat.ltb_ge; lia).
    reflexivity. }
  split; [| split; [exact Hext | split; [exact Hshort |]]].
  - unfold texture_filename. destruct (3 <? String.length filename)%nat.
    + eexists. reflexivity.
    + exists (filename +:+ ".texture").
      rewrite string_app_assoc. reflexivity.
  - split.
    + intros H. destruct (le_lt_dec (String.length filename) 3) as [Hl | Hl].
      * rewrite (Hshort Hl) in H.
        apply (f_equal String.length) in H.
        rewrite string_length_app in H. simpl in H. lia.
      * unfold texture_filename in H.
        replace (3 <? String.length filename)%nat with true in H
          by (symmetry; apply Nat.ltb_lt; lia).
        eexists. symmetry. exact H.
    + intros (stem & H). apply (Hext stem ".png") in H as H'; [| reflexivity].
      rewrite H'. symmetry. exact H.
Qed.

Lemma declared_scalars_app (a b : list string) :
  declared_scalars (a ++ b) = (declared_scalars a + declared_scalars b)%nat.
Proof.
  induction a as [| l a IH]; [reflexivity |].
  cbn [app declared_scalars]. rewrite IH. lia.
Qed.

Lemma element_vertex_not_scalar (s : string) :
  is_scalar_property ("element vertex " +:+ s) = false.
Proof. reflexivity. Qed.

Lemma element_face_not_scalar (s : string) :
  is_scalar_property ("element face " +:+ s) = false.
Proof. reflexivity. Qed.

(** The header declares three scalar properties for the position, and
    three, two and three more for the normals, the texture coordinates
    and the colours that the mesh has. *)
Lemma declared_scalars_header (hasFaceTexcoords : Mesh -> bool) (m : Mesh) :
  declared_scalars (ply_header hasFaceTexcoords m)
  = (3 + (if hasNormals m then 3 else 0) + (if hasTexcoords m then 2 else 0)
     + (if hasColors m then 3 else 0))%nat.
Proof.
  unfold ply_header. rewrite !declared_scalars_app.
  cbn [declared_scalars].
  rewrite element_vertex_not_scalar.
  destruct (hasNormals m), (hasTexcoords m), (hasColors m), (hasFaces m),
    (hasFaceTexcoords m);
    cbn [orb declared_scalars app];
    rewrite ?element_face_not_scalar; reflexivity.
Qed.

Lemma vertex_line_shape (m : Mesh) (i : nat) (p : Point3f) :
  (i < length (vertices m))%nat ->
  exists ns ts cs,
    vertex_line m (i, p)
    = Ok ([TFloat (px p); TFloat (py p); TFloat (pz p)] ++ ns ++ ts ++ cs)
    /\ (if hasNormals m
        then exists n, normals m !! i = Some n
               /\ ns = [TFloat (nan_to_zero (px n));
                        TFloat (nan_to_zero (py n));
                        TFloat (nan_to_zero (pz n))]
        else ns = [])
    /\ length ts = (if hasTexcoords m then 2 else 0)%nat
    /\ length cs = (if hasColors m then 3 else 0)%nat.
Proof.
  intros Hi. unfold vertex_line.
  assert (Hget : forall (A : Type) (v : list A),
            length v = length (vertices m) ->
            exists a, v !! i = Some a /\ vget v (Z.of_nat i) = Ok a).
  { intros A v Hl. destruct (v !! i) as [a |] eqn:E.
    - exists a. split; [reflexivity |]. rewrite vget_of_nat, E. reflexivity.
    - apply lookup_ge_None in E. lia. }
  destruct (hasNormals m) eqn:En.
  - unfold hasNormals in En. apply Nat.eqb_eq in En.
    destruct (Hget _ _ En) as (n & Hn & ->). cbn [mbind result_bind Res.bind].
    destruct (hasTexcoords m) eqn:Et.
    + unfold hasTexcoords in Et. apply Nat.eqb_eq in Et.
      destruct (Hget _ _ Et) as (t & _ & ->). cbn [mbind result_bind Res.bind].
      destruct (hasColors m) eqn:Ec.
      * unfold hasColors in Ec. apply Nat.eqb_eq in Ec.
        destruct (Hget _ _ Ec) as (c & _ & ->).
        cbn [mbind result_bind Res.bind].
        eexists _, _, _. split; [reflexivity |].
        split; [exists n; auto | split; reflexivity].
      * cbn [mbind result_bind Res.bind].
        eexists _, _, _. split; [reflexivity |].
        split; [exists n; auto | split; reflexivity].
    + cbn [mbind result_bind Res.bind].
      destruct (hasColors m) eqn:Ec.
      * unfold hasColors in Ec. apply Nat.eqb_eq in Ec.
        destruct (Hget _ _ Ec) as (c & _ & ->).
        cbn [mbind result_bind Res.bind].
        eexists _, _, _. split; [reflexivity |].
        split; [exists n; auto | split; reflexivity].
      * cbn [mbind result_bind Res.bind].
        eexists _, _, _. split; [reflexivity |].
        split; [exists n; auto | split; reflexivity].
  - cbn [mbind result_bind Res.bind].
    destruct (hasTexcoords m) eqn:Et.
    + unfold hasTexcoords in Et. apply Nat.eqb_eq in Et.
      destruct (Hget _ _ Et) as (t & _ & ->). cbn [mbind result_bind Res.bind].
      destruct (hasColors m) eqn:Ec.
      * unfold hasColors in Ec. apply Nat.eqb_eq in Ec.
        destruct (Hget _ _ Ec) as (c & _ & ->).
        cbn [mbind result_bind Res.bind].
        eexists _, _, _. split; [reflexivity |].
        split; [reflexivity | split; reflexivity].
      * cbn [mbind result_bind Res.bind].
        eexists _, _, _. split; [reflexivity |].
        split; [reflexivity | split; reflexivity].
    + cbn [mbind result_bind Res.bind].
      destruct (hasColors m) eqn:Ec.
      * unfold hasColors in Ec. apply Nat.eqb_eq in Ec.
        destruct (Hget _ _ Ec) as (c & _ & ->).
        cbn [mbind result_bind Res.bind].
        eexists _, _, _. split; [reflexivity |].
        split; [reflexivity | split; reflexivity].
      * cbn [mbind result_bind Res.bind].
        eexists _, _, _. split; [reflexivity |].
        split; [reflexivity | split; reflexivity].
Qed.

Lemma vertex_lines_run (m : Mesh) (vs : list Point3f) :
  forall s : nat,
    (s + length vs <= length (vertices m))%nat ->
    exists ls,
      mapM_res (vertex_line m) (zip (seq s (length vs)) vs) = Ok ls
      /\ length ls = length vs
      /\ forall (k : nat) p, vs !! k = Some p ->
           exists l, ls !! k = Some l
                     /\ vertex_line m ((s + k)%nat, p) = Ok l.
Proof.
  induction vs as [| q vs IH]; intros s Hs.
  - exists []. split; [reflexivity | split; [reflexivity |]].
    intros k p Hk. discriminate.
  - cbn [length] in Hs. cbn [length seq zip zip_with mapM_res].
    destruct (vertex_line_shape m s q ltac:(lia)) as (ns & ts & cs & Hl & _).
    rewrite Hl. cbn [mbind result_bind Res.bind].
    destruct (IH (S s) ltac:(lia)) as (ls & Hrun & Hlen & Hk).
    rewrite Hrun. cbn [mbind result_bind Res.bind].
    eexists. split; [reflexivity |]. split; [cbn; rewrite Hlen; reflexivity |].
    intros [| k] p Hp; cbn in Hp.
    + inversion Hp. subst q. rewrite Nat.add_0_r.
      eexists. split; [reflexivity | exact Hl].
    + destruct (Hk k p Hp) as (l & Hlk & Hline).
      exists l. split; [exact Hlk |].
      replace (s + S k)%nat with (S s + k)%nat by lia. exact Hline.
Qed.

Lemma shared_uv_run (m : Mesh) (l : list Z) :
  (forall i, i ∈ l -> 0 <= i < vsize (texcoords m)) ->
  exists uv, mapM_res (shared_uv m) l = Ok uv
             /\ length (concat uv) = (2 * length l)%nat.
Proof.
  induction l as [| i l IH]; intros Hl.
  - exists []. split; reflexivity.
  - cbn [mapM_res].
    destruct (vget_exists (texcoords m) i) as [t Ht];
      [apply Hl; apply elem_of_cons; auto |].
    assert (Hs : shared_uv m i
                 = Ok [TFloat (p2x t); TDouble (F64.sub F64.one (p2y t))])
      by (unfold shared_uv; rewrite Ht; reflexivity).
    rewrite Hs. cbn [mbind result_bind Res.bind].
    destruct IH as (uv & -> & Hlen);
      [intros j Hj; apply Hl; apply elem_of_cons; auto |].
    cbn [mbind result_bind Res.bind].
    eexists. split; [reflexivity |]. cbn [concat length app].
    rewrite Hlen. cbn. lia.
Qed.

Lemma face_lines_run (hasFaceTexcoords : Mesh -> bool) (m : Mesh)
    (fs : list Face) :
  hasFaceTexcoords m = false ->
  (hasTexcoords m = true ->
   forall f i, f ∈ fs -> i ∈ indices f -> index_in_range m i) ->
  forall s : nat,
    exists fls,
      mapM_res (face_line hasFaceTexcoords m) (zip (seq s (length fs)) fs)
      = Ok fls
      /\ length (concat fls)
         = ((if hasTexcoords m then 2 else 1) * length fs)%nat
      /\ Forall (fun line => length line = 4%nat \/ length line = 7%nat)
                (concat fls).
Proof.
  intros Hft Hr. induction fs as [| f fs IH]; intros s.
  - exists []. split; [reflexivity |]. split; [cbn; lia | constructor].
  - cbn [length seq zip zip_with mapM_res].
    assert (Hline : face_line hasFaceTexcoords m (s, f)
              = if hasTexcoords m
                then uv ← mapM_res (shared_uv m) (indices f);
                     Ok [TInt (numVertices f) :: map TInt (indices f);
                         TInt 6 :: concat uv]
                else Ok [TInt (numVertices f) :: map TInt (indices f)]).
    { unfold face_line. rewrite Hft. destruct (hasTexcoords m); reflexivity. }
    rewrite Hline. clear Hline.
    assert (Hr' : hasTexcoords m = true ->
              forall g i, g ∈ fs -> i ∈ indices g -> index_in_range m i).
    { intros Ht g i Hg Hi. apply (Hr Ht g i); [| exact Hi].
      apply elem_of_cons. auto. }
    destruct (IH Hr' (S s)) as (fls & Hrun & Hlen & Hall).
    destruct (hasTexcoords m) eqn:Et.
    + destruct (shared_uv_run m (indices f)) as (uv & -> & Huv).
      { intros i Hi. pose proof (Hr eq_refl f i) as H.
        unfold index_in_range, vsize in *.
        unfold hasTexcoords in Et. apply Nat.eqb_eq in Et. rewrite Et.
        apply H; [apply elem_of_cons; auto | exact Hi]. }
      cbn [mbind result_bind Res.bind]. rewrite Hrun.
      cbn [mbind result_bind Res.bind].
      eexists. split; [reflexivity |]. cbn [concat app length].
      split; [rewrite Hlen; lia |].
      constructor; [left; reflexivity |].
      constructor; [right; cbn [length]; rewrite Huv; reflexivity | exact Hall].
    + cbn [mbind result_bind Res.bind]. rewrite Hrun.
      cbn [mbind result_bind Res.bind].
      eexists. split; [reflexivity |]. cbn [concat app length].
      split; [rewrite Hlen; lia |].
      constructor; [left; reflexivity | exact Hall].
Qed.

(** What the writer returns for a mesh without wedge coordinates whose
    face indices are in range when it has texture coordinates. *)
Lemma saveToPlyFile_Ok (hasFaceTexcoords : Mesh -> bool) (m : Mesh)
    (filename : string) :
  hasFaceTexcoords m = false ->
  (hasTexcoords m = true -> faces_in_range m) ->
  exists vls fls,
    saveToPlyFile hasFaceTexcoords m filename
    = Ok (mkPlyText
            match texture m with
            | Some image => Some (texture_filename filename, image)
            | None => None
            end
            (ply_header hasFaceTexcoords m) vls fls)
    /\ length vls = length (vertices m)
    /\ (forall (k : nat) p, vertices m !! k = Some p ->
          exists l, vls !! k = Some l /\ vertex_line m (k, p) = Ok l)
    /\ length fls
       = ((if hasTexcoords m then 2 else 1) * length (faces m))%nat
    /\ Forall (fun line => length line = 4%nat \/ length line = 7%nat) fls.
Proof.
  intros Hft Hr. unfold saveToPlyFile.
  destruct (vertex_lines_run m (vertices m) 0 ltac:(lia))
    as (vls & -> & Hlen & Hk).
  cbn [mbind result_bind Res.bind].
  destruct (face_lines_run hasFaceTexcoords m (faces m) Hft Hr 0)
    as (fls & Hrun & Hfl & Hall).
  destruct (hasFaces m) eqn:Ef.
  - rewrite Hrun. cbn [mbind result_bind Res.bind].
    exists vls, (concat fls). split; [reflexivity |].
    split; [exact Hlen | split; [exact Hk | split; [exact Hfl | exact Hall]]].
  - cbn [mbind result_bind Res.bind].
    exists vls, []. split; [reflexivity |].
    split; [exact Hlen | split; [exact Hk |]].
    unfold hasFaces in Ef. apply negb_false_iff, Nat.eqb_eq in Ef.
    rewrite Ef. split; [cbn; lia | constructor].
Qed.

(** X21. For a mesh without wedge coordinates (and with face indices in
    range when it has texture coordinates) the writer returns, and the
    body agrees with the header: there are as many vertex lines as the
    element line of the header announces, each vertex line holds as many
    numbers as the header declares scalar properties, each face takes one
    line of four numbers, followed when the mesh has texture coordinates
    by a line of seven, and the texture is written exactly when the mesh
    has one. *)
Theorem saveToPlyFile_body_matches_header (hasFaceTexcoords : Mesh -> bool)
    (m : Mesh) (filename : string) :
  hasFaceTexcoords m = false ->
  (hasTexcoords m = true -> faces_in_range m) ->
  exists out,
    saveToPlyFile hasFaceTexcoords m filename = Ok out
    /\ "element vertex " +:+ pretty (length (vertex_lines out)) ∈ header out
    /\ Forall (fun l => length l = declared_scalars (header out))
              (vertex_lines out)
    /\ length (face_lines out)
       = ((if hasTexcoords m then 2 else 1) * length (faces m))%nat
    /\ Forall (fun line => length line = 4%nat \/ length line = 7%nat)
              (face_lines out)
    /\ (hasFaces m = true ->
        "element face " +:+ pretty (length (faces m)) ∈ header out)
    /\ (texture_file out = None <-> texture m = None).
Proof.
  intros Hft Hr.
  destruct (saveToPlyFile_Ok hasFaceTexcoords m filename Hft Hr)
    as (vls & fls & Hrun & Hlen & Hk & Hfl & Hall).
  eexists. split; [exact Hrun |].
  cbn [header vertex_lines face_lines texture_file].
  split; [| split; [| split; [exact Hfl | split; [exact Hall | split]]]].
  - rewrite Hlen. unfold ply_header. rewrite !elem_of_app.
    left. rewrite !elem_of_cons. auto.
  - rewrite declared_scalars_header. apply Forall_forall. intros l Hl.
    apply list_elem_of_lookup_1 in Hl as [k Hl].
    assert (Hkn : (k < length (vertices m))%nat)
      by (apply lookup_lt_Some in Hl; lia).
    destruct (vertices m !! k) as [p |] eqn:Ep;
      [| apply lookup_ge_None in Ep; lia].
    destruct (Hk k p Ep) as (l' & Hl' & Hline).
    rewrite Hl in Hl'. inversion Hl'. subst l'.
    destruct (vertex_line_shape m k p Hkn)
      as (ns & ts & cs & Hshape & Hns & Hts & Hcs).
    rewrite Hline in Hshape. inversion Hshape. subst l.
    cbn [length]. rewrite !length_app, Hts, Hcs.
    destruct (hasNormals m).
    + destruct Hns as (n & _ & ->). cbn [length]. lia.
    + rewrite Hns. cbn [length]. lia.
  - intros Hf. unfold ply_header. rewrite Hf. rewrite !elem_of_app.
    do 4 right. left. left. apply elem_of_cons. auto.
  - destruct (texture m); split; intros H; congruence.
Qed.

Lemma saveToPlyFile_body_matches_header_witness :
  exists out,
    saveToPlyFile no_wedges painted "mesh.ply" = Ok out
    /\ "element vertex " +:+ pretty (length (vertex_lines out)) ∈ header out
    /\ Forall (fun l => length l = declared_scalars (header out))
              (vertex_lines out)
    /\ length (face_lines out)
       = ((if hasTexcoords painted then 2 else 1) * length (faces painted))%nat
    /\ Forall (fun line => length line = 4%nat \/ length line = 7%nat)
              (face_lines out)
    /\ (hasFaces painted = true ->
        "element face " +:+ pretty (length (faces painted)) ∈ header out)
    /\ (texture_file out = None <-> texture painted = None).
Proof.
  apply (saveToPlyFile_body_matches_header no_wedges painted "mesh.ply").
  - reflexivity.
  - intros _ f j Hf Hj. apply list_elem_of_singleton in Hf. subst f.
    unfold indices in Hj. simpl in Hj.
    rewrite !elem_of_cons in Hj. rewrite elem_of_nil in Hj.
    unfold index_in_range, vsize. simpl. lia.
Defined.

(** X22. The writer hides a NaN in a normal and not in a position: on
    the line of a vertex the first three numbers are its coordinates as
    they are, so that a NaN vertex such as the sentinel of the
    deduplication is written with NaN, whereas the three numbers of its
    normal, when the mesh has normals, are the coordinates of the normal
    with every NaN replaced by zero. *)
Theorem saveToPlyFile_nan_columns (hasFaceTexcoords : Mesh -> bool)
    (m : Mesh) (filename : string) :
  hasFaceTexcoords m = false ->
  (hasTexcoords m = true -> faces_in_range m) ->
  exists out,
    saveToPlyFile hasFaceTexcoords m filename = Ok out
    /\ forall (k : nat) p, vertices m !! k = Some p ->
         exists l,
           vertex_lines out !! k = Some l
           /\ take 3 l = [TFloat (px p); TFloat (py p); TFloat (pz p)]
           /\ (isnan p = true ->
               exists t, t ∈ take 3 l /\ is_nan_token t = true)
           /\ (hasNormals m = true ->
               exists n, normals m !! k = Some n
                 /\ take 3 (drop 3 l)
                    = [TFloat (nan_to_zero (px n));
                       TFloat (nan_to_zero (py n));
                       TFloat (nan_to_zero (pz n))]
                 /\ Forall (fun t => is_nan_token t = false)
                           (take 3 (drop 3 l))).
Proof.
  intros Hft Hr.
  destruct (saveToPlyFile_Ok hasFaceTexcoords m filename Hft Hr)
    as (vls & fls & Hrun & Hlen & Hk & _).
  eexists. split; [exact Hrun |]. cbn [vertex_lines].
  intros k p Hp. destruct (Hk k p Hp) as (l & Hl & Hline).
  exists l. split; [exact Hl |].
  destruct (vertex_line_shape m k p ltac:(apply lookup_lt_Some in Hp; lia))
    as (ns & ts & cs & Hshape & Hns & _).
  rewrite Hline in Hshape. inversion Hshape. subst l. clear Hshape.
  split; [reflexivity |]. split.
  - intros Hnan. apply isnan_coord in Hnan. cbn [take app].
    destruct Hnan as [H | [H | H]];
      [exists (TFloat (px p)) | exists (TFloat (py p)) | exists (TFloat (pz p))];
      (split; [rewrite !elem_of_cons; auto | cbn; rewrite H; reflexivity]).
  - intros Hn. rewrite Hn in Hns. destruct Hns as (n & Hnk & ->).
    exists n. split; [exact Hnk |]. split; [reflexivity |].
    cbn [app drop take].
    assert (Hz : forall x, F32.isnan (nan_to_zero x) = false)
      by (intros x; unfold nan_to_zero; destruct x; reflexivity).
    repeat constructor; cbn; apply Hz.
Qed.

Lemma saveToPlyFile_nan_columns_witness :
  exists out,
    saveToPlyFile no_wedges painted "mesh.ply" = Ok out
    /\ forall (k : nat) p, vertices painted !! k = Some p ->
         exists l,
           vertex_lines out !! k = Some l
           /\ take 3 l = [TFloat (px p); TFloat (py p); TFloat (pz p)]
           /\ (isnan p = true ->
               exists t, t ∈ take 3 l /\ is_nan_token t = true)
           /\ (hasNormals painted = true ->
               exists n, normals painted !! k = Some n
                 /\ take 3 (drop 3 l)
                    = [TFloat (nan_to_zero (px n));
                       TFloat (nan_to_zero (py n));
                       TFloat (nan_to_zero (pz n))]
                 /\ Forall (fun t => is_nan_token t = false)
                           (take 3 (drop 3 l))).
Proof.
  apply (saveToPlyFile_nan_columns no_wedges painted "mesh.ply").
  - reflexivity.
  - intros _ f j Hf Hj. apply list_elem_of_singleton in Hf. subst f.
    unfold indices in Hj. simpl in Hj.
    rewrite !elem_of_cons in Hj. rewrite elem_of_nil in Hj.
    unfold index_in_range, vsize. simpl. lia.
Defined.

(** ** The PLY loader *)

(** X23. The loader never fills the texture coordinates: whatever the
    file declares, a loaded mesh has an empty texture coordinate array,
    so that a mesh with a vertex comes back without texture coordinates.
    The wedge coordinates and the texture of the receiver are not reset,
    and nothing else of the receiver survives the load. *)
Theorem loadFromPlyFile_no_texcoords (m m' : Mesh) (input : PlyInput) :
  loadFromPlyFile m input = Ok m' ->
  texcoords m' = []
  /\ (vertices m' <> [] -> hasTexcoords m' = false)
  /\ face_texcoords m' = face_texcoords m
  /\ texture m' = texture m
  /\ forall r, face_texcoords r = face_texcoords m -> texture r = texture m ->
       loadFromPlyFile r input = Ok m'.
Proof.
  unfold loadFromPlyFile. destruct input as [| | elems]; try discriminate.
  intros H. apply bind_Ok in H as (fs & Hfs & H). inversion H. subst m'.
  cbn [texcoords vertices face_texcoords texture]. clear H.
  split; [reflexivity |]. split; [| split; [reflexivity | split; [reflexivity |]]].
  - intros Hne. apply length_pos in Hne. unfold hasTexcoords.
    cbn [texcoords vertices]. apply Nat.eqb_neq. cbn [length]. lia.
  - intros r Hr1 Hr2. rewrite Hfs. cbn [mbind result_bind Res.bind].
    rewrite Hr1, Hr2. reflexivity.
Qed.

Lemma loadFromPlyFile_no_texcoords_witness :
  exists m',
    loadFromPlyFile painted (Parsed textured_file) = Ok m'
    /\ texcoords m' = []
    /\ (vertices m' <> [] -> hasTexcoords m' = false)
    /\ face_texcoords m' = face_texcoords painted
    /\ texture m' = texture painted
    /\ forall r, face_texcoords r = face_texcoords painted ->
         texture r = texture painted ->
         loadFromPlyFile r (Parsed textured_file) = Ok m'.
Proof.
  eexists. split; [reflexivity |].
  apply (loadFromPlyFile_no_texcoords painted _ (Parsed textured_file)).
  reflexivity.
Defined.

(** A loop whose turns return or read out of bounds reads out of bounds
    as soon as one turn does. *)
Lemma mapM_res_Undef {A B : Type} (f : A -> result B) (l : list A) (x : A) :
  (forall a, a ∈ l -> (exists b, f a = Ok b) \/ f a = Undef) ->
  x ∈ l -> f x = Undef -> mapM_res f l = Undef.
Proof.
  intros Hcases Hx Hfx. induction l as [| a l IH]; [inversion Hx |].
  cbn [mapM_res].
  destruct (Hcases a ltac:(apply elem_of_cons; auto)) as [[b Hb] | Hb];
    rewrite Hb; [| reflexivity].
  cbn [mbind result_bind Res.bind].
  apply elem_of_cons in Hx as [-> | Hx]; [congruence |].
  rewrite IH; [reflexivity | | exact Hx].
  intros a' Ha'. apply Hcases. apply elem_of_cons. auto.
Qed.

Lemma shared_uv_cases (m : Mesh) (i : Z) :
  (exists b, shared_uv m i = Ok b /\ 0 <= i < vsize (texcoords m))
  \/ (shared_uv m i = Undef /\ ~ 0 <= i < vsize (texcoords m)).
Proof.
  unfold shared_uv.
  destruct (vget_Ok_or_Undef (texcoords m) i) as [(t & -> & Hi) | [-> Hi]].
  - left. eexists. split; [reflexivity | exact Hi].
  - right. split; [reflexivity | exact Hi].
Qed.

Lemma mapM_res_total {A B : Type} (f : A -> result B) (l : list A) :
  (forall a, a ∈ l -> (exists b, f a = Ok b) \/ f a = Undef) ->
  (exists bs, mapM_res f l = Ok bs) \/ mapM_res f l = Undef.
Proof.
  induction l as [| a l IH]; intros Hcases; [left; eexists; reflexivity |].
  cbn [mapM_res].
  destruct (Hcases a ltac:(apply elem_of_cons; auto)) as [[b Hb] | Hb];
    rewrite Hb; [| right; reflexivity].
  cbn [mbind result_bind Res.bind].
  destruct IH as [[bs Hbs] | Hbs];
    [intros a' Ha'; apply Hcases; apply elem_of_cons; auto | |];
    rewrite Hbs; [left; eexists; reflexivity | right; reflexivity].
Qed.

(** X24. The writer checks no face index. For a mesh with texture
    coordinates and without wedge coordinates, a face index that
    designates no vertex makes the look-up of its texture coordinate read
    out of bounds, and nothing is returned. *)
Theorem saveToPlyFile_stray_index (hasFaceTexcoords : Mesh -> bool)
    (m : Mesh) (filename : string) (f : Face) (i : Z) :
  hasFaceTexcoords m = false -> hasTexcoords m = true ->
  f ∈ faces m -> i ∈ indices f -> ~ index_in_range m i ->
  saveToPlyFile hasFaceTexcoords m filename = Undef.
Proof.
  intros Hft Ht Hf Hi Hbad. unfold saveToPlyFile.
  destruct (vertex_lines_run m (vertices m) 0 ltac:(lia)) as (vls & -> & _).
  cbn [mbind result_bind Res.bind].
  assert (Hfaces : hasFaces m = true).
  { unfold hasFaces. apply negb_true_iff, Nat.eqb_neq.
    destruct (faces m); [inversion Hf | discriminate]. }
  rewrite Hfaces.
  assert (Hline : forall (k : nat) g,
            face_line hasFaceTexcoords m (k, g)
            = (uv ← mapM_res (shared_uv m) (indices g);
               Ok [TInt (numVertices g) :: map TInt (indices g);
                   TInt 6 :: concat uv])).
  { intros k g. unfold face_line. rewrite Hft, Ht. reflexivity. }
  assert (Huv : forall g,
            (exists uv, mapM_res (shared_uv m) (indices g) = Ok uv)
            \/ mapM_res (shared_uv m) (indices g) = Undef).
  { intros g. apply mapM_res_total. intros a _.
    destruct (shared_uv_cases m a) as [(b & Hb & _) | [Hb _]];
      [left; exists b; exact Hb | right; exact Hb]. }
  apply list_elem_of_lookup_1 in Hf as [k Hk].
  rewrite (mapM_res_Undef (face_line hasFaceTexcoords m) _ (k, f));
    [reflexivity | | |].
  - intros [k' g] _. rewrite Hline.
    destruct (Huv g) as [[uv ->] | ->];
      [left; eexists; reflexivity | right; reflexivity].
  - apply list_elem_of_lookup_2 with k.
    apply lookup_zip_with_Some. exists k, f.
    split; [reflexivity |]. split; [| exact Hk].
    apply lookup_seq. split; [reflexivity |].
    apply lookup_lt_Some in Hk. exact Hk.
  - rewrite Hline.
    rewrite (mapM_res_Undef (shared_uv m) (indices f) i); [reflexivity | | |].
    + intros a _.
      destruct (shared_uv_cases m a) as [(b & Hb & _) | [Hb _]];
        [left; exists b; exact Hb | right; exact Hb].
    + exact Hi.
    + destruct (shared_uv_cases m i) as [(b & _ & Hr) | [Hb _]];
        [| exact Hb].
      exfalso. apply Hbad. unfold index_in_range, vsize in *.
      unfold hasTexcoords in Ht. apply Nat.eqb_eq in Ht.
      rewrite <- Ht. exact Hr.
Qed.

Lemma saveToPlyFile_stray_index_witness :
  saveToPlyFile no_wedges stray_textured "mesh.ply" = Undef.
Proof.
  apply (saveToPlyFile_stray_index no_wedges stray_textured "mesh.ply"
           (mkFace 0 0 7) 7).
  - reflexivity.
  - reflexivity.
  - apply list_elem_of_singleton. reflexivity.
  - unfold indices. simpl. rewrite !elem_of_cons. auto.
  - unfold index_in_range, vsize. simpl. lia.
Defined.

(** ** The trip through a file *)

Lemma prefix_app (p s : string) : String.prefix p (p +:+ s) = true.
Proof. apply String.prefix_correct. apply substring_stem. Qed.

Section RoundTrip.

Variable hasFaceTexcoords : Mesh -> bool.
Variable m : Mesh.

Hypothesis Hvertices : vertices m <> [].
Hypothesis Hnormals : hasNormals m = true.
Hypothesis Hcolors : hasColors m = true.
Hypothesis Htexcoords : texcoords m = [].
Hypothesis Hwedges : hasFaceTexcoords m = false.

Lemma plain_no_texcoords : hasTexcoords m = false.
Proof.
  unfold hasTexcoords. rewrite Htexcoords. apply Nat.eqb_neq.
  apply length_pos in Hvertices. simpl. lia.
Qed.

Lemma plain_lengths :
  length (normals m) = length (vertices m)
  /\ length (colors m) = length (vertices m).
Proof.
  split; [apply Nat.eqb_eq, Hnormals | apply Nat.eqb_eq, Hcolors].
Qed.

Lemma vertex_line_row (k : nat) (p n : Point3f) (c : Vec3b) :
  normals m !! k = Some n -> colors m !! k = Some c ->
  vertex_line m (k, p) = Ok (vertex_row p n c).
Proof.
  intros Hn Hc. unfold vertex_line.
  rewrite Hnormals, Hcolors, plain_no_texcoords.
  rewrite !vget_of_nat, Hn, Hc. reflexivity.
Qed.

Lemma vertex_lines_rows (vs : list Point3f) :
  forall s : nat,
    (s + length vs)%nat = length (vertices m) ->
    mapM_res (vertex_line m) (zip (seq s (length vs)) vs)
    = Ok (vertex_rows vs (drop s (normals m)) (drop s (colors m))).
Proof.
  destruct plain_lengths as [Hln Hlc].
  induction vs as [| p vs IH]; intros s Hs; [reflexivity |].
  cbn [length] in Hs. cbn [length seq zip zip_with mapM_res].
  destruct (normals m !! s) as [n |] eqn:En;
    [| apply lookup_ge_None in En; lia].
  destruct (colors m !! s) as [c |] eqn:Ec;
    [| apply lookup_ge_None in Ec; lia].
  rewrite (vertex_line_row s p n c En Ec).
  cbn [mbind result_bind Res.bind].
  rewrite (IH (S s)) by lia. cbn [mbind result_bind Res.bind].
  rewrite (drop_S _ _ _ En), (drop_S _ _ _ Ec). reflexivity.
Qed.

Lemma face_lines_rows (fs : list Face) :
  forall s : nat,
    mapM_res (face_line hasFaceTexcoords m) (zip (seq s (length fs)) fs)
    = Ok (map (fun f => [face_row f]) fs).
Proof.
  induction fs as [| f fs IH]; intros s; [reflexivity |].
  cbn [length seq zip zip_with mapM_res map].
  assert (Hline : face_line hasFaceTexcoords m (s, f) = Ok [face_row f]).
  { unfold face_line. rewrite Hwedges, plain_no_texcoords. reflexivity. }
  rewrite Hline, (IH (S s)). reflexivity.
Qed.

Lemma concat_singletons {A : Type} (l : list A) :
  concat (map (fun a => [a]) l) = l.
Proof. induction l as [| a l IH]; [reflexivity |]. cbn. rewrite IH. reflexivity. Qed.

(** What the writer writes for such a mesh. *)
Lemma saveToPlyFile_plain (filename : string) :
  saveToPlyFile hasFaceTexcoords m filename
  = Ok (mkPlyText
          match texture m with
          | Some image => Some (texture_filename filename, image)
          | None => None
          end
          (ply_header hasFaceTexcoords m)
          (vertex_rows (vertices m) (normals m) (colors m))
          (map face_row (faces m))).
Proof.
  unfold saveToPlyFile.
  rewrite (vertex_lines_rows (vertices m) 0 eq_refl).
  cbn [mbind result_bind Res.bind drop].
  destruct (hasFaces m) eqn:Ef.
  - rewrite face_lines_rows. cbn [mbind result_bind Res.bind].
    rewrite <- (map_map face_row (fun a => [a])), concat_singletons.
    reflexivity.
  - cbn [mbind result_bind Res.bind].
    unfold hasFaces in Ef. apply negb_false_iff, Nat.eqb_eq in Ef.
    destruct (faces m); [reflexivity | discriminate].
Qed.

Lemma header_plain :
  ply_header hasFaceTexcoords m
  = ["ply"; "format ascii 1.0";
     "element vertex " +:+ pretty (length (vertices m));
     "property float x"; "property float y"; "property float z";
     "property float nx"; "property float ny"; "property float nz";
     "property uchar red"; "property uchar green"; "property uchar blue"]
    ++ (if hasFaces m
        then ["element face " +:+ pretty (length (faces m));
              "property list uchar uint vertex_indices"]
        else [])
    ++ ["end_header"].
Proof.
  unfold ply_header.
  rewrite Hnormals, Hcolors, plain_no_texcoords, Hwedges.
  destruct (hasFaces m); reflexivity.
Qed.

Lemma header_scalars :
  omap scalar_property_name (ply_header hasFaceTexcoords m)
  = ["x"; "y"; "z"; "nx"; "ny"; "nz"; "red"; "green"; "blue"].
Proof. rewrite header_plain. destruct (hasFaces m); reflexivity. Qed.

Lemma header_lists :
  hasFaces m = true ->
  omap list_property_name (ply_header hasFaceTexcoords m) = ["vertex_indices"].
Proof. intros H. rewrite header_plain, H. reflexivity. Qed.

Lemma header_face_element :
  existsb (String.prefix "element face ") (ply_header hasFaceTexcoords m)
  = hasFaces m.
Proof.
  rewrite header_plain.
  assert (H1 : String.prefix "element face "
                 ("element vertex " +:+ pretty (length (vertices m))) = false)
    by reflexivity.
  destruct (hasFaces m); cbn [app existsb]; rewrite H1;
    rewrite ?(prefix_app "element face "); reflexivity.
Qed.

Lemma header_vertex_count :
  "element vertex " +:+ pretty (length (vertices m))
  ∈ ply_header hasFaceTexcoords m.
Proof. rewrite header_plain. rewrite !elem_of_app, !elem_of_cons. auto. Qed.

Lemma header_face_count :
  hasFaces m = true ->
  "element face " +:+ pretty (length (faces m))
  ∈ ply_header hasFaceTexcoords m.
Proof.
  intros H. rewrite header_plain, H. rewrite !elem_of_app, !elem_of_cons. auto.
Qed.

End RoundTrip.

Lemma vertex_rows_length (vs ns : list Point3f) (cs : list Vec3b) :
  length ns = length vs -> length cs = length vs ->
  length (vertex_rows vs ns cs) = length vs.
Proof.
  revert ns cs. induction vs as [| p vs IH]; intros [| n ns] [| c cs] Hn Hc;
    try discriminate; [reflexivity |].
  cbn [vertex_rows length]. rewrite IH by (simpl in *; lia). reflexivity.
Qed.

Lemma read_vertex_row (text : float -> float) (p n : Point3f) (c : Vec3b) :
  uchar_color c ->
  read_vertex text ["x"; "y"; "z"; "nx"; "ny"; "nz"; "red"; "green"; "blue"]
              (vertex_row p n c) blank_vertex
  = Some (ply_record text p n c).
Proof.
  intros (H0 & H1 & H2). unfold vertex_row, ply_record. cbn.
  rewrite !Z.mod_small by lia. reflexivity.
Qed.

Lemma read_vertices_rows (text : float -> float) (vs ns : list Point3f)
    (cs : list Vec3b) :
  Forall uchar_color cs ->
  read_vertices text ["x"; "y"; "z"; "nx"; "ny"; "nz"; "red"; "green"; "blue"]
                (vertex_rows vs ns cs)
  = Some (ply_records text vs ns cs).
Proof.
  revert ns cs. induction vs as [| p vs IH]; intros ns cs Hcs; [reflexivity |].
  destruct ns as [| n ns]; [reflexivity |].
  destruct cs as [| c cs]; [reflexivity |].
  apply Forall_cons in Hcs as [Hc Hcs].
  cbn [vertex_rows ply_records read_vertices].
  rewrite (read_vertex_row text p n c Hc). cbn [mbind option_bind].
  rewrite (IH ns cs Hcs). reflexivity.
Qed.

Lemma ply_records_fields (text : float -> float) (vs ns : list Point3f)
    (cs : list Vec3b) :
  length ns = length vs -> length cs = length vs ->
  map (fun v => mkPoint3f (ply_x v) (ply_y v) (ply_z v))
      (ply_records text vs ns cs) = map (text_point text) vs
  /\ map (fun v => mkVec3b (ply_r v) (ply_g v) (ply_b v))
         (ply_records text vs ns cs) = cs
  /\ map (fun v => mkPoint3f (ply_nx v) (ply_ny v) (ply_nz v))
         (ply_records text vs ns cs)
     = map (fun n => text_point text (zero_nan n)) ns.
Proof.
  revert ns cs. induction vs as [| p vs IH]; intros [| n ns] [| c cs] Hn Hc;
    try discriminate; [repeat split; reflexivity |].
  destruct (IH ns cs) as (Hv & Hcl & Hnr); [simpl in *; lia.. |].
  cbn [ply_records map]. rewrite Hv, Hcl, Hnr.
  destruct c. repeat split; reflexivity.
Qed.

Lemma read_face_row (f : Face) :
  int_face f -> read_face (face_row f) = Some (face_record f).
Proof.
  intros Hf. destruct f as [a b c]. unfold int_face, indices in Hf.
  cbn [idx0 idx1 idx2] in Hf.
  apply Forall_cons in Hf as [Ha Hf]. apply Forall_cons in Hf as [Hb Hf].
  apply Forall_cons in Hf as [Hc _].
  unfold face_row, face_record, read_face, numVertices, indices.
  cbn [map length idx0 idx1 idx2 read_indices int_of_token mbind option_bind].
  rewrite !wrap32_small by lia. reflexivity.
Qed.

Lemma read_faces_rows (fs : list Face) :
  Forall int_face fs ->
  read_faces (map face_row fs) = Some (map face_record fs).
Proof.
  induction fs as [| f fs IH]; intros Hfs; [reflexivity |].
  apply Forall_cons in Hfs as [Hf Hfs].
  cbn [map read_faces]. rewrite (read_face_row f Hf).
  cbn [mbind option_bind]. rewrite (IH Hfs). reflexivity.
Qed.

Lemma convert_face_records (fs : list Face) :
  mapM_res convert_face (map face_record fs) = Ok fs.
Proof.
  induction fs as [| f fs IH]; [reflexivity |].
  cbn [map mapM_res].
  assert (Hf : convert_face (face_record f) = Ok f) by (destruct f; reflexivity).
  rewrite Hf, IH. reflexivity.
Qed.

Lemma map_eq_pointwise {A B : Type} (f g : A -> B) (l : list A) :
  map f l = map g l <-> forall a, a ∈ l -> f a = g a.
Proof.
  induction l as [| a l IH]; cbn [map].
  - split; [intros _ a Ha; inversion Ha | reflexivity].
  - split.
    + intros H a' Ha'. inversion H as [[Hh Ht]].
      apply elem_of_cons in Ha' as [-> | Ha']; [exact Hh |].
      apply (proj1 IH Ht a' Ha').
    + intros H. f_equal.
      * apply H. apply elem_of_cons. auto.
      * apply IH. intros a' Ha'. apply H. apply elem_of_cons. auto.
Qed.

(** C1. A mesh that has vertices, a normal and a color per vertex (the
    components of a color being [unsigned char]s, the indices of a face
    [int]s), no texture coordinates and no wedge coordinates is saved,
    the file is read, and the load returns a mesh with as many vertices
    and the same faces, the same colors, no texture coordinates, and the
    positions and the normals that come back from the text of their
    coordinates, the normals after the replacement of each NaN coordinate
    by zero. Positions and normals are equal to the ones saved exactly
    when the text gives every coordinate back. *)
Theorem save_load_round_trip (hasFaceTexcoords : Mesh -> bool)
    (text : float -> float) (m r : Mesh) (filename : string) :
  vertices m <> [] -> hasNormals m = true -> hasColors m = true ->
  texcoords m = [] -> hasFaceTexcoords m = false ->
  Forall uchar_color (colors m) -> Forall int_face (faces m) ->
  exists out input m',
    saveToPlyFile hasFaceTexcoords m filename = Ok out
    /\ read_ply text out = Some input
    /\ loadFromPlyFile r input = Ok m'
    /\ length (vertices m') = length (vertices m)
    /\ length (faces m') = length (faces m)
    /\ faces m' = faces m
    /\ colors m' = colors m
    /\ texcoords m' = []
    /\ vertices m' = map (text_point text) (vertices m)
    /\ normals m' = map (fun n => text_point text (zero_nan n)) (normals m)
    /\ ((forall p, p ∈ vertices m -> text_point text p = p) <->
        vertices m' = vertices m)
    /\ ((forall n, n ∈ normals m ->
           text_point text (zero_nan n) = zero_nan n) <->
        normals m' = map zero_nan (normals m)).
Proof.
  intros Hv Hn Hc Ht Hw Hcs Hfs.
  destruct (plain_lengths m Hn Hc) as [Hln Hlc].
  pose proof (saveToPlyFile_plain hasFaceTexcoords m Hv Hn Hc Ht Hw filename)
    as Hsave.
  set (props := ["x"; "y"; "z"; "nx"; "ny"; "nz"; "red"; "green"; "blue"]).
  set (records := ply_records text (vertices m) (normals m) (colors m)).
  destruct (ply_records_fields text (vertices m) (normals m) (colors m)
              Hln Hlc) as (Hpos & Hcol & Hnor).
  fold records in Hpos, Hcol, Hnor.
  assert (Hread : exists input,
            read_ply text
              (mkPlyText
                 match texture m with
                 | Some image => Some (texture_filename filename, image)
                 | None => None
                 end
                 (ply_header hasFaceTexcoords m)
                 (vertex_rows (vertices m) (normals m) (colors m))
                 (map face_row (faces m))) = Some input
            /\ loadFromPlyFile r input
               = Ok (mkMesh (map (text_point text) (vertices m)) (colors m)
                            (map (fun n => text_point text (zero_nan n))
                                 (normals m))
                            [] (faces m) (face_texcoords r) (texture r))).
  { unfold read_ply. cbn [header vertex_lines face_lines].
    rewrite (vertex_rows_length _ _ _ Hln Hlc).
    rewrite (bool_decide_eq_true_2 _
               (header_vertex_count hasFaceTexcoords m Hv Hn Hc Ht Hw)).
    rewrite (header_scalars hasFaceTexcoords m Hv Hn Hc Ht Hw).
    rewrite (read_vertices_rows text _ _ _ Hcs). cbn [mbind option_bind].
    rewrite (header_face_element hasFaceTexcoords m Hv Hn Hc Ht Hw).
    fold props. fold records.
    destruct (hasFaces m) eqn:Ef.
    - rewrite length_map.
      rewrite (bool_decide_eq_true_2 _
                 (header_face_count hasFaceTexcoords m Hv Hn Hc Ht Hw Ef)).
      rewrite (bool_decide_eq_true_2 _
                 (header_lists hasFaceTexcoords m Hv Hn Hc Ht Hw Ef)).
      cbn [andb]. rewrite (read_faces_rows _ Hfs). cbn [mbind option_bind].
      eexists. split; [reflexivity |].
      unfold loadFromPlyFile.
      assert (Hst : read_elements
                      [VertexElement props records;
                       FaceElement ["vertex_indices"]
                                   (map face_record (faces m))]
                    = mkLoadState true true false true records
                                  (map face_record (faces m)))
        by reflexivity.
      rewrite Hst.
      cbn [has_colors has_normals has_faces ply_vertices ply_faces].
      rewrite convert_face_records. cbn [mbind result_bind Res.bind].
      rewrite Hpos, Hcol, Hnor. reflexivity.
    - eexists. split; [reflexivity |].
      unfold loadFromPlyFile.
      assert (Hst : read_elements [VertexElement props records]
                    = mkLoadState true true false false records [])
        by reflexivity.
      rewrite Hst.
      cbn [has_colors has_normals has_faces ply_vertices ply_faces].
      cbn [mbind result_bind Res.bind].
      rewrite Hpos, Hcol, Hnor.
      unfold hasFaces in Ef. apply negb_false_iff, Nat.eqb_eq in Ef.
      destruct (faces m); [reflexivity | discriminate]. }
  destruct Hread as (input & Hread & Hload).
  eexists. exists input. eexists.
  split; [exact Hsave |]. split; [exact Hread |]. split; [exact Hload |].
  cbn [vertices colors normals texcoords faces].
  split; [apply length_map |]. split; [reflexivity |].
  split; [reflexivity |]. split; [reflexivity |]. split; [reflexivity |].
  split; [reflexivity |]. split; [reflexivity |]. split.
  - split; intros H.
    + rewrite <- (List.map_id (vertices m)) at 2.
      apply map_eq_pointwise. exact H.
    + apply (map_eq_pointwise (text_point text) id).
      rewrite List.map_id. exact H.
  - symmetry. apply map_eq_pointwise.
Qed.

(** [traveller] comes back as it was saved, with the NaN of its second
    normal replaced by zero. *)
Lemma save_load_round_trip_witness :
  exists out input m',
    saveToPlyFile no_wedges traveller "mesh.ply" = Ok out
    /\ read_ply stream_text out = Some input
    /\ loadFromPlyFile empty_mesh input = Ok m'
    /\ vertices m' = vertices traveller
    /\ faces m' = faces traveller
    /\ colors m' = colors traveller
    /\ normals m' = [pt 0 0 1; pt 0 0 1; pt 0 0 1].
Proof.
  destruct (save_load_round_trip no_wedges stream_text traveller empty_mesh
              "mesh.ply")
    as (out & input & m' & Hsave & Hread & Hload & _ & _ & Hf & Hc & _ & _
        & _ & Hv & Hn).
  - discriminate.
  - reflexivity.
  - reflexivity.
  - reflexivity.
  - reflexivity.
  - repeat constructor; vm_compute; congruence.
  - repeat constructor; vm_compute; congruence.
  - exists out, input, m'.
    split; [exact Hsave |]. split; [exact Hread |]. split; [exact Hload |].
    split; [| split; [exact Hf | split; [exact Hc |]]].
    + apply (proj1 Hv). intros p Hp. cbn [vertices traveller] in Hp.
      rewrite !elem_of_cons in Hp. rewrite elem_of_nil in Hp.
      destruct Hp as [-> | [-> | [-> | []]]]; vm_compute; reflexivity.
    + rewrite (proj1 Hn); [reflexivity |].
      intros n Hp. cbn [normals traveller] in Hp.
      rewrite !elem_of_cons in Hp. rewrite elem_of_nil in Hp.
      destruct Hp as [-> | [-> | [-> | []]]]; vm_compute; reflexivity.
Defined.

(** C1 as stated fails on [seven_digits]: the coordinate 1234567 is
    written with the six digits of the default precision, as 1.23457e+06,
    and the vertex comes back at 1234570. *)
Lemma save_load_loses_digits :
  vertices seven_digits <> [] /\ hasNormals seven_digits = true
  /\ hasColors seven_digits = true /\ texcoords seven_digits = []
  /\ stream_text (F32.of_Z 1234567) = F32.of_Z 1234570
  /\ exists out input m',
       saveToPlyFile no_wedges seven_digits "mesh.ply" = Ok out
       /\ read_ply stream_text out = Some input
       /\ loadFromPlyFile empty_mesh input = Ok m'
       /\ vertices seven_digits = [pt 1234567 0 0; pt 1 0 0; pt 0 1 0]
       /\ vertices m' = [pt 1234570 0 0; pt 1 0 0; pt 0 1 0]
       /\ P3.eqb (pt 1234567 0 0) (pt 1234570 0 0) = false.
Proof.
  split; [discriminate |]. split; [reflexivity |]. split; [reflexivity |].
  split; [reflexivity |]. split; [vm_compute; reflexivity |].
  eexists. eexists. eexists.
  split; [vm_compute; reflexivity |].
  split; [vm_compute; reflexivity |].
  split; [vm_compute; reflexivity |].
  split; [reflexivity |].
  split; [vm_compute; reflexivity |].
  vm_compute. reflexivity.
Qed.
